(** * Minesweeper knowledge-based agent: a shallow embedding of
      [minesweeper.py] (classes [Sentence] and [MinesweeperAI]) and the
      properties of its inference engine. *)

From stdpp Require Import gmap list sets fin_sets.
From Stdlib Require Import ZArith Lia Ascii.

Local Open Scope Z_scope.
#[local] Set Warnings "-clear-no-such-hyp".

(** ** Cells *)

(** A board cell is a Python tuple [(i, j)] of integers. *)
Abbreviation Cell := (Z * Z)%type.

(** ** Sentence *)

(** [Sentence]: a set of cells and the number of them that are mines.
    [count] is a Python integer, never clamped by the class. *)
Record Sentence := mkSentence {
  cells : gset Cell;
  count : Z
}.

Global Instance Sentence_eq_dec : EqDecision Sentence.
Proof. solve_decision. Defined.

Global Instance Sentence_inhabited : Inhabited Sentence :=
  populate (mkSentence ∅ 0).

Module Sentence.

(** [__eq__]: equal cell sets and equal counts. *)
Definition eqb (s o : Sentence) : bool :=
  bool_decide (cells s = cells o) && bool_decide (count s = count o).

(** [known_mines]: [self.cells] when [self.count == len(self.cells)]. *)
Definition known_mines (s : Sentence) : gset Cell :=
  if bool_decide (count s = Z.of_nat (size (cells s))) then cells s else ∅.

(** [known_safes]: [self.cells] when [self.count == 0]. *)
Definition known_safes (s : Sentence) : gset Cell :=
  if bool_decide (count s = 0) then cells s else ∅.

(** [mark_mine]: drop the cell and decrement the count, when present. *)
Definition mark_mine (cell : Cell) (s : Sentence) : Sentence :=
  if bool_decide (cell ∈ cells s)
  then mkSentence (cells s ∖ {[cell]}) (count s - 1)
  else s.

(** [mark_safe]: drop the cell, when present. *)
Definition mark_safe (cell : Cell) (s : Sentence) : Sentence :=
  if bool_decide (cell ∈ cells s)
  then mkSentence (cells s ∖ {[cell]}) (count s)
  else s.

End Sentence.

(** ** Outcomes of effectful code *)

(** A Python call either returns, raises, or (for the two unbounded
    [while] loops, which are run on fuel) has not returned yet. *)
Inductive exn := ValueError.

Inductive outcome (A : Type) :=
  | Done (a : A)
  | Raised (e : exn)
  | Timeout.
Arguments Done {A} a.
Arguments Raised {A} e.
Arguments Timeout {A}.

Global Instance outcome_bind : MBind outcome := λ A B k m,
  match m with
  | Done a => k a
  | Raised e => Raised e
  | Timeout => Timeout
  end.

(** ** MinesweeperAI *)

(** The engine state. [Sentence] objects are mutable and shared between
    [self.knowledge] and its [copy()], so they live in a [store] (a
    reference is an index into it) and [knowledge] is a list of
    references. *)
Record MinesweeperAI := mkAI {
  height : Z;
  width : Z;
  moves_made : gset Cell;
  mines : gset Cell;
  safes : gset Cell;
  store : list Sentence;
  knowledge : list nat
}.

(** [MinesweeperAI.__init__] *)
Definition init (h w : Z) : MinesweeperAI := mkAI h w ∅ ∅ ∅ [] [].

Definition set_moves_made (X : gset Cell) (st : MinesweeperAI) :=
  mkAI (height st) (width st) X (mines st) (safes st) (store st) (knowledge st).
Definition set_mines (X : gset Cell) (st : MinesweeperAI) :=
  mkAI (height st) (width st) (moves_made st) X (safes st) (store st) (knowledge st).
Definition set_safes (X : gset Cell) (st : MinesweeperAI) :=
  mkAI (height st) (width st) (moves_made st) (mines st) X (store st) (knowledge st).
Definition set_store (h : list Sentence) (st : MinesweeperAI) :=
  mkAI (height st) (width st) (moves_made st) (mines st) (safes st) h (knowledge st).
Definition set_knowledge (k : list nat) (st : MinesweeperAI) :=
  mkAI (height st) (width st) (moves_made st) (mines st) (safes st) (store st) k.

(** The object behind a reference. *)
Definition deref (h : list Sentence) (id : nat) : Sentence := h !!! id.

(** The sentences of the knowledge base, by value, in list order. *)
Definition sentences (st : MinesweeperAI) : list Sentence :=
  deref (store st) <$> knowledge st.

(** [for sentence in self.knowledge: sentence.f(cell)] *)
Definition update_all (f : Sentence → Sentence) (k : list nat)
    (h : list Sentence) : list Sentence :=
  foldl (λ h id, alter f id h) h k.

(** [MinesweeperAI.mark_mine] *)
Definition mark_mine (cell : Cell) (st : MinesweeperAI) : MinesweeperAI :=
  let st := set_mines ({[cell]} ∪ mines st) st in
  set_store (update_all (Sentence.mark_mine cell) (knowledge st) (store st)) st.

(** [MinesweeperAI.mark_safe] *)
Definition mark_safe (cell : Cell) (st : MinesweeperAI) : MinesweeperAI :=
  let st := set_safes ({[cell]} ∪ safes st) st in
  set_store (update_all (Sentence.mark_safe cell) (knowledge st) (store st)) st.

(** [s in self.knowledge], which compares with [Sentence.__eq__]. *)
Definition contains (st : MinesweeperAI) (s : Sentence) : bool :=
  existsb (λ id, Sentence.eqb (deref (store st) id) s) (knowledge st).

(** [self.knowledge.append(s)] for a freshly built sentence. *)
Definition append (s : Sentence) (st : MinesweeperAI) : MinesweeperAI :=
  set_knowledge (knowledge st ++ [length (store st)])
    (set_store (store st ++ [s]) st).

(** [list.remove(x)]: drops the first item equal to [x], raises
    [ValueError] when there is none. *)
Fixpoint list_remove (h : list Sentence) (x : Sentence) (k : list nat)
    : outcome (list nat) :=
  match k with
  | [] => Raised ValueError
  | id :: k' =>
      if Sentence.eqb (deref h id) x then Done k'
      else k'' ← list_remove h x k'; Done (id :: k'')
  end.

(** *** add_knowledge, up to the fixed-point loop *)

(** The body of the two nested [range] loops for one candidate [(m, n)];
    the accumulator is [(count, neighbours)]. *)
Definition visit (st : MinesweeperAI) (i j m n : Z) (acc : Z * gset Cell)
    : Z * gset Cell :=
  if bool_decide ((m = i ∧ n = j) ∨ m < 0 ∨ n < 0 ∨ m >= height st ∨ n >= width st)
  then acc
  else if bool_decide ((m, n) ∈ mines st) then (acc.1 - 1, acc.2)
  else if bool_decide ((m, n) ∉ safes st) then (acc.1, {[ (m, n) ]} ∪ acc.2)
  else acc.

Definition scan_neighbours (st : MinesweeperAI) (cell : Cell) (count : Z)
    : Z * gset Cell :=
  let '(i, j) := cell in
  foldl (λ acc m, foldl (λ acc n, visit st i j m n acc) acc (seqZ (j - 1) 3))
        (count, ∅) (seqZ (i - 1) 3).

(** Steps 1 to 3 of [add_knowledge]: record the move, mark the cell safe,
    build the sentence of the unresolved neighbours and store it unless
    an equal one is there. *)
Definition observe (cell : Cell) (count : Z) (st : MinesweeperAI)
    : MinesweeperAI :=
  let st := set_moves_made ({[cell]} ∪ moves_made st) st in
  let st := mark_safe cell st in
  let '(count, neighbours) := scan_neighbours st cell count in
  if bool_decide (neighbours ≠ ∅) then
    let new_sentence := mkSentence neighbours count in
    if negb (contains st new_sentence) then append new_sentence st else st
  else st.

(** *** The fixed-point loop *)

(** [for block in X: self.mark_...(block); possible_inference = True] *)
Definition mark_each (mark : Cell → MinesweeperAI → MinesweeperAI)
    (X : gset Cell) (acc : MinesweeperAI * bool) : MinesweeperAI * bool :=
  foldl (λ acc block, (mark block acc.1, true)) acc (elements X).

(** [sentence.cells.remove(cell)] on the sentence behind [id]. *)
Definition strip (cell : Cell) (id : nat) (st : MinesweeperAI)
    : MinesweeperAI :=
  set_store (alter (λ s, mkSentence (cells s ∖ {[cell]}) (count s))
                   id (store st)) st.

(** The body of the first [for] loop for the sentence behind [id]. *)
Definition process (cell : Cell) (id : nat) (acc : MinesweeperAI * bool)
    : outcome (MinesweeperAI * bool) :=
  let '(st, possible_inference) := acc in
  let '(st, possible_inference) :=
    if bool_decide (cell ∈ cells (deref (store st) id))
    then (strip cell id st, true)
    else (st, possible_inference) in
  st ← (if bool_decide (cells (deref (store st) id) = ∅)
        then k ← list_remove (store st) (deref (store st) id) (knowledge st);
             Done (set_knowledge k st)
        else Done st);
  let acc := mark_each mark_mine
               (Sentence.known_mines (deref (store st) id))
               (st, possible_inference) in
  let acc := mark_each mark_safe
               (Sentence.known_safes (deref (store acc.1) id)) acc in
  Done acc.

(** [for i, sentence in enumerate(self.knowledge.copy()): ...] *)
Fixpoint process_all (cell : Cell) (copy : list nat)
    (acc : MinesweeperAI * bool) : outcome (MinesweeperAI * bool) :=
  match copy with
  | [] => Done acc
  | id :: copy' => acc ← process cell id acc; process_all cell copy' acc
  end.

(** The two [if]s on an ordered pair [(sentence, following)]. *)
Definition infer_pair (sentence following : Sentence) : list Sentence :=
  (if bool_decide (cells following ⊂ cells sentence) then
     let new_cells := cells sentence ∖ cells following in
     let new_count := count sentence - count following in
     if bool_decide (new_cells ≠ ∅) then [mkSentence new_cells new_count]
     else []
   else [])
  ++
  (if bool_decide (cells sentence ⊂ cells following) then
     let new_cells := cells following ∖ cells sentence in
     let new_count := count following - count sentence in
     if bool_decide (new_cells ≠ ∅) then [mkSentence new_cells new_count]
     else []
   else []).

(** [infered_sentences], for
    [for i, sentence in enumerate(k): for following in k[i+1:]: ...]. *)
Fixpoint infer_all (k : list Sentence) : list Sentence :=
  match k with
  | [] => []
  | sentence :: rest =>
      flat_map (infer_pair sentence) rest ++ infer_all rest
  end.

(** [if s not in self.knowledge: possible_inference = True; append(s)] *)
Definition add_inferred (acc : MinesweeperAI * bool) (s : Sentence)
    : MinesweeperAI * bool :=
  if contains acc.1 s then acc else (append s acc.1, true).

(** The subset-inference half of a pass. *)
Definition infer (acc : MinesweeperAI * bool) : MinesweeperAI * bool :=
  foldl add_inferred acc (infer_all (sentences acc.1)).

(** One iteration of [while possible_inference]. *)
Definition pass (cell : Cell) (st : MinesweeperAI)
    : outcome (MinesweeperAI * bool) :=
  acc ← process_all cell (knowledge st) (st, false);
  Done (infer acc).

(** [while possible_inference: ...], at most [fuel] iterations. *)
Fixpoint closure (fuel : nat) (cell : Cell) (st : MinesweeperAI)
    : outcome MinesweeperAI :=
  match fuel with
  | O => Timeout
  | S fuel =>
      match pass cell st with
      | Done (st, possible_inference) =>
          if possible_inference then closure fuel cell st else Done st
      | Raised e => Raised e
      | Timeout => Timeout
      end
  end.

(** [MinesweeperAI.add_knowledge] *)
Definition add_knowledge (fuel : nat) (cell : Cell) (count : Z)
    (st : MinesweeperAI) : outcome MinesweeperAI :=
  closure fuel cell (observe cell count st).

(** *** make_safe_move and make_random_move *)

(** [MinesweeperAI.make_safe_move], without its prints: the first cell of
    [self.safes], in the set's iteration order, that is not a move made;
    [None] when there is none. *)
Definition make_safe_move (st : MinesweeperAI) : option Cell :=
  head (filter (λ m, m ∉ moves_made st) (elements (safes st))).

(** [random.randint(a, b)]: some integer of [a..b], chosen by the
    generator's next raw value [r]; [ValueError] on an empty range. *)
Definition randint (a b r : Z) : outcome Z :=
  if bool_decide (a ≤ b) then Done (a + r `mod` (b - a + 1))
  else Raised ValueError.

(** [(random.randint(0, height-1), random.randint(0, width-1))], reading
    the generator [rng] at position [k]. *)
Definition draw (st : MinesweeperAI) (rng : nat → Z) (k : nat)
    : outcome Cell :=
  i ← randint 0 (height st - 1) (rng k);
  j ← randint 0 (width st - 1) (rng (S k));
  Done (i, j).

(** [MinesweeperAI.make_random_move]: the [while True] loop on fuel. The
    Python function can only return a cell; [None] is what the callers
    test for. *)
Fixpoint make_random_move (fuel : nat) (rng : nat → Z) (k : nat)
    (st : MinesweeperAI) : outcome (option Cell) :=
  match fuel with
  | O => Timeout
  | S fuel =>
      c ← draw st rng k;
      match (if bool_decide (c ∈ moves_made st ∨ c ∈ mines st)
             then (c' ← draw st rng (2 + k); Done (c', (4 + k)%nat))
             else Done (c, (2 + k)%nat)) with
      | Done (c, k) =>
          if bool_decide ((c ∉ moves_made st) ∧ (c ∉ mines st))
          then Done (Some c)
          else make_random_move fuel rng k st
      | Raised e => Raised e
      | Timeout => Timeout
      end
  end.

(** ** The board *)

(** [Minesweeper.nearby_mines], the board being given by its set of
    mined cells ([board[i][j]] is true exactly for the cells of
    [self.mines]). *)
Definition nearby_mines (h w : Z) (board : gset Cell) (cell : Cell) : Z :=
  foldl (λ count i,
    foldl (λ count j,
      if bool_decide ((i, j) = cell) then count
      else if bool_decide ((0 ≤ i < h) ∧ (0 ≤ j < w)) then
        if bool_decide ((i, j) ∈ board) then count + 1 else count
      else count) count (seqZ (cell.2 - 1) 3)) 0 (seqZ (cell.1 - 1) 3).


(** ** Calls, reachable states, boards *)

(** The public mutators of the engine. *)
Inductive call :=
  | MarkMine (cell : Cell)
  | MarkSafe (cell : Cell)
  | AddKnowledge (cell : Cell) (count : Z).

Definition exec (fuel : nat) (c : call) (st : MinesweeperAI)
    : outcome MinesweeperAI :=
  match c with
  | MarkMine cell => Done (mark_mine cell st)
  | MarkSafe cell => Done (mark_safe cell st)
  | AddKnowledge cell count => add_knowledge fuel cell count st
  end.

(** The states an engine for an [h] by [w] board gets into by calls
    that have returned, each call being allowed by [ok] in the state it
    is made in. *)
Inductive reachable_by (ok : MinesweeperAI → call → Prop) (h w : Z)
    : MinesweeperAI → Prop :=
  | reach_init : reachable_by ok h w (init h w)
  | reach_call st c fuel st' :
      reachable_by ok h w st → ok st c → exec fuel c st = Done st' →
      reachable_by ok h w st'.

(** Any sequence of calls. *)
Definition any_call (st : MinesweeperAI) (c : call) : Prop := True.

(** Calls that do not contradict what the engine already holds: no cell
    is marked a mine while known safe, or marked safe or observed while
    known to be a mine. *)
Definition unconflicting (st : MinesweeperAI) (c : call) : Prop :=
  match c with
  | MarkMine cell => cell ∉ safes st
  | MarkSafe cell => cell ∉ mines st
  | AddKnowledge cell _ => cell ∉ mines st
  end.

(** Calls that tell the truth about one board, given by its mined
    cells: only mines are marked as mines, only free cells are marked
    safe or observed, and an observation carries the board's count. *)
Definition truthful (h w : Z) (board : gset Cell) (st : MinesweeperAI)
    (c : call) : Prop :=
  match c with
  | MarkMine cell => cell ∈ board
  | MarkSafe cell => cell ∉ board
  | AddKnowledge cell count =>
      (cell ∉ board) ∧ count = nearby_mines h w board cell
  end.

(** The candidates of the two [range] loops around a cell, in loop order. *)
Definition around (cell : Cell) : list Cell :=
  m ← seqZ (cell.1 - 1) 3; n ← seqZ (cell.2 - 1) 3; [(m, n)].

(** The in-bounds neighbours of a cell: the up to 8 surrounding cells,
    without the cell itself. *)
Definition neighbourhood (h w : Z) (cell : Cell) : gset Cell :=
  filter (λ c, c ≠ cell ∧ (0 ≤ c.1 < h) ∧ (0 ≤ c.2 < w))
         (list_to_set (around cell)).

(** The candidates that pass the bounds test of the loop body. *)
Definition candidate (st : MinesweeperAI) (cell c : Cell) : Prop :=
  c ≠ cell ∧ (0 ≤ c.1 < height st) ∧ (0 ≤ c.2 < width st).

(** Well-formed stores: [knowledge] holds distinct, allocated references. *)
Definition wf (st : MinesweeperAI) : Prop :=
  NoDup (knowledge st) ∧ ∀ id, id ∈ knowledge st → (id < length (store st))%nat.

(** Well-formed store and the board dimensions [h], [w]. *)
Definition shaped (h w : Z) (st : MinesweeperAI) : Prop :=
  wf st ∧ height st = h ∧ width st = w.

(** No cell is both a known mine and known safe, and the sentences only
    speak about cells that are neither. *)
Definition coherent (st : MinesweeperAI) : Prop :=
  wf st ∧ mines st ## safes st
  ∧ ∀ s, s ∈ sentences st → cells s ## mines st ∪ safes st.

(** The cells that occur in some sentence of the knowledge base. *)
Definition open_cells (st : MinesweeperAI) : gset Cell :=
  ⋃ (cells <$> sentences st).

(** The non-empty cell sets of the knowledge base. *)
Definition shapes (st : MinesweeperAI) : gset (gset Cell) :=
  list_to_set (cells <$> sentences st) ∖ {[ ∅ ]}.

(** A sentence is true of a board. *)
Definition holds (board : gset Cell) (s : Sentence) : Prop :=
  count s = Z.of_nat (size (cells s ∩ board)).

(** The sentence inferred from [a], whose cells are strictly inside
    those of [b]. *)
Definition difference (a b : Sentence) : Sentence :=
  mkSentence (cells b ∖ cells a) (count b - count a).

(** What the engine holds is true of a board. *)
Definition sound (board : gset Cell) (st : MinesweeperAI) : Prop :=
  wf st ∧ mines st ⊆ board ∧ safes st ## board
  ∧ ∀ s, s ∈ sentences st → holds board s.

(** Every count lies between 0 and the number of cells it speaks about. *)
Definition bounded (st : MinesweeperAI) : Prop :=
  ∀ s, s ∈ sentences st → 0 ≤ count s ≤ Z.of_nat (size (cells s)).

(** The states [add_knowledge] goes through while it runs its loop from
    [st0]: [st0] itself and the state after each pass, with the flag
    that decides whether another pass follows. *)
Inductive in_closure (cell : Cell) (st0 : MinesweeperAI)
    : MinesweeperAI * bool → Prop :=
  | in_closure_start : in_closure cell st0 (st0, true)
  | in_closure_pass st acc :
      in_closure cell st0 (st, true) → pass cell st = Done acc →
      in_closure cell st0 acc.


(** ** Measures, scenarios and the states of the counterexamples *)

(** All subsets of the cells of a list. *)
Fixpoint subsets (l : list Cell) : list (gset Cell) :=
  match l with
  | [] => [∅]
  | x :: l => subsets l ++ ((λ X, {[x]} ∪ X) <$> subsets l)
  end.

(** What the first [for] loop keeps, relative to the state [st0] the
    pass started in. With the flag still down nothing but the removal of
    empty sentences has happened; with the flag up a cell has been
    resolved. *)
Definition progress (board : gset Cell) (cell : Cell)
    (st0 : MinesweeperAI) (acc : MinesweeperAI * bool) : Prop :=
  sound board acc.1
  ∧ (cell ∉ open_cells acc.1)
  ∧ open_cells acc.1 ⊆ open_cells st0
  ∧ (acc.2 = true → open_cells acc.1 ≠ open_cells st0)
  ∧ (acc.2 = false →
     shapes acc.1 = shapes st0 ∧ open_cells acc.1 = open_cells st0).

(** Observations fed one after the other, each with [fuel] passes at most. *)
Definition observations (fuel : nat) (obs : list (Cell * Z))
    (st : MinesweeperAI) : outcome MinesweeperAI :=
  foldl (λ r o, st ← r; exec fuel (AddKnowledge o.1 o.2) st) (Done st) obs.

(** The cells 1 to 5 of the spec's example, on one row. *)
Definition cellno (n : Z) : Cell := (0, n).

(** A knowledge base that holds A = ({1,2,3}, 1) and B = ({1,2,3,4,5}, 2). *)
Definition example_kb : MinesweeperAI :=
  mkAI 1 6 ∅ ∅ ∅
    [mkSentence {[cellno 1; cellno 2; cellno 3]} 1;
     mkSentence {[cellno 1; cellno 2; cellno 3; cellno 4; cellno 5]} 2]
    [0; 1]%nat.

(** On a 3 by 3 board, the cells next to both (0,0) and (1,1), the other
    cells around (1,1), and all cells around (1,1) but (0,0). *)
Definition inner : gset Cell := {[ (0, 1); (1, 0) ]}.
Definition outer : gset Cell := {[ (0, 2); (1, 2); (2, 0); (2, 1); (2, 2) ]}.
Definition ring : gset Cell := inner ∪ outer.

(** The sentences the loop keeps producing once (1,1) has been observed
    with the counts 2 and 5: counts for [inner] and for [outer] that
    are 1 modulo 3, so never 0 and never the number of cells. *)
Definition knotted (s : Sentence) : Prop :=
  (cells s = inner ∧ ∃ k, count s = 3 * k + 1)
  ∨ (cells s = outer ∧ ∃ k, count s = 3 * k + 1)
  ∨ s = mkSentence ring 2 ∨ s = mkSentence ring 5.

Definition stuck (st : MinesweeperAI) : Prop :=
  wf st
  ∧ (∀ s, s ∈ sentences st → knotted s)
  ∧ mkSentence ring 2 ∈ sentences st ∧ mkSentence ring 5 ∈ sentences st
  ∧ ∃ a, mkSentence inner a ∈ sentences st.

(** ** The game: class Minesweeper *)

Module Minesweeper.

(** What the class can raise: [random.randrange] on an empty range, and
    list indexing out of range. *)
Inductive exception := ValueError | IndexError.

Inductive run (A : Type) :=
  | Returned (a : A)
  | Raises (e : exception)
  | OutOfFuel.
Arguments Returned {A} a.
Arguments Raises {A} e.
Arguments OutOfFuel {A}.

#[global] Instance run_bind : MBind run := λ A B k m,
  match m with
  | Returned a => k a
  | Raises e => Raises e
  | OutOfFuel => OutOfFuel
  end.

(** The game: [board] is a list of rows of booleans. *)
Record game := mkGame {
  height : Z;
  width : Z;
  mines : gset Cell;
  board : list (list bool);
  mines_found : gset Cell
}.

(** The position a Python index stands for in a list of length [len]:
    negative indices count from the end. *)
Definition index (len : nat) (i : Z) : option nat :=
  if bool_decide (0 ≤ i < Z.of_nat len) then Some (Z.to_nat i)
  else if bool_decide (- Z.of_nat len ≤ i < 0)
       then Some (Z.to_nat (Z.of_nat len + i))
       else None.

(** [l[i]] *)
Definition getitem {A} (l : list A) (i : Z) : run A :=
  match index (length l) i ≫= (l !!.) with
  | Some x => Returned x
  | None => Raises IndexError
  end.

(** [l[i] = x] *)
Definition setitem {A} (l : list A) (i : Z) (x : A) : run (list A) :=
  match index (length l) i with
  | Some n => Returned (<[n := x]> l)
  | None => Raises IndexError
  end.

(** [random.randrange(n)]: some integer of [0..n-1], chosen by the
    generator's next raw value [r]; [ValueError] when there is none. *)
Definition randrange (n r : Z) : run Z :=
  if bool_decide (0 < n) then Returned (r `mod` n) else Raises ValueError.

(** The board of [__init__] before the mines are laid. *)
Definition empty_board (h w : Z) : list (list bool) :=
  (λ _, (λ _, false) <$> seqZ 0 w) <$> seqZ 0 h.

(** [while len(self.mines) != mines: ...] of [__init__], on fuel, the
    generator [rng] being read from position [k]. *)
Fixpoint lay (fuel : nat) (rng : nat → Z) (k : nat) (n : Z) (g : game)
    : run game :=
  if bool_decide (Z.of_nat (size (mines g)) ≠ n) then
    match fuel with
    | O => OutOfFuel
    | S fuel =>
        i ← randrange (height g) (rng k);
        j ← randrange (width g) (rng (S k));
        row ← getitem (board g) i;
        b ← getitem row j;
        if negb b then
          row' ← setitem row j true;
          board' ← setitem (board g) i row';
          lay fuel rng (2 + k) n
            (mkGame (height g) (width g) ({[ (i, j) ]} ∪ mines g) board'
                    (mines_found g))
        else lay fuel rng (2 + k) n g
    end
  else Returned g.

(** [Minesweeper.__init__] *)
Definition init (fuel : nat) (rng : nat → Z) (h w n : Z) : run game :=
  g ← lay fuel rng 0 n (mkGame h w ∅ (empty_board h w) ∅);
  Returned (mkGame (height g) (width g) (mines g) (board g) ∅).

(** [Minesweeper.is_mine] *)
Definition is_mine (g : game) (cell : Cell) : run bool :=
  row ← getitem (board g) cell.1; getitem row cell.2.

(** [Minesweeper.nearby_mines] *)
Definition nearby_mines (g : game) (cell : Cell) : run Z :=
  foldl (λ acc i,
    foldl (λ acc j,
      count ← acc;
      if bool_decide ((i, j) = cell) then Returned count
      else if bool_decide ((0 ≤ i < height g) ∧ (0 ≤ j < width g)) then
        row ← getitem (board g) i;
        b ← getitem row j;
        Returned (if b : bool then count + 1 else count)
      else Returned count) acc (seqZ (cell.2 - 1) 3))
    (Returned 0) (seqZ (cell.1 - 1) 3).

(** [Minesweeper.won] *)
Definition won (g : game) : bool := bool_decide (mines_found g = mines g).

(** ["--" * width + "-"] *)
Definition dashes (w : Z) : list ascii :=
  (seqZ 0 w ≫= λ _, ["-"; "-"]%char) ++ ["-"%char].

(** [Minesweeper.print]: the lines it writes, in order. The pieces
    written with [end=""] make up one line with the ["|"] that ends it. *)
Definition print (g : game) : run (list (list ascii)) :=
  out ← foldl (λ acc i,
           out ← acc;
           line ← foldl (λ acc j,
                     line ← acc;
                     row ← getitem (board g) i;
                     b ← getitem row j;
                     Returned (line ++ (if b : bool then ["|"; "X"]%char
                                        else ["|"; " "]%char)))
                   (Returned []) (seqZ 0 (width g));
           Returned (out ++ [dashes (width g); line ++ ["|"%char]]))
         (Returned []) (seqZ 0 (height g));
  Returned (out ++ [dashes (width g)]).

(** The board is [height] rows of [width] cells, and a cell of it is
    true exactly when the cell is in [mines], which holds cells of the
    board only. *)
Definition laid_out (g : game) : Prop :=
  length (board g) = Z.to_nat (height g)
  ∧ (∀ row, row ∈ board g → length row = Z.to_nat (width g))
  ∧ (∀ i j, (0 ≤ i < height g) → (0 ≤ j < width g) →
       board g !! Z.to_nat i ≫= (.!! Z.to_nat j)
       = Some (bool_decide ((i, j) ∈ mines g)))
  ∧ ∀ c, c ∈ mines g → (0 ≤ c.1 < height g) ∧ (0 ≤ c.2 < width g).

End Minesweeper.

(** The text that [Minesweeper.print] writes for row [i] of a board
    whose cells are read off the set of mines. *)
Definition row_text (g : Minesweeper.game) (i : Z) : list ascii :=
  (seqZ 0 (Minesweeper.width g) ≫= λ j,
     ["|"; if bool_decide ((i, j) ∈ Minesweeper.mines g) then "X" else " "]%char)
  ++ ["|"%char].

(** ** Further properties of the engine *)

(** A cell of the [h] by [w] board. *)
Definition on_board (h w : Z) (c : Cell) : Prop :=
  (0 ≤ c.1 < h) ∧ (0 ≤ c.2 < w).

(** The sentences speak only about cells of the board that are neither
    known mines nor known safe. *)
Definition purged (st : MinesweeperAI) : Prop :=
  wf st
  ∧ ∀ s, s ∈ sentences st →
      cells s ## mines st ∪ safes st
      ∧ ∀ c, c ∈ cells s → on_board (height st) (width st) c.

(** A sentence that gives nothing away on its own: it has cells, and its
    count is neither 0 nor the number of its cells. *)
Definition quiet (s : Sentence) : Prop :=
  cells s ≠ ∅ ∧ count s ≠ 0 ∧ count s ≠ Z.of_nat (size (cells s)).

(** A knowledge base on which one more pass changes nothing. *)
Definition saturated (st : MinesweeperAI) : Prop :=
  (∀ s, s ∈ sentences st → quiet s)
  ∧ ∀ a b, a ∈ sentences st → b ∈ sentences st → cells a ⊂ cells b →
      mkSentence (cells b ∖ cells a) (count b - count a) ∈ sentences st.

(** What [add_knowledge] never takes back, relative to a state [st0]. *)
Definition keeps (st0 st : MinesweeperAI) : Prop :=
  wf st
  ∧ mines st0 ⊆ mines st ∧ safes st0 ⊆ safes st
  ∧ moves_made st = moves_made st0
  ∧ height st = height st0 ∧ width st = width st0.

(** ** Sentence *)

Section sentence.
Implicit Types (s : Sentence) (cell : Cell).

Lemma Sentence_eqb_eq s o : Sentence.eqb s o = true ↔ s = o.
Proof.
  unfold Sentence.eqb. rewrite andb_true_iff, !bool_decide_eq_true.
  destruct s, o; simpl. split; [intros [-> ->]; done | intros [= -> ->]; done].
Qed.

Lemma mark_mine_in cell s :
  cell ∈ cells s →
  Sentence.mark_mine cell s = mkSentence (cells s ∖ {[cell]}) (count s - 1).
Proof. intros Hin. unfold Sentence.mark_mine. by rewrite bool_decide_eq_true_2. Qed.

Lemma mark_mine_notin cell s : cell ∉ cells s → Sentence.mark_mine cell s = s.
Proof. intros Hin. unfold Sentence.mark_mine. by rewrite bool_decide_eq_false_2. Qed.

Lemma mark_safe_in cell s :
  cell ∈ cells s →
  Sentence.mark_safe cell s = mkSentence (cells s ∖ {[cell]}) (count s).
Proof. intros Hin. unfold Sentence.mark_safe. by rewrite bool_decide_eq_true_2. Qed.

Lemma mark_safe_notin cell s : cell ∉ cells s → Sentence.mark_safe cell s = s.
Proof. intros Hin. unfold Sentence.mark_safe. by rewrite bool_decide_eq_false_2. Qed.

Lemma cells_mark_mine cell s :
  cells (Sentence.mark_mine cell s) = cells s ∖ {[cell]}.
Proof.
  destruct (decide (cell ∈ cells s)) as [Hin|Hin].
  - by rewrite mark_mine_in.
  - rewrite mark_mine_notin by done. revert Hin. set_unfold. naive_solver.
Qed.

Lemma cells_mark_safe cell s :
  cells (Sentence.mark_safe cell s) = cells s ∖ {[cell]}.
Proof.
  destruct (decide (cell ∈ cells s)) as [Hin|Hin].
  - by rewrite mark_safe_in.
  - rewrite mark_safe_notin by done. revert Hin. set_unfold. naive_solver.
Qed.

Lemma count_mark_safe cell s : count (Sentence.mark_safe cell s) = count s.
Proof. unfold Sentence.mark_safe. by case_bool_decide. Qed.

(** C8: [known_mines] returns the whole cell set when the count equals
    the number of cells and the empty set otherwise; [known_safes]
    returns the whole cell set when the count is 0 and the empty set
    otherwise. Both are functions of the sentence that return a set
    and nothing else, so the sentence is the same after the call. *)
Theorem known_mines_safes_spec s :
  Sentence.known_mines s
    = (if decide (count s = Z.of_nat (size (cells s))) then cells s else ∅)
  ∧ Sentence.known_safes s
    = (if decide (count s = 0) then cells s else ∅).
Proof.
  unfold Sentence.known_mines, Sentence.known_safes.
  split; case_bool_decide; case_decide; done.
Qed.

(** C9: [mark_mine] removes a member cell and decrements the count,
    [mark_safe] removes a member cell and keeps the count, both leave
    the sentence alone for a cell that is not a member, and applying
    either twice with the same cell is the same as applying it once. *)
Theorem mark_member_idempotent s cell :
  (if decide (cell ∈ cells s)
   then Sentence.mark_mine cell s
          = mkSentence (cells s ∖ {[cell]}) (count s - 1)
        ∧ Sentence.mark_safe cell s
          = mkSentence (cells s ∖ {[cell]}) (count s)
   else Sentence.mark_mine cell s = s ∧ Sentence.mark_safe cell s = s)
  ∧ Sentence.mark_mine cell (Sentence.mark_mine cell s)
    = Sentence.mark_mine cell s
  ∧ Sentence.mark_safe cell (Sentence.mark_safe cell s)
    = Sentence.mark_safe cell s.
Proof.
  split; [|split].
  - destruct (decide (cell ∈ cells s)).
    + by rewrite mark_mine_in, mark_safe_in.
    + by rewrite mark_mine_notin, mark_safe_notin.
  - apply mark_mine_notin. rewrite cells_mark_mine. set_solver.
  - apply mark_safe_notin. rewrite cells_mark_safe. set_solver.
Qed.

End sentence.

(** ** The store *)

Section store.
Implicit Types (h : list Sentence) (k : list nat) (f : Sentence → Sentence).

Lemma deref_alter f h id id' :
  deref (alter f id h) id'
  = if decide (id = id' ∧ (id < length h)%nat) then f (deref h id') else deref h id'.
Proof.
  unfold deref. case_decide as Hc.
  - destruct Hc as [-> Hlt]. by apply list_lookup_total_alter_eq.
  - destruct (decide (id = id')) as [->|Hne].
    + assert (length h ≤ id')%nat as Hge by lia.
      rewrite !list_lookup_total_alt.
      by rewrite list_lookup_alter_eq, (lookup_ge_None_2 h id').
    + by apply list_lookup_total_alter_ne.
Qed.

Lemma length_update_all f k h : length (update_all f k h) = length h.
Proof.
  unfold update_all. revert h. induction k as [|id k IH]; intros h; simpl; [done|].
  by rewrite IH, length_alter.
Qed.

Lemma deref_update_all_notin f k h id :
  id ∉ k → deref (update_all f k h) id = deref h id.
Proof.
  unfold update_all. revert h. induction k as [|a k IH]; intros h Hn; simpl; [done|].
  apply not_elem_of_cons in Hn as [Hne Hn].
  rewrite IH by done. rewrite deref_alter. case_decide; [naive_solver|done].
Qed.

Lemma deref_update_all_in f k h id :
  NoDup k → id ∈ k → (id < length h)%nat →
  deref (update_all f k h) id = f (deref h id).
Proof.
  unfold update_all. revert h.
  induction k as [|a k IH]; intros h Hnd Hin Hlt; [by apply elem_of_nil in Hin|].
  apply NoDup_cons in Hnd as [Ha Hnd]. simpl.
  apply elem_of_cons in Hin as [->|Hin].
  - fold (update_all f k (alter f a h)).
    rewrite deref_update_all_notin by done.
    rewrite deref_alter. case_decide; [done|naive_solver].
  - rewrite IH; [|done..|by rewrite length_alter].
    rewrite deref_alter. case_decide as Hc; [|done].
    destruct Hc as [-> _]. done.
Qed.

Lemma sentences_update_all f k h :
  NoDup k → (∀ id, id ∈ k → (id < length h)%nat) →
  deref (update_all f k h) <$> k = f <$> (deref h <$> k).
Proof.
  intros Hnd Hlt. rewrite <-list_fmap_compose.
  apply Forall_fmap_ext, Forall_forall. intros id Hin. simpl.
  apply deref_update_all_in; auto.
Qed.

End store.

(** ** Basic facts about the engine's operations *)

Section engine_basics.
Implicit Types (st : MinesweeperAI) (cell c : Cell) (s : Sentence).

Lemma contains_spec st s : contains st s = true ↔ s ∈ sentences st.
Proof.
  unfold contains, sentences. rewrite existsb_exists, list_elem_of_fmap.
  split.
  - intros (id & Hin%list_elem_of_In & Heq%Sentence_eqb_eq). eauto.
  - intros (id & -> & Hin). exists id.
    split; [by apply list_elem_of_In | by apply Sentence_eqb_eq].
Qed.

Lemma contains_false st s : contains st s = false ↔ s ∉ sentences st.
Proof. rewrite <-contains_spec. by destruct (contains st s). Qed.

Lemma deref_app_l (h : list Sentence) s id :
  (id < length h)%nat → deref (h ++ [s]) id = deref h id.
Proof. intros Hlt. unfold deref. by rewrite lookup_total_app_l. Qed.

Lemma deref_app_new (h : list Sentence) s : deref (h ++ [s]) (length h) = s.
Proof. unfold deref. by rewrite list_lookup_total_middle. Qed.

Lemma wf_mark_mine c st : wf st → wf (mark_mine c st).
Proof.
  intros [Hnd Hlt]. split; simpl; [done|].
  intros id Hin. rewrite length_update_all. auto.
Qed.

Lemma wf_mark_safe c st : wf st → wf (mark_safe c st).
Proof.
  intros [Hnd Hlt]. split; simpl; [done|].
  intros id Hin. rewrite length_update_all. auto.
Qed.

Lemma sentences_mark_mine c st :
  wf st → sentences (mark_mine c st) = Sentence.mark_mine c <$> sentences st.
Proof. intros [Hnd Hlt]. by apply sentences_update_all. Qed.

Lemma sentences_mark_safe c st :
  wf st → sentences (mark_safe c st) = Sentence.mark_safe c <$> sentences st.
Proof. intros [Hnd Hlt]. by apply sentences_update_all. Qed.

Lemma wf_append s st : wf st → wf (append s st).
Proof.
  intros [Hnd Hlt]. split; simpl.
  - apply NoDup_app. split; [done|]. split; [|apply NoDup_singleton].
    intros id Hin ->%list_elem_of_singleton. apply Hlt in Hin. lia.
  - intros id [Hin| ->%list_elem_of_singleton]%elem_of_app;
      rewrite length_app; simpl; [apply Hlt in Hin|]; lia.
Qed.

Lemma sentences_append s st :
  wf st → sentences (append s st) = sentences st ++ [s].
Proof.
  intros [Hnd Hlt]. unfold sentences, append. simpl.
  rewrite fmap_app. simpl. rewrite deref_app_new. f_equal.
  apply Forall_fmap_ext, Forall_forall. intros id Hin.
  apply deref_app_l; auto.
Qed.



End engine_basics.

(** ** The subset-inference half of a pass *)

Section inference.
Implicit Types (st : MinesweeperAI) (s a b : Sentence) (l : list Sentence).

Lemma strict_difference_nonempty (X Y : gset Cell) : X ⊂ Y → Y ∖ X ≠ ∅.
Proof.
  intros [Hsub Hn] Hempty. apply Hn. intros x Hx.
  destruct (decide (x ∈ X)) as [|Hnx]; [done|].
  assert (x ∈ Y ∖ X) as Hd by (apply elem_of_difference; done).
  rewrite Hempty in Hd. by apply not_elem_of_empty in Hd.
Qed.

Lemma elem_of_infer_pair s a b :
  s ∈ infer_pair a b ↔
  (cells b ⊂ cells a ∧ s = difference b a) ∨
  (cells a ⊂ cells b ∧ s = difference a b).
Proof.
  unfold infer_pair, difference. rewrite elem_of_app.
  assert (∀ X Y : gset Cell, ∀ n,
    s ∈ (if bool_decide (X ⊂ Y)
         then if bool_decide (Y ∖ X ≠ ∅) then [mkSentence (Y ∖ X) n] else []
         else []) ↔ X ⊂ Y ∧ s = mkSentence (Y ∖ X) n) as Hone.
  { intros X Y n. case_bool_decide as Hs.
    - rewrite bool_decide_eq_true_2 by by apply strict_difference_nonempty.
      rewrite list_elem_of_singleton. naive_solver.
    - split; [by intros ?%elem_of_nil | naive_solver]. }
  by rewrite !Hone.
Qed.

Lemma elem_of_infer_all s l :
  s ∈ infer_all l ↔
  ∃ i j a b, (i < j)%nat ∧ l !! i = Some a ∧ l !! j = Some b ∧ s ∈ infer_pair a b.
Proof.
  induction l as [|x l IH]; simpl.
  - split; [by intros ?%elem_of_nil|]. by intros (i & j & a & b & _ & ? & _).
  - rewrite elem_of_app, IH. split.
    + intros [Hx|(i & j & a & b & Hlt & Hi & Hj & Hs)].
      * apply list_elem_of_In, in_flat_map in Hx as (b & Hb & Hs).
        apply list_elem_of_In, list_elem_of_lookup in Hb as [j Hj].
        apply list_elem_of_In in Hs.
        exists 0%nat, (S j), x, b. repeat split; [lia|done..].
      * exists (S i), (S j), a, b. repeat split; [lia|done..].
    + intros (i & j & a & b & Hlt & Hi & Hj & Hs).
      destruct j as [|j]; [lia|]. simpl in Hj.
      destruct i as [|i]; simpl in Hi.
      * left. injection Hi as ->.
        apply list_elem_of_In, in_flat_map. exists b.
        split; apply list_elem_of_In; [|done].
        apply list_elem_of_lookup. eauto.
      * right. exists i, j, a, b. repeat split; [lia|done..].
Qed.

(** Every strict-subset pair of the list gives its difference. *)
Lemma infer_all_complete l a b :
  a ∈ l → b ∈ l → cells a ⊂ cells b → difference a b ∈ infer_all l.
Proof.
  intros [i Hi]%list_elem_of_lookup [j Hj]%list_elem_of_lookup Hsub.
  apply elem_of_infer_all.
  destruct (lt_eq_lt_dec i j) as [[Hlt| ->]|Hgt].
  - exists i, j, a, b. repeat split; [done..|].
    apply elem_of_infer_pair. by right.
  - rewrite Hi in Hj. injection Hj as ->. destruct Hsub as [_ []]. done.
  - exists j, i, b, a. repeat split; [done..|].
    apply elem_of_infer_pair. by left.
Qed.

Lemma infer_all_sound l s :
  s ∈ infer_all l →
  ∃ a b, a ∈ l ∧ b ∈ l ∧ cells a ⊂ cells b ∧ s = difference a b.
Proof.
  intros (i & j & a & b & _ & Hi & Hj & Hs)%elem_of_infer_all.
  apply list_elem_of_lookup_2 in Hi, Hj.
  apply elem_of_infer_pair in Hs as [[Hsub ->]|[Hsub ->]]; eauto 10.
Qed.

(** What [for s in infered_sentences: ...] does to the knowledge base. *)
Lemma add_inferred_fold l st flag :
  wf st →
  ∃ new,
    let r := foldl add_inferred (st, flag) l in
    wf r.1
    ∧ sentences r.1 = sentences st ++ new
    ∧ (∀ s, s ∈ l → s ∈ sentences r.1)
    ∧ (∀ s, s ∈ new → s ∈ l ∧ s ∉ sentences st)
    ∧ NoDup new
    ∧ r.2 = flag || bool_decide (new ≠ [])
    ∧ mines r.1 = mines st ∧ safes r.1 = safes st
    ∧ moves_made r.1 = moves_made st
    ∧ height r.1 = height st ∧ width r.1 = width st.
Proof.
  revert st flag. induction l as [|s l IH]; intros st flag Hwf.
  - exists []. simpl. rewrite app_nil_r, orb_false_r.
    split_and!; try done; try (by intros ? ?%elem_of_nil). apply NoDup_nil_2.
  - simpl. destruct (contains st s) eqn:Hc.
    + assert (add_inferred (st, flag) s = (st, flag)) as ->
        by (unfold add_inferred; simpl; by rewrite Hc).
      apply contains_spec in Hc.
      destruct (IH st flag Hwf)
        as (new & Hwf' & Hs & Hall & Hnew & Hnd & Hflag & ? & ? & ? & ? & ?).
      exists new. simpl in *. split_and!; try done.
      * intros s' [->|Hin]%elem_of_cons; [|by auto].
        rewrite Hs. apply elem_of_app. by left.
      * intros s' Hin. split; [|by apply Hnew].
        apply elem_of_cons. right. by apply Hnew.
    + assert (add_inferred (st, flag) s = (append s st, true)) as ->
        by (unfold add_inferred; simpl; by rewrite Hc).
      apply contains_false in Hc.
      destruct (IH (append s st) true (wf_append s st Hwf))
        as (new & Hwf' & Hs & Hall & Hnew & Hnd & Hflag & ? & ? & ? & ? & ?).
      rewrite sentences_append in Hs, Hnew by done.
      exists (s :: new). simpl in *. split_and!; try done.
      * by rewrite Hs, <-app_assoc.
      * intros s' [->|Hin]%elem_of_cons; [|by auto].
        rewrite Hs. apply elem_of_app. left. apply elem_of_app. right.
        by apply list_elem_of_singleton.
      * intros s' [->|Hin]%elem_of_cons; [split; [by apply elem_of_cons; left|done]|].
        split; [apply elem_of_cons; right; by apply Hnew|].
        intros Hin'. apply Hnew in Hin as [_ Hn]. apply Hn, elem_of_app. by left.
      * apply NoDup_cons. split; [|done].
        intros Hin. apply Hnew in Hin as [_ Hn]. apply Hn, elem_of_app.
        right. by apply list_elem_of_singleton.
      * rewrite Hflag. by rewrite orb_true_r.
Qed.

End inference.

(** ** The first half of a pass: one sentence *)

Section marking.
Implicit Types (st : MinesweeperAI) (acc : MinesweeperAI * bool).

Lemma mark_each_empty mark acc : mark_each mark ∅ acc = acc.
Proof. unfold mark_each. by rewrite elements_empty. Qed.

Lemma mark_each_ind (P : MinesweeperAI → Prop) mark X acc :
  P acc.1 → (∀ st c, c ∈ X → P st → P (mark c st)) →
  P (mark_each mark X acc).1.
Proof.
  intros Hacc Hstep. unfold mark_each.
  assert (∀ c, c ∈ elements X → c ∈ X) as Hel by (intros c; apply elem_of_elements).
  revert acc Hacc Hel. generalize (elements X).
  induction l as [|c l IH]; intros acc Hacc Hel; simpl; [done|].
  apply IH; simpl.
  - apply Hstep; [|done]. apply Hel, elem_of_cons. by left.
  - intros c' Hc'. apply Hel, elem_of_cons. by right.
Qed.

Lemma mark_each_flag mark X acc :
  (mark_each mark X acc).2 = acc.2 || bool_decide (X ≠ ∅).
Proof.
  unfold mark_each.
  assert (bool_decide (X ≠ ∅) = bool_decide (elements X ≠ [])) as ->.
  { apply bool_decide_ext. split; intros Hn He; apply Hn.
    - by apply leibniz_equiv, elements_empty_iff.
    - subst X. apply elements_empty. }
  generalize (elements X). intros l.
  assert (∀ a, (foldl (λ acc block, (mark block acc.1, true)) a l).2
               = a.2 || bool_decide (l ≠ [])) as Hgen.
  { induction l as [|c l IH]; intros a; simpl.
    - by rewrite orb_false_r.
    - rewrite IH. simpl. by rewrite orb_true_r. }
  apply Hgen.
Qed.

Lemma list_remove_prefix h x pre id post :
  deref h id = x →
  ∃ k1 id' k2, pre ++ [id] = k1 ++ id' :: k2 ∧ deref h id' = x
    ∧ list_remove h x (pre ++ id :: post) = Done (k1 ++ k2 ++ post).
Proof.
  intros Hx. induction pre as [|a pre IH]; simpl.
  - exists [], id, []. simpl. split; [done|]. split; [done|].
    apply Sentence_eqb_eq in Hx. by rewrite Hx.
  - destruct (Sentence.eqb (deref h a) x) eqn:E.
    + apply Sentence_eqb_eq in E. exists [], a, (pre ++ [id]). simpl.
      split; [done|]. split; [done|]. by rewrite <-app_assoc.
    + destruct IH as (k1 & id' & k2 & Heq & Hd & ->).
      exists (a :: k1), id', k2. simpl. by rewrite Heq.
Qed.

Section step.
Variable Q : MinesweeperAI * bool → Prop.
Variable cell : Cell.
Hypothesis Q_strip : ∀ st b id,
  Q (st, b) → id ∈ knowledge st → cell ∈ cells (deref (store st) id) →
  Q (strip cell id st, true).
Hypothesis Q_drop : ∀ st b k1 id k2,
  Q (st, b) → knowledge st = k1 ++ id :: k2 →
  cells (deref (store st) id) = ∅ →
  Q (set_knowledge (k1 ++ k2) st, b).
Hypothesis Q_mines : ∀ st b id,
  Q (st, b) → id ∈ knowledge st → cells (deref (store st) id) ≠ ∅ →
  Q (mark_each mark_mine (Sentence.known_mines (deref (store st) id)) (st, b)).
Hypothesis Q_safes : ∀ st b id,
  Q (st, b) → id ∈ knowledge st → cells (deref (store st) id) ≠ ∅ →
  Q (mark_each mark_safe (Sentence.known_safes (deref (store st) id)) (st, b)).

Lemma knowledge_mark_each_mine X acc :
  knowledge (mark_each mark_mine X acc).1 = knowledge acc.1.
Proof. by apply (mark_each_ind (λ st, knowledge st = knowledge acc.1)). Qed.

Lemma knowledge_mark_each_safe X acc :
  knowledge (mark_each mark_safe X acc).1 = knowledge acc.1.
Proof. by apply (mark_each_ind (λ st, knowledge st = knowledge acc.1)). Qed.

Lemma known_mines_of_empty s : cells s = ∅ → Sentence.known_mines s = ∅.
Proof. intros H. unfold Sentence.known_mines. by case_bool_decide. Qed.

Lemma known_safes_of_empty s : cells s = ∅ → Sentence.known_safes s = ∅.
Proof. intros H. unfold Sentence.known_safes. by case_bool_decide. Qed.

(** The marking part of [process], from a state that satisfies [Q]. *)
Lemma process_marks st b id :
  Q (st, b) → (id ∈ knowledge st ∨ cells (deref (store st) id) = ∅) →
  let acc := mark_each mark_mine
               (Sentence.known_mines (deref (store st) id)) (st, b) in
  let acc' := mark_each mark_safe
                (Sentence.known_safes (deref (store acc.1) id)) acc in
  Q acc' ∧ knowledge acc'.1 = knowledge st.
Proof.
  intros HQ Hid. cbv zeta.
  destruct (decide (cells (deref (store st) id) = ∅)) as [He|Hne].
  - rewrite (known_mines_of_empty _ He), mark_each_empty. simpl.
    by rewrite (known_safes_of_empty _ He), mark_each_empty.
  - destruct Hid as [Hid|]; [|done].
    pose proof (Q_mines st b id HQ Hid Hne) as HQ1.
    pose proof (knowledge_mark_each_mine
                  (Sentence.known_mines (deref (store st) id)) (st, b)) as Hk1.
    destruct (mark_each mark_mine _ (st, b)) as [st1 b1]. simpl in *.
    split; [|by rewrite knowledge_mark_each_safe].
    destruct (decide (cells (deref (store st1) id) = ∅)) as [He1|Hne1].
    + by rewrite (known_safes_of_empty _ He1), mark_each_empty.
    + apply Q_safes; [done| |done]. by rewrite Hk1.
Qed.

Lemma process_step st b id pre post :
  knowledge st = pre ++ id :: post → Q (st, b) →
  ∃ acc' pre',
    process cell id (st, b) = Done acc' ∧ Q acc'
    ∧ knowledge acc'.1 = pre' ++ post.
Proof.
  intros Hk HQ. unfold process.
  assert (id ∈ knowledge st) as Hid.
  { rewrite Hk. apply elem_of_app. right. apply elem_of_cons. by left. }
  set (acc1 := if bool_decide (cell ∈ cells (deref (store st) id))
               then (strip cell id st, true) else (st, b)).
  assert (Q acc1 ∧ knowledge acc1.1 = pre ++ id :: post) as [HQ1 Hk1].
  { subst acc1. case_bool_decide; [|done]. split; [|done]. by eapply Q_strip. }
  destruct acc1 as [st1 b1]. simpl in Hk1.
  destruct (decide (cells (deref (store st1) id) = ∅)) as [He|Hne].
  - rewrite (bool_decide_eq_true_2 _ He).
    destruct (list_remove_prefix (store st1) _ pre id post eq_refl)
      as (k1 & id' & k2 & Heq & Hd & Hrm).
    rewrite Hk1, Hrm. unfold mbind, outcome_bind.
    assert (knowledge st1 = k1 ++ id' :: (k2 ++ post)) as Hk1'.
    { rewrite Hk1. change (id :: post) with ([id] ++ post).
      by rewrite app_assoc, Heq, <-app_assoc. }
    assert (Q (set_knowledge (k1 ++ k2 ++ post) st1, b1)) as HQ2.
    { eapply Q_drop; [done..|]. by rewrite Hd. }
    destruct (process_marks (set_knowledge (k1 ++ k2 ++ post) st1) b1 id HQ2)
      as [HQ3 Hk3]; [by right|].
    eexists _, (k1 ++ k2). split; [done|]. split; [exact HQ3|].
    etrans; [exact Hk3|]. simpl. by rewrite <-app_assoc.
  - rewrite (bool_decide_eq_false_2 _ Hne). unfold mbind, outcome_bind.
    destruct (process_marks st1 b1 id HQ1) as [HQ3 Hk3].
    { left. rewrite Hk1. apply elem_of_app. right. apply elem_of_cons. by left. }
    eexists _, (pre ++ [id]). split; [done|]. split; [exact HQ3|].
    etrans; [exact Hk3|]. rewrite Hk1. by rewrite <-app_assoc.
Qed.

(** The first [for] loop of a pass never raises: the rest of the
    copy stays a suffix of the knowledge base. *)
Lemma process_all_ind copy : ∀ st b pre,
  knowledge st = pre ++ copy → Q (st, b) →
  ∃ acc', process_all cell copy (st, b) = Done acc' ∧ Q acc'.
Proof.
  induction copy as [|id copy IH]; intros st b pre Hk HQ; [simpl; eauto|].
  change (process_all cell (id :: copy) (st, b))
    with (process cell id (st, b) ≫= process_all cell copy).
  destruct (process_step st b id pre copy Hk HQ)
    as ([st1 b1] & pre' & -> & HQ1 & Hk1).
  unfold mbind, outcome_bind. by eapply IH.
Qed.

Lemma pass_ind st :
  Q (st, false) →
  ∃ acc, process_all cell (knowledge st) (st, false) = Done acc ∧ Q acc
         ∧ pass cell st = Done (infer acc).
Proof.
  intros HQ.
  destruct (process_all_ind (knowledge st) st false [] eq_refl HQ)
    as (acc & Hp & HQ').
  exists acc. split; [done|]. split; [done|].
  unfold pass. by rewrite Hp.
Qed.

End step.

(** Properties of the state alone that every step of a pass keeps are
    kept by the whole loop. *)
Section invariant.
Variable I : MinesweeperAI → Prop.
Variable cell : Cell.
Hypothesis I_strip : ∀ st id,
  I st → id ∈ knowledge st → cell ∈ cells (deref (store st) id) →
  I (strip cell id st).
Hypothesis I_drop : ∀ st k1 id k2,
  I st → knowledge st = k1 ++ id :: k2 →
  cells (deref (store st) id) = ∅ →
  I (set_knowledge (k1 ++ k2) st).
Hypothesis I_mines : ∀ st b id,
  I st → id ∈ knowledge st → cells (deref (store st) id) ≠ ∅ →
  I (mark_each mark_mine (Sentence.known_mines (deref (store st) id)) (st, b)).1.
Hypothesis I_safes : ∀ st b id,
  I st → id ∈ knowledge st → cells (deref (store st) id) ≠ ∅ →
  I (mark_each mark_safe (Sentence.known_safes (deref (store st) id)) (st, b)).1.
Hypothesis I_infer : ∀ st b, I st → I (infer (st, b)).1.

Lemma pass_inv st :
  I st → ∃ acc, pass cell st = Done acc ∧ I acc.1.
Proof.
  intros HI.
  destruct (pass_ind (λ acc, I acc.1) cell) with (st := st)
    as (acc & _ & HI' & Hp); simpl; eauto.
  exists (infer acc). split; [done|]. destruct acc. by apply I_infer.
Qed.

Lemma closure_inv fuel : ∀ st st',
  I st → closure fuel cell st = Done st' → I st'.
Proof.
  induction fuel as [|fuel IH]; intros st st' HI; simpl; [done|].
  destruct (pass_inv st HI) as ([st1 b1] & -> & HI1). simpl in HI1.
  destruct b1; [by apply IH|]. by intros [= <-].
Qed.

End invariant.
End marking.

(** ** Well-formedness is kept by every operation *)

Section shape.
Implicit Types (st : MinesweeperAI).

Lemma wf_strip cell id st : wf st → wf (strip cell id st).
Proof.
  intros [Hnd Hlt]. split; simpl; [done|].
  intros id' Hin. rewrite length_alter. auto.
Qed.

Lemma wf_drop st k1 id k2 :
  wf st → knowledge st = k1 ++ id :: k2 → wf (set_knowledge (k1 ++ k2) st).
Proof.
  intros [Hnd Hlt] Hk. rewrite Hk in Hnd, Hlt. split; simpl.
  - apply NoDup_app in Hnd as (Hnd1 & Hdisj & [_ Hnd2]%NoDup_cons).
    apply NoDup_app. split; [done|]. split; [|done].
    intros x Hx Hx2. apply (Hdisj x Hx). apply elem_of_cons. by right.
  - intros id' Hin. apply Hlt.
    apply elem_of_app in Hin as [Hin|Hin]; apply elem_of_app; [by left|].
    right. apply elem_of_cons. by right.
Qed.

Lemma shaped_mark_each_mine h w X acc :
  shaped h w acc.1 → shaped h w (mark_each mark_mine X acc).1.
Proof.
  intros H. apply mark_each_ind; [done|].
  intros st c _ (Hwf & Hh & Hw). split; [by apply wf_mark_mine|done].
Qed.

Lemma shaped_mark_each_safe h w X acc :
  shaped h w acc.1 → shaped h w (mark_each mark_safe X acc).1.
Proof.
  intros H. apply mark_each_ind; [done|].
  intros st c _ (Hwf & Hh & Hw). split; [by apply wf_mark_safe|done].
Qed.

Lemma shaped_infer h w st b : shaped h w st → shaped h w (infer (st, b)).1.
Proof.
  intros (Hwf & Hh & Hw). unfold infer. simpl.
  destruct (add_inferred_fold (infer_all (sentences st)) st b Hwf)
    as (new & Hwf' & _ & _ & _ & _ & _ & _ & _ & _ & Hh' & Hw').
  split; [done|]. simpl in *. split; congruence.
Qed.

Lemma shaped_closure h w fuel cell st st' :
  shaped h w st → closure fuel cell st = Done st' → shaped h w st'.
Proof.
  apply closure_inv.
  - intros st0 id (Hwf & Hh & Hw) _ _. split; [by apply wf_strip|done].
  - intros st0 k1 id k2 (Hwf & Hh & Hw) Hk _.
    split; [by eapply wf_drop|done].
  - intros st0 b id H _ _. by apply shaped_mark_each_mine.
  - intros st0 b id H _ _. by apply shaped_mark_each_safe.
  - intros st0 b. apply shaped_infer.
Qed.

Lemma shaped_observe h w cell count st :
  shaped h w st → shaped h w (observe cell count st).
Proof.
  intros (Hwf & Hh & Hw). unfold observe.
  set (st1 := mark_safe cell (set_moves_made _ st)).
  assert (shaped h w st1) as Hs1.
  { split; [|done]. apply wf_mark_safe. by destruct Hwf. }
  destruct (scan_neighbours st1 cell count) as [count' neighbours].
  case_bool_decide; [|done].
  destruct (contains st1 _); simpl; [done|].
  destruct Hs1 as (Hwf1 & Hh1 & Hw1). split; [by apply wf_append|done].
Qed.

Lemma shaped_init h w : shaped h w (init h w).
Proof.
  split; [|done]. split; simpl; [apply NoDup_nil_2|].
  by intros id ?%elem_of_nil.
Qed.

Lemma reachable_shaped ok h w st : reachable_by ok h w st → shaped h w st.
Proof.
  induction 1 as [|st c fuel st' _ IH _ Hexec]; [apply shaped_init|].
  destruct c as [cell|cell|cell count]; simpl in Hexec.
  - injection Hexec as <-. destruct IH as (Hwf & Hh & Hw).
    split; [by apply wf_mark_mine|done].
  - injection Hexec as <-. destruct IH as (Hwf & Hh & Hw).
    split; [by apply wf_mark_safe|done].
  - eapply shaped_closure; [|exact Hexec]. by apply shaped_observe.
Qed.

End shape.

(** ** Folding an observation into the knowledge base *)

Section observation.
Implicit Types (st : MinesweeperAI) (cell c : Cell).

Lemma foldl_bind_list {A B C} (f : A → C → A) (g : B → list C) (l : list B) :
  ∀ a, foldl f a (l ≫= g) = foldl (λ a x, foldl f a (g x)) a l.
Proof.
  induction l as [|x l IH]; intros a; [done|].
  change ((x :: l) ≫= g) with (g x ++ (l ≫= g)).
  by rewrite foldl_app, IH.
Qed.

Lemma foldl_ext_all {A B} (f g : A → B → A) (l : list B) :
  (∀ a x, f a x = g a x) → ∀ a, foldl f a l = foldl g a l.
Proof.
  intros Hfg. induction l as [|x l IH]; intros a; simpl; [done|].
  by rewrite Hfg, IH.
Qed.


Lemma elem_of_around cell c :
  c ∈ around cell ↔
  (cell.1 - 1 ≤ c.1 ≤ cell.1 + 1) ∧ (cell.2 - 1 ≤ c.2 ≤ cell.2 + 1).
Proof.
  unfold around. rewrite list_elem_of_bind. split.
  - intros (m & Hc & Hm). apply list_elem_of_bind in Hc as (n & Hc & Hn).
    apply list_elem_of_singleton in Hc as ->.
    apply elem_of_seqZ in Hm, Hn. simpl. lia.
  - intros [Hm Hn]. exists c.1. split; [|apply elem_of_seqZ; lia].
    apply list_elem_of_bind. exists c.2. split; [|apply elem_of_seqZ; lia].
    destruct c. by apply list_elem_of_singleton.
Qed.

Lemma NoDup_around cell : NoDup (around cell).
Proof.
  unfold around. apply NoDup_bind; [| |apply NoDup_seqZ].
  - intros m1 m2 c _ _ (n1 & ->%list_elem_of_singleton & _)%list_elem_of_bind
      (n2 & [= -> _]%list_elem_of_singleton & _)%list_elem_of_bind. done.
  - intros m _. apply NoDup_bind; [| |apply NoDup_seqZ].
    + intros n1 n2 c _ _ ->%list_elem_of_singleton [= ->]%list_elem_of_singleton.
      done.
    + intros n _. apply NoDup_singleton.
Qed.

Lemma elem_of_neighbourhood h w cell c :
  c ∈ neighbourhood h w cell ↔
  c ≠ cell ∧ (cell.1 - 1 ≤ c.1 ≤ cell.1 + 1) ∧ (cell.2 - 1 ≤ c.2 ≤ cell.2 + 1)
  ∧ (0 ≤ c.1 < h) ∧ (0 ≤ c.2 < w).
Proof.
  unfold neighbourhood.
  rewrite elem_of_filter, elem_of_list_to_set, elem_of_around. naive_solver.
Qed.

Lemma visit_fold st cell (l : list Cell) : ∀ n (X : gset Cell),
  foldl (λ acc c, visit st cell.1 cell.2 c.1 c.2 acc) (n, X) l
  = (n - Z.of_nat (length (filter (λ c, candidate st cell c ∧ c ∈ mines st) l)),
     X ∪ list_to_set
           (filter (λ c, candidate st cell c ∧ (c ∉ mines st) ∧ (c ∉ safes st)) l)).
Proof.
  induction l as [|a l IH]; intros n X.
  - simpl. f_equal; [lia|]. by rewrite union_empty_r_L.
  - simpl foldl. unfold visit at 2.
    assert (((a.1 = cell.1 ∧ a.2 = cell.2) ∨ a.1 < 0 ∨ a.2 < 0
             ∨ a.1 >= height st ∨ a.2 >= width st) ↔ ¬ candidate st cell a)
      as Hskip.
    { unfold candidate. destruct a as [m n'], cell as [i j]. simpl.
      split.
      - intros Hc (Hne & ? & ?). destruct Hc as [[-> ->]|?]; [done|lia].
      - intros Hc.
        destruct (decide (m = i ∧ n' = j)) as [|Hne]; [by left|right].
        destruct (decide (m < 0)); [by left|right].
        destruct (decide (n' < 0)); [by left|right].
        destruct (decide (m >= height st)); [by left|right].
        destruct (decide (n' >= width st)); [done|].
        exfalso. apply Hc. split; [|lia]. intros [= -> ->]. by apply Hne. }
    destruct a as [m n']. simpl in Hskip |- *.
    case_bool_decide as Hc.
    { apply Hskip in Hc. rewrite IH.
      rewrite !filter_cons_False by naive_solver. done. }
    assert (candidate st cell (m, n')) as Hcand.
    { destruct (decide (candidate st cell (m, n'))); [done|].
      exfalso. by apply Hc, Hskip. }
    case_bool_decide as Hm.
    { rewrite IH. simpl. rewrite filter_cons_True by done.
      rewrite filter_cons_False by naive_solver. simpl. f_equal. lia. }
    case_bool_decide as Hs.
    { rewrite IH. simpl. rewrite filter_cons_False by naive_solver.
      rewrite filter_cons_True by done. rewrite list_to_set_cons.
      f_equal. set_solver. }
    rewrite IH. rewrite !filter_cons_False by naive_solver. done.
Qed.

Lemma scan_neighbours_spec st cell count :
  scan_neighbours st cell count
  = (count - Z.of_nat (size (neighbourhood (height st) (width st) cell ∩ mines st)),
     neighbourhood (height st) (width st) cell ∖ (mines st ∪ safes st)).
Proof.
  assert (scan_neighbours st cell count
          = foldl (λ acc c, visit st cell.1 cell.2 c.1 c.2 acc) (count, ∅)
                  (around cell)) as ->.
  { destruct cell as [i j]. reflexivity. }
  rewrite visit_fold. f_equal.
  - f_equal. f_equal.
    rewrite <-(size_list_to_set (C := gset Cell))
      by apply NoDup_filter, NoDup_around.
    f_equal. apply set_eq. intros c.
    rewrite elem_of_list_to_set, list_elem_of_filter, elem_of_intersection.
    unfold neighbourhood, candidate.
    rewrite elem_of_filter, elem_of_list_to_set. naive_solver.
  - apply set_eq. intros c.
    rewrite elem_of_union, elem_of_list_to_set, list_elem_of_filter.
    rewrite elem_of_difference, elem_of_union.
    unfold neighbourhood, candidate.
    rewrite elem_of_filter, elem_of_list_to_set.
    split; [|naive_solver].
    intros [Hc|Hc]; [by apply not_elem_of_empty in Hc|naive_solver].
Qed.

(** The knowledge base after steps 1 to 3 of [add_knowledge]. *)
Lemma observe_sentences st cell count :
  wf st →
  let near := neighbourhood (height st) (width st) cell in
  let unresolved := near ∖ (mines st ∪ safes st) in
  let adjusted := count - Z.of_nat (size (near ∩ mines st)) in
  let folded := Sentence.mark_safe cell <$> sentences st in
  sentences (observe cell count st) =
    if decide (unresolved ≠ ∅ ∧ mkSentence unresolved adjusted ∉ folded)
    then folded ++ [mkSentence unresolved adjusted] else folded.
Proof.
  intros Hwf. cbv zeta. unfold observe.
  set (st1 := mark_safe cell (set_moves_made _ st)).
  assert (wf st1) as Hwf1 by (apply wf_mark_safe; by destruct Hwf).
  assert (sentences st1 = Sentence.mark_safe cell <$> sentences st) as Hs1.
  { subst st1. rewrite sentences_mark_safe; [done|by destruct Hwf]. }
  rewrite scan_neighbours_spec.
  change (height st1) with (height st). change (width st1) with (width st).
  change (mines st1) with (mines st).
  change (safes st1) with ({[cell]} ∪ safes st).
  set (near := neighbourhood (height st) (width st) cell).
  assert (near ∖ (mines st ∪ ({[cell]} ∪ safes st))
          = near ∖ (mines st ∪ safes st)) as ->.
  { apply set_eq. intros c. rewrite !elem_of_difference, !elem_of_union.
    subst near. rewrite elem_of_neighbourhood, elem_of_singleton. naive_solver. }
  case_bool_decide as Hne.
  - destruct (contains st1 _) eqn:Hc; simpl.
    + apply contains_spec in Hc. rewrite Hs1 in Hc.
      rewrite decide_False by naive_solver. by rewrite Hs1.
    + apply contains_false in Hc. rewrite Hs1 in Hc.
      rewrite decide_True by done.
      rewrite sentences_append, Hs1 by done. done.
  - rewrite decide_False by naive_solver. by rewrite Hs1.
Qed.

Lemma observe_fields st cell count :
  moves_made (observe cell count st) = {[cell]} ∪ moves_made st
  ∧ safes (observe cell count st) = {[cell]} ∪ safes st
  ∧ mines (observe cell count st) = mines st.
Proof.
  unfold observe.
  destruct (scan_neighbours _ cell count) as [count' neighbours].
  case_bool_decide; [|done]. by destruct (contains _ _).
Qed.

(** C7: [add_knowledge], before its loop, adds the cell to
    [moves_made]; marks it safe, in the engine and in every sentence;
    takes the in-bounds cells around it without the cell itself;
    lowers the count by one for each of them that is a known mine and
    leaves that one out; leaves out the known safe ones; and, when
    cells remain, appends the sentence of the remaining cells with the
    lowered count unless an equal sentence is there. *)
Theorem observe_spec h w st cell count :
  reachable_by any_call h w st →
  let near := neighbourhood h w cell in
  let unresolved := near ∖ (mines st ∪ safes st) in
  let adjusted := count - Z.of_nat (size (near ∩ mines st)) in
  let folded := Sentence.mark_safe cell <$> sentences st in
  let st' := observe cell count st in
  (∀ c, c ∈ near ↔
        c ≠ cell ∧ (cell.1 - 1 ≤ c.1 ≤ cell.1 + 1)
        ∧ (cell.2 - 1 ≤ c.2 ≤ cell.2 + 1) ∧ (0 ≤ c.1 < h) ∧ (0 ≤ c.2 < w))
  ∧ moves_made st' = {[cell]} ∪ moves_made st
  ∧ safes st' = {[cell]} ∪ safes st
  ∧ mines st' = mines st
  ∧ sentences st' =
      if decide (unresolved ≠ ∅ ∧ mkSentence unresolved adjusted ∉ folded)
      then folded ++ [mkSentence unresolved adjusted] else folded.
Proof.
  intros (Hwf & Hh & Hw)%reachable_shaped. cbv zeta.
  split; [intros c; apply elem_of_neighbourhood|].
  destruct (observe_fields st cell count) as (Hmv & Hsf & Hm).
  split; [done|]. split; [done|]. split; [done|].
  rewrite <-Hh, <-Hw. by apply observe_sentences.
Qed.

End observation.

(** ** How the steps of a pass change the sentences *)

Section sentences_steps.
Implicit Types (st : MinesweeperAI) (s : Sentence).

Lemma elem_of_sentences st s :
  s ∈ sentences st ↔ ∃ id, id ∈ knowledge st ∧ s = deref (store st) id.
Proof. unfold sentences. rewrite list_elem_of_fmap. naive_solver. Qed.

Lemma sentences_strip cell id st s' :
  s' ∈ sentences (strip cell id st) →
  ∃ s, s ∈ sentences st
       ∧ (s' = s ∨ s' = mkSentence (cells s ∖ {[cell]}) (count s)).
Proof.
  intros (id' & Hin & ->)%elem_of_sentences. simpl in *.
  exists (deref (store st) id'). split; [apply elem_of_sentences; eauto|].
  rewrite deref_alter. case_decide; [by right|by left].
Qed.

Lemma sentences_drop st k1 id k2 s :
  knowledge st = k1 ++ id :: k2 →
  s ∈ sentences (set_knowledge (k1 ++ k2) st) → s ∈ sentences st.
Proof.
  intros Hk (id' & Hin & ->)%elem_of_sentences. simpl in *.
  apply elem_of_sentences. exists id'. split; [|done].
  rewrite Hk. apply elem_of_app in Hin as [Hin|Hin]; apply elem_of_app;
    [by left|right]. apply elem_of_cons. by right.
Qed.

Lemma deref_sentences st id : id ∈ knowledge st → deref (store st) id ∈ sentences st.
Proof. intros Hin. apply elem_of_sentences. eauto. Qed.

Lemma known_mines_subseteq s : Sentence.known_mines s ⊆ cells s.
Proof. unfold Sentence.known_mines. case_bool_decide; set_solver. Qed.

Lemma known_safes_subseteq s : Sentence.known_safes s ⊆ cells s.
Proof. unfold Sentence.known_safes. case_bool_decide; set_solver. Qed.

Lemma sentences_infer st flag s :
  wf st → s ∈ sentences (infer (st, flag)).1 →
  s ∈ sentences st
  ∨ ∃ a b, a ∈ sentences st ∧ b ∈ sentences st ∧ cells a ⊂ cells b
           ∧ s = difference a b.
Proof.
  intros Hwf Hs. unfold infer in Hs. simpl in Hs.
  destruct (add_inferred_fold (infer_all (sentences st)) st flag Hwf)
    as (new & _ & Heq & _ & Hnew & _).
  simpl in Heq, Hnew. rewrite Heq in Hs.
  apply elem_of_app in Hs as [Hs|Hs]; [by left|right].
  apply Hnew in Hs as [Hs _]. by apply infer_all_sound.
Qed.

Lemma infer_spec st flag :
  wf st →
  ∃ new,
    sentences (infer (st, flag)).1 = sentences st ++ new
    ∧ (∀ s, s ∈ infer_all (sentences st) → s ∈ sentences (infer (st, flag)).1)
    ∧ (∀ s, s ∈ new → s ∈ infer_all (sentences st) ∧ s ∉ sentences st)
    ∧ NoDup new
    ∧ (infer (st, flag)).2 = flag || bool_decide (new ≠ []).
Proof.
  intros Hwf. unfold infer. simpl.
  destruct (add_inferred_fold (infer_all (sentences st)) st flag Hwf)
    as (new & _ & Heq & Hall & Hnew & Hnd & Hflag & _).
  exists new. done.
Qed.

Lemma infer_fields st flag :
  wf st →
  wf (infer (st, flag)).1
  ∧ mines (infer (st, flag)).1 = mines st
  ∧ safes (infer (st, flag)).1 = safes st
  ∧ moves_made (infer (st, flag)).1 = moves_made st.
Proof.
  intros Hwf. unfold infer. simpl.
  destruct (add_inferred_fold (infer_all (sentences st)) st flag Hwf)
    as (new & Hwf' & _ & _ & _ & _ & _ & Hm & Hsf & Hmv & _).
  done.
Qed.

End sentences_steps.

(** ** Coherence *)

Section coherence.
Implicit Types (st : MinesweeperAI) (s : Sentence).

Lemma coherent_mark_mine c st :
  coherent st → c ∉ safes st → coherent (mark_mine c st).
Proof.
  intros (Hwf & Hd & Hs) Hc. split; [by apply wf_mark_mine|].
  split; [simpl; set_solver|].
  intros s. rewrite sentences_mark_mine by done.
  intros (s0 & -> & Hin)%list_elem_of_fmap. rewrite cells_mark_mine.
  specialize (Hs s0 Hin). simpl. set_solver.
Qed.

Lemma coherent_mark_safe c st :
  coherent st → c ∉ mines st → coherent (mark_safe c st).
Proof.
  intros (Hwf & Hd & Hs) Hc. split; [by apply wf_mark_safe|].
  split; [simpl; set_solver|].
  intros s. rewrite sentences_mark_safe by done.
  intros (s0 & -> & Hin)%list_elem_of_fmap. rewrite cells_mark_safe.
  specialize (Hs s0 Hin). simpl. set_solver.
Qed.

Lemma coherent_closure fuel cell st st' :
  coherent st → closure fuel cell st = Done st' → coherent st'.
Proof.
  apply closure_inv.
  - intros st0 id (Hwf & Hd & Hs) _ _. split; [by apply wf_strip|].
    split; [done|]. intros s' (s & Hin & [->| ->])%sentences_strip; [by apply Hs|].
    specialize (Hs s Hin). simpl in *. set_solver.
  - intros st0 k1 id k2 (Hwf & Hd & Hs) Hk _. split; [by eapply wf_drop|].
    split; [done|]. intros s Hin%(sentences_drop _ _ _ _ _ Hk). by apply Hs.
  - intros st0 b id Hco Hid _.
    apply (mark_each_ind (λ st, coherent st ∧ safes st = safes st0)); [done|].
    intros st1 c Hc [Hco1 Hsafe]. split; [|done].
    apply coherent_mark_mine; [done|]. rewrite Hsafe.
    apply known_mines_subseteq in Hc.
    destruct Hco as (_ & _ & Hs). specialize (Hs _ (deref_sentences _ _ Hid)).
    set_solver.
  - intros st0 b id Hco Hid _.
    apply (mark_each_ind (λ st, coherent st ∧ mines st = mines st0)); [done|].
    intros st1 c Hc [Hco1 Hmine]. split; [|done].
    apply coherent_mark_safe; [done|]. rewrite Hmine.
    apply known_safes_subseteq in Hc.
    destruct Hco as (_ & _ & Hs). specialize (Hs _ (deref_sentences _ _ Hid)).
    set_solver.
  - intros st0 b (Hwf & Hd & Hs).
    destruct (infer_fields st0 b Hwf) as (Hwf' & Hm & Hsf & _).
    split; [done|]. rewrite Hm, Hsf. split; [done|].
    intros s Hin.
    destruct (sentences_infer st0 b s Hwf Hin)
      as [Hin'|(a & b' & Ha & Hb & Hsub & ->)]; [by apply Hs|].
    specialize (Hs b' Hb). simpl. set_solver.
Qed.

End coherence.

Section coherence_reachable.
Implicit Types (st : MinesweeperAI) (s : Sentence).

Lemma coherent_append s st :
  coherent st → cells s ## mines st ∪ safes st → coherent (append s st).
Proof.
  intros (Hwf & Hd & Hs) Hnew. split; [by apply wf_append|]. split; [done|].
  intros s'. rewrite sentences_append by done.
  intros [Hin| ->%list_elem_of_singleton]%elem_of_app; [by apply Hs|done].
Qed.

Lemma coherent_observe cell count st :
  coherent st → cell ∉ mines st → coherent (observe cell count st).
Proof.
  intros Hco Hcell. unfold observe.
  set (st1 := mark_safe cell (set_moves_made _ st)).
  assert (coherent st1) as Hco1.
  { apply coherent_mark_safe; [|done]. destruct Hco as (Hwf & Hd & Hs).
    split; [by destruct Hwf|]. split; done. }
  rewrite scan_neighbours_spec.
  case_bool_decide; [|done].
  destruct (contains st1 _); simpl; [done|].
  apply coherent_append; [done|]. simpl. set_solver.
Qed.

Lemma reachable_coherent h w st : reachable_by unconflicting h w st → coherent st.
Proof.
  induction 1 as [|st c fuel st' _ IH Hok Hexec].
  - split; [apply shaped_init|]. split; [set_solver|].
    intros s Hs. by apply elem_of_nil in Hs.
  - destruct c as [cell|cell|cell count]; simpl in Hexec, Hok.
    + injection Hexec as <-. by apply coherent_mark_mine.
    + injection Hexec as <-. by apply coherent_mark_safe.
    + eapply coherent_closure; [|exact Hexec]. by apply coherent_observe.
Qed.

(** C4, as the engine keeps it: when no call marks a known safe cell as
    a mine, or marks or observes a known mine as safe, no reachable
    state has a cell that is both known safe and a known mine. *)
Theorem safes_mines_disjoint h w st :
  reachable_by unconflicting h w st → safes st ∩ mines st = ∅.
Proof.
  intros (_ & Hd & _)%reachable_coherent. set_solver.
Qed.

End coherence_reachable.

(** ** Soundness with respect to a board *)

Section soundness.
Variable board : gset Cell.
Implicit Types (st : MinesweeperAI) (s : Sentence) (c : Cell).

Lemma holds_mark_mine c s :
  holds board s → c ∈ board → holds board (Sentence.mark_mine c s).
Proof.
  unfold holds. intros Hs Hc.
  destruct (decide (c ∈ cells s)) as [Hin|Hin].
  - rewrite mark_mine_in by done. simpl. rewrite Hs.
    assert (cells s ∩ board = {[c]} ∪ (cells s ∖ {[c]}) ∩ board) as ->.
    { apply set_eq. intros x. rewrite elem_of_union, !elem_of_intersection,
        elem_of_difference, elem_of_singleton.
      destruct (decide (x = c)); naive_solver. }
    rewrite size_union by set_solver. rewrite size_singleton. lia.
  - by rewrite mark_mine_notin.
Qed.

Lemma holds_mark_safe c s :
  holds board s → c ∉ board → holds board (Sentence.mark_safe c s).
Proof.
  unfold holds. intros Hs Hc. rewrite cells_mark_safe, count_mark_safe, Hs.
  do 2 f_equal. set_solver.
Qed.

Lemma holds_known_mines s : holds board s → Sentence.known_mines s ⊆ board.
Proof.
  unfold holds, Sentence.known_mines. intros Hs.
  case_bool_decide as Hc; [|set_solver].
  assert (cells s ∩ board ≡ cells s) as Heq.
  { apply set_subseteq_size_equiv; [set_solver|]. lia. }
  set_solver.
Qed.

Lemma holds_known_safes s : holds board s → Sentence.known_safes s ## board.
Proof.
  unfold holds, Sentence.known_safes. intros Hs.
  case_bool_decide as Hc; [|set_solver].
  assert (cells s ∩ board ≡ ∅) as Heq by (apply size_empty_inv; lia).
  set_solver.
Qed.

Lemma holds_difference a b :
  holds board a → holds board b → cells a ⊂ cells b →
  holds board (difference a b).
Proof.
  unfold holds, difference. intros Ha Hb [Hsub _]. simpl. rewrite Ha, Hb.
  assert (cells b ∩ board = (cells a ∩ board) ∪ ((cells b ∖ cells a) ∩ board))
    as ->.
  { apply set_eq. intros x. rewrite elem_of_union, !elem_of_intersection,
      elem_of_difference.
    destruct (decide (x ∈ cells a)); set_solver. }
  rewrite size_union by set_solver. lia.
Qed.

Lemma holds_bounds s : holds board s → 0 ≤ count s ≤ Z.of_nat (size (cells s)).
Proof.
  unfold holds. intros ->. split; [lia|].
  apply inj_le, subseteq_size. set_solver.
Qed.

Lemma sound_mark_mine c st : sound board st → c ∈ board → sound board (mark_mine c st).
Proof.
  intros (Hwf & Hm & Hsf & Hs) Hc. split; [by apply wf_mark_mine|].
  split; [simpl; set_solver|]. split; [done|].
  intros s. rewrite sentences_mark_mine by done.
  intros (s0 & -> & Hin)%list_elem_of_fmap. apply holds_mark_mine; auto.
Qed.

Lemma sound_mark_safe c st : sound board st → c ∉ board → sound board (mark_safe c st).
Proof.
  intros (Hwf & Hm & Hsf & Hs) Hc. split; [by apply wf_mark_safe|].
  split; [done|]. split; [simpl; set_solver|].
  intros s. rewrite sentences_mark_safe by done.
  intros (s0 & -> & Hin)%list_elem_of_fmap. apply holds_mark_safe; auto.
Qed.

Lemma sound_mark_each_mine st b id :
  sound board st → id ∈ knowledge st →
  sound board
    (mark_each mark_mine (Sentence.known_mines (deref (store st) id)) (st, b)).1.
Proof.
  intros Hso Hid. apply mark_each_ind; [done|].
  intros st1 c Hc Hso1. apply sound_mark_mine; [done|].
  destruct Hso as (_ & _ & _ & Hs).
  by apply (holds_known_mines _ (Hs _ (deref_sentences _ _ Hid))).
Qed.

Lemma sound_mark_each_safe st b id :
  sound board st → id ∈ knowledge st →
  sound board
    (mark_each mark_safe (Sentence.known_safes (deref (store st) id)) (st, b)).1.
Proof.
  intros Hso Hid. apply mark_each_ind; [done|].
  intros st1 c Hc Hso1. apply sound_mark_safe; [done|].
  destruct Hso as (_ & _ & _ & Hs).
  pose proof (holds_known_safes _ (Hs _ (deref_sentences _ _ Hid))).
  set_solver.
Qed.

Lemma sound_strip cell id st :
  sound board st → cell ∉ board → sound board (strip cell id st).
Proof.
  intros (Hwf & Hm & Hsf & Hs) Hc. split; [by apply wf_strip|].
  split; [done|]. split; [done|].
  intros s' (s & Hin & [->| ->])%sentences_strip; [by apply Hs|].
  specialize (Hs s Hin). unfold holds in *. simpl. rewrite Hs.
  do 2 f_equal. set_solver.
Qed.

Lemma sound_drop st k1 id k2 :
  sound board st → knowledge st = k1 ++ id :: k2 →
  sound board (set_knowledge (k1 ++ k2) st).
Proof.
  intros (Hwf & Hm & Hsf & Hs) Hk. split; [by eapply wf_drop|].
  split; [done|]. split; [done|].
  intros s Hin%(sentences_drop _ _ _ _ _ Hk). by apply Hs.
Qed.

Lemma sound_infer st b : sound board st → sound board (infer (st, b)).1.
Proof.
  intros (Hwf & Hm & Hsf & Hs).
  destruct (infer_fields st b Hwf) as (Hwf' & Hm' & Hsf' & _).
  split; [done|]. rewrite Hm', Hsf'. split; [done|]. split; [done|].
  intros s Hin.
  destruct (sentences_infer st b s Hwf Hin)
    as [Hin'|(a & b' & Ha & Hb & Hsub & ->)]; [by apply Hs|].
  apply holds_difference; auto.
Qed.

Lemma sound_closure fuel cell st st' :
  cell ∉ board →
  sound board st → closure fuel cell st = Done st' → sound board st'.
Proof.
  intros Hcell. apply closure_inv.
  - intros st0 id Hso _ _. by apply sound_strip.
  - intros st0 k1 id k2 Hso Hk _. by eapply sound_drop.
  - intros st0 b id Hso Hid _. by apply sound_mark_each_mine.
  - intros st0 b id Hso Hid _. by apply sound_mark_each_safe.
  - intros st0 b. apply sound_infer.
Qed.

Lemma nearby_mines_spec h w cell :
  nearby_mines h w board cell
  = Z.of_nat (size (neighbourhood h w cell ∩ board)).
Proof.
  set (step := λ (count : Z) (c : Cell),
         if bool_decide (c = cell) then count
         else if bool_decide ((0 ≤ c.1 < h) ∧ (0 ≤ c.2 < w)) then
           if bool_decide (c ∈ board) then count + 1 else count
         else count).
  assert (nearby_mines h w board cell = foldl step 0 (around cell)) as ->.
  { unfold nearby_mines, around. rewrite foldl_bind_list.
    apply foldl_ext_all. intros n i. rewrite foldl_bind_list.
    apply foldl_ext_all. intros n' j. reflexivity. }
  set (P := λ c : Cell,
         (c ≠ cell ∧ (0 ≤ c.1 < h) ∧ (0 ≤ c.2 < w)) ∧ c ∈ board).
  assert (∀ l n, foldl step n l = n + Z.of_nat (length (filter P l))) as Hfold.
  { induction l as [|c l IH]; intros n; simpl; [lia|].
    rewrite IH. unfold step.
    destruct (decide (P c)) as [Hc|Hc].
    - rewrite filter_cons_True by done. unfold P in Hc.
      rewrite bool_decide_eq_false_2 by naive_solver.
      rewrite bool_decide_eq_true_2 by naive_solver.
      rewrite bool_decide_eq_true_2 by naive_solver. simpl. lia.
    - rewrite filter_cons_False by done. unfold P in Hc.
      repeat case_bool_decide; try done. exfalso. apply Hc. naive_solver. }
  rewrite Hfold, Z.add_0_l. f_equal.
  rewrite <-(size_list_to_set (C := gset Cell))
    by apply NoDup_filter, NoDup_around.
  f_equal. apply set_eq. intros c.
  rewrite elem_of_list_to_set, list_elem_of_filter, elem_of_intersection.
  unfold neighbourhood, P. rewrite elem_of_filter, elem_of_list_to_set.
  naive_solver.
Qed.

Lemma sound_observe cell st :
  sound board st → cell ∉ board →
  sound board
    (observe cell (nearby_mines (height st) (width st) board cell) st).
Proof.
  intros Hso Hcell. unfold observe.
  set (st1 := mark_safe cell (set_moves_made _ st)).
  assert (sound board st1) as Hso1.
  { apply sound_mark_safe; [|done]. destruct Hso as (Hwf & Hm & Hsf & Hs).
    split; [by destruct Hwf|]. done. }
  rewrite scan_neighbours_spec, nearby_mines_spec.
  change (height st1) with (height st). change (width st1) with (width st).
  set (near := neighbourhood (height st) (width st) cell).
  case_bool_decide; [|done].
  destruct (contains st1 _); simpl; [done|].
  destruct Hso1 as (Hwf1 & Hm1 & Hsf1 & Hs1).
  split; [by apply wf_append|]. split; [done|]. split; [done|].
  intros s. rewrite sentences_append by done.
  intros [Hin| ->%list_elem_of_singleton]%elem_of_app; [by apply Hs1|].
  unfold holds. simpl.
  change (mines st1) with (mines st) in *.
  change (safes st1) with ({[cell]} ∪ safes st) in *.
  set (rest := near ∖ (mines st ∪ ({[cell]} ∪ safes st))).
  assert (near ∩ board = (near ∩ mines st) ∪ (rest ∩ board)) as ->.
  { apply set_eq. intros x. subst rest.
    rewrite elem_of_union, !elem_of_intersection, elem_of_difference,
      elem_of_union.
    pose proof (Hm1 x). pose proof (Hsf1 x).
    destruct (decide (x ∈ mines st)); tauto. }
  rewrite size_union; [lia|].
  intros x [_ Hx1]%elem_of_intersection [Hx2 _]%elem_of_intersection.
  subst rest. apply elem_of_difference in Hx2 as [_ Hx2].
  apply Hx2, elem_of_union. by left.
Qed.

Lemma reachable_sound h w st :
  reachable_by (truthful h w board) h w st → sound board st.
Proof.
  induction 1 as [|st c fuel st' Hreach IH Hok Hexec].
  - split; [apply shaped_init|]. split; [set_solver|]. split; [set_solver|].
    intros s Hs. by apply elem_of_nil in Hs.
  - destruct c as [cell|cell|cell count]; simpl in Hexec, Hok.
    + injection Hexec as <-. by apply sound_mark_mine.
    + injection Hexec as <-. by apply sound_mark_safe.
    + destruct Hok as [Hcell ->].
      apply reachable_shaped in Hreach as (_ & <- & <-).
      eapply sound_closure; [done| |exact Hexec]. by apply sound_observe.
Qed.

Lemma sound_bounded st : sound board st → bounded st.
Proof. intros (_ & _ & _ & Hs) s Hin. by apply holds_bounds, Hs. Qed.

Lemma sound_pass cell st acc :
  cell ∉ board → sound board st → pass cell st = Done acc →
  sound board acc.1.
Proof.
  intros Hcell Hso Hp.
  destruct (pass_inv (sound board) cell) with (st := st)
    as (acc' & Hp' & Hso'); try done.
  - intros st0 id Hs0 _ _. by apply sound_strip.
  - intros st0 k1 id k2 Hs0 Hk _. by eapply sound_drop.
  - intros st0 b id Hs0 Hid _. by apply sound_mark_each_mine.
  - intros st0 b id Hs0 Hid _. by apply sound_mark_each_safe.
  - intros st0 b. apply sound_infer.
  - congruence.
Qed.

(** C5, as the engine keeps it: when every call tells the truth about
    one board, every sentence of the knowledge base has a count between
    0 and its number of cells, in every reachable state and, while an
    observation is being added, after the observation is folded in and
    after each pass of the loop. *)
Theorem counts_within_bounds h w st :
  reachable_by (truthful h w board) h w st →
  bounded st
  ∧ ∀ cell acc,
      cell ∉ board →
      in_closure cell (observe cell (nearby_mines h w board cell) st) acc →
      bounded acc.1.
Proof.
  intros Hreach. pose proof (reachable_sound _ _ _ Hreach) as Hso.
  split; [by apply sound_bounded|].
  intros cell acc Hcell Hin. apply sound_bounded.
  apply reachable_shaped in Hreach as (_ & <- & <-).
  induction Hin as [|st1 acc _ IH Hp]; simpl.
  - by apply sound_observe.
  - by eapply sound_pass.
Qed.

End soundness.

(** ** The measure of the loop *)

Section measure.
Implicit Types (st : MinesweeperAI) (s : Sentence) (X : gset Cell).

Lemma elem_of_open_cells st x :
  x ∈ open_cells st ↔ ∃ s, s ∈ sentences st ∧ x ∈ cells s.
Proof.
  unfold open_cells. rewrite elem_of_union_list. split.
  - intros (X & (s & -> & Hs)%list_elem_of_fmap & Hx). eauto.
  - intros (s & Hs & Hx). exists (cells s). split; [|done].
    apply list_elem_of_fmap. eauto.
Qed.

Lemma elem_of_shapes st X :
  X ∈ shapes st ↔ X ≠ ∅ ∧ ∃ s, s ∈ sentences st ∧ cells s = X.
Proof.
  unfold shapes.
  rewrite elem_of_difference, elem_of_list_to_set, list_elem_of_fmap,
    elem_of_singleton.
  naive_solver.
Qed.

Lemma shapes_subseteq_open st X : X ∈ shapes st → X ⊆ open_cells st.
Proof.
  intros (_ & s & Hs & <-)%elem_of_shapes x Hx.
  apply elem_of_open_cells. eauto.
Qed.

Lemma open_cells_mark_mine c st :
  wf st → open_cells (mark_mine c st) = open_cells st ∖ {[c]}.
Proof.
  intros Hwf. apply set_eq. intros x.
  rewrite elem_of_difference, !elem_of_open_cells, elem_of_singleton.
  rewrite sentences_mark_mine by done. split.
  - intros (s' & (s & -> & Hs)%list_elem_of_fmap & Hx).
    rewrite cells_mark_mine in Hx. set_solver.
  - intros [(s & Hs & Hx) Hne]. exists (Sentence.mark_mine c s).
    split; [by apply list_elem_of_fmap_2|]. rewrite cells_mark_mine. set_solver.
Qed.

Lemma open_cells_mark_safe c st :
  wf st → open_cells (mark_safe c st) = open_cells st ∖ {[c]}.
Proof.
  intros Hwf. apply set_eq. intros x.
  rewrite elem_of_difference, !elem_of_open_cells, elem_of_singleton.
  rewrite sentences_mark_safe by done. split.
  - intros (s' & (s & -> & Hs)%list_elem_of_fmap & Hx).
    rewrite cells_mark_safe in Hx. set_solver.
  - intros [(s & Hs & Hx) Hne]. exists (Sentence.mark_safe c s).
    split; [by apply list_elem_of_fmap_2|]. rewrite cells_mark_safe. set_solver.
Qed.

Lemma open_cells_mark_each mark X acc :
  (∀ c st, wf st →
     wf (mark c st) ∧ open_cells (mark c st) = open_cells st ∖ {[c]}) →
  wf acc.1 →
  open_cells (mark_each mark X acc).1 = open_cells acc.1 ∖ X.
Proof.
  intros Hstep. unfold mark_each.
  rewrite <-(list_to_set_elements_L X) at 2.
  generalize (elements X). intros l. revert acc.
  induction l as [|c l IH]; intros acc Hwf; simpl.
  - set_solver.
  - destruct (Hstep c acc.1 Hwf) as [Hwf' Ho].
    rewrite IH by done. simpl. rewrite Ho. set_solver.
Qed.

Lemma open_cells_mark_each_mine X acc :
  wf acc.1 → open_cells (mark_each mark_mine X acc).1 = open_cells acc.1 ∖ X.
Proof.
  apply open_cells_mark_each. intros c st Hwf.
  split; [by apply wf_mark_mine | by apply open_cells_mark_mine].
Qed.

Lemma open_cells_mark_each_safe X acc :
  wf acc.1 → open_cells (mark_each mark_safe X acc).1 = open_cells acc.1 ∖ X.
Proof.
  apply open_cells_mark_each. intros c st Hwf.
  split; [by apply wf_mark_safe | by apply open_cells_mark_safe].
Qed.

Lemma elem_of_sentences_drop st k1 id k2 s :
  knowledge st = k1 ++ id :: k2 →
  s ∈ sentences st ↔
  s ∈ sentences (set_knowledge (k1 ++ k2) st) ∨ s = deref (store st) id.
Proof.
  intros Hk. rewrite !elem_of_sentences. simpl. rewrite Hk. split.
  - intros (id' & Hin & ->).
    apply elem_of_app in Hin as [Hin|[->|Hin]%elem_of_cons]; [left|by right|left];
      exists id'; (split; [|done]); apply elem_of_app; auto.
  - intros [(id' & Hin & ->)| ->].
    + exists id'. split; [|done].
      apply elem_of_app in Hin as [Hin|Hin]; apply elem_of_app; [by left|right].
      apply elem_of_cons. by right.
    + exists id. split; [|done]. apply elem_of_app. right.
      apply elem_of_cons. by left.
Qed.

Lemma open_cells_drop st k1 id k2 :
  knowledge st = k1 ++ id :: k2 → cells (deref (store st) id) = ∅ →
  open_cells (set_knowledge (k1 ++ k2) st) = open_cells st.
Proof.
  intros Hk He. apply set_eq. intros x. rewrite !elem_of_open_cells.
  split; intros (s & Hs & Hx); exists s; (split; [|done]).
  - apply (elem_of_sentences_drop _ _ _ _ _ Hk). by left.
  - apply (elem_of_sentences_drop _ _ _ _ _ Hk) in Hs as [Hs| ->]; [done|].
    rewrite He in Hx. by apply not_elem_of_empty in Hx.
Qed.

Lemma shapes_drop st k1 id k2 :
  knowledge st = k1 ++ id :: k2 → cells (deref (store st) id) = ∅ →
  shapes (set_knowledge (k1 ++ k2) st) = shapes st.
Proof.
  intros Hk He. apply set_eq. intros X. rewrite !elem_of_shapes.
  split; intros (Hne & s & Hs & HX); (split; [done|]); exists s; (split; [|done]).
  - apply (elem_of_sentences_drop _ _ _ _ _ Hk). by left.
  - apply (elem_of_sentences_drop _ _ _ _ _ Hk) in Hs as [Hs| ->]; [done|].
    congruence.
Qed.

Lemma open_cells_infer st flag :
  wf st → open_cells (infer (st, flag)).1 = open_cells st.
Proof.
  intros Hwf. apply set_eq. intros x. rewrite !elem_of_open_cells. split.
  - intros (s & Hs & Hx).
    destruct (sentences_infer st flag s Hwf Hs)
      as [Hin|(a & b & Ha & Hb & Hsub & ->)]; [eauto|].
    exists b. split; [done|]. simpl in Hx. set_solver.
  - intros (s & Hs & Hx). exists s. split; [|done].
    unfold infer. simpl.
    destruct (add_inferred_fold (infer_all (sentences st)) st flag Hwf)
      as (new & _ & Heq & _).
    simpl in Heq. rewrite Heq. apply elem_of_app. by left.
Qed.

Lemma length_subsets l : length (subsets l) = (2 ^ length l)%nat.
Proof.
  induction l as [|x l IH]; simpl; [done|].
  rewrite length_app, length_fmap, IH. lia.
Qed.

Lemma elem_of_subsets l X : X ⊆ list_to_set l → X ∈ subsets l.
Proof.
  revert X. induction l as [|x l IH]; intros X HX; simpl in *.
  - assert (X = ∅) as -> by set_solver. by apply list_elem_of_singleton.
  - apply elem_of_app. destruct (decide (x ∈ X)) as [Hx|Hx].
    + right. apply list_elem_of_fmap. exists (X ∖ {[x]}). split.
      * apply set_eq. intros y. rewrite elem_of_union, elem_of_difference,
          elem_of_singleton. destruct (decide (y = x)); naive_solver.
      * apply IH. set_solver.
    + left. apply IH. set_solver.
Qed.

Lemma size_list_to_set_le (l : list (gset Cell)) :
  (size (list_to_set l : gset (gset Cell)) ≤ length l)%nat.
Proof.
  induction l as [|x l IH].
  - change (list_to_set []) with (∅ : gset (gset Cell)).
    rewrite size_empty. simpl. lia.
  - rewrite list_to_set_cons. simpl length.
    rewrite size_union_alt, size_singleton.
    assert (size (list_to_set l ∖ {[x]} : gset (gset Cell))
            ≤ size (list_to_set l : gset (gset Cell)))%nat
      by (apply subseteq_size; set_solver).
    lia.
Qed.

Lemma shapes_bound st : (size (shapes st) ≤ 2 ^ size (open_cells st))%nat.
Proof.
  unfold size at 2, set_size. simpl. rewrite <-length_subsets.
  etrans; [|apply size_list_to_set_le]. apply subseteq_size.
  intros X HX. apply elem_of_list_to_set, elem_of_subsets.
  rewrite list_to_set_elements_L. by apply shapes_subseteq_open.
Qed.

End measure.

(** ** Termination of the loop on truthful input *)

Section termination.
Variable board : gset Cell.
Variable cell : Cell.
Hypothesis cell_free : cell ∉ board.
Implicit Types (st : MinesweeperAI) (s : Sentence).

Lemma progress_marks st0 mark known st b id :
  (∀ X acc, wf acc.1 →
     open_cells (mark_each mark X acc).1 = open_cells acc.1 ∖ X) →
  (sound board st → id ∈ knowledge st →
     sound board (mark_each mark (known (deref (store st) id)) (st, b)).1) →
  (∀ s, known s ⊆ cells s) →
  progress board cell st0 (st, b) → id ∈ knowledge st →
  progress board cell st0 (mark_each mark (known (deref (store st) id)) (st, b)).
Proof.
  intros Hopen Hsound Hsub (Hso & Hc & Hle & Ht & Hf) Hid.
  set (X := known (deref (store st) id)).
  destruct (decide (X = ∅)) as [He|Hne].
  { rewrite He, mark_each_empty. by split. }
  pose proof (mark_each_flag mark X (st, b)) as Hflag.
  rewrite (bool_decide_eq_true_2 _ Hne), orb_true_r in Hflag.
  pose proof (Hopen X (st, b) (proj1 Hso)) as Ho. simpl in Ho.
  specialize (Hsound Hso Hid). fold X in Hsound.
  destruct (mark_each mark X (st, b)) as [st1 b1]. simpl in *. subst b1.
  split; [done|]. simpl. rewrite Ho.
  split; [set_solver|]. split; [set_solver|]. split; [|done].
  intros _ Heq. apply set_choose_L in Hne as [c Hc'].
  assert (c ∈ open_cells st) as Hin.
  { apply elem_of_open_cells. exists (deref (store st) id).
    split; [by apply deref_sentences|]. by apply (Hsub _). }
  set_solver.
Qed.

(** A pass either is the last one, or resolves a cell, or adds a
    sentence with a cell set that was not there. *)
Lemma pass_progress st :
  sound board st → cell ∉ open_cells st →
  ∃ st' b,
    pass cell st = Done (st', b)
    ∧ sound board st' ∧ (cell ∉ open_cells st')
    ∧ (b = true →
       (size (open_cells st') < size (open_cells st))%nat
       ∨ (open_cells st' = open_cells st
          ∧ (size (shapes st) < size (shapes st'))%nat)).
Proof.
  intros Hso Hcell.
  destruct (pass_ind (progress board cell st) cell) with (st := st)
    as ([st1 b1] & _ & (Hso1 & Hc1 & Hle1 & Ht1 & Hf1) & Hp).
  - intros st1 b id (_ & Hc & _) Hid Hin. exfalso. apply Hc.
    apply elem_of_open_cells. exists (deref (store st1) id).
    split; [by apply deref_sentences|done].
  - intros st1 b k1 id k2 (Hso1 & Hc & Hle & Ht & Hf) Hk He. simpl in *.
    split; [by eapply sound_drop|]. simpl.
    rewrite (open_cells_drop _ _ _ _ Hk He), (shapes_drop _ _ _ _ Hk He).
    done.
  - intros st1 b id Hpr Hid _.
    apply (progress_marks st mark_mine Sentence.known_mines); try done.
    + apply open_cells_mark_each_mine.
    + apply sound_mark_each_mine.
    + apply known_mines_subseteq.
  - intros st1 b id Hpr Hid _.
    apply (progress_marks st mark_safe Sentence.known_safes); try done.
    + apply open_cells_mark_each_safe.
    + apply sound_mark_each_safe.
    + apply known_safes_subseteq.
  - split; [done|]. split; [done|]. split; [done|]. split; done.
  - simpl in *. rewrite Hp.
    pose proof (sound_infer board st1 b1 Hso1) as Hso2.
    pose proof (open_cells_infer st1 b1 (proj1 Hso1)) as Ho2.
    destruct (infer_spec st1 b1 (proj1 Hso1))
      as (new & Heq & _ & Hnew & _ & Hflag).
    destruct (infer (st1, b1)) as [st2 b2]. simpl in *.
    exists st2, b2. split; [done|]. split; [done|].
    rewrite Ho2. split; [done|]. intros ->.
    destruct b1.
    + left. apply subset_size. split; [done|].
      intros Hge. apply Ht1; [done|]. set_solver.
    + right. destruct (Hf1 eq_refl) as [Hsh Hop]. split; [done|].
      rewrite <-Hsh. apply subset_size.
      assert (shapes st1 ⊆ shapes st2) as Hsub.
      { intros X (Hne & s & Hs & HX)%elem_of_shapes. apply elem_of_shapes.
        split; [done|]. exists s. split; [|done].
        rewrite Heq. apply elem_of_app. by left. }
      split; [done|]. intros Hge.
      destruct new as [|s new]; [done|].
      destruct (Hnew s) as [Hinf Hnotin]; [by apply elem_of_cons; left|].
      apply infer_all_sound in Hinf as (a & b & Ha & Hb & Hab & Hs).
      assert (cells s ∈ shapes st2) as Hin2.
      { apply elem_of_shapes. split.
        - rewrite Hs. simpl. by apply strict_difference_nonempty.
        - exists s. split; [|done]. rewrite Heq. apply elem_of_app. right.
          apply elem_of_cons. by left. }
      apply Hge in Hin2. apply elem_of_shapes in Hin2 as (_ & t & Ht & Hcells).
      apply Hnotin.
      assert (t = s) as <-; [|done].
      destruct Hso1 as (_ & _ & _ & Hholds).
      pose proof (Hholds t Ht) as Hht.
      assert (holds board s) as Hhs
        by (rewrite Hs; apply holds_difference; auto).
      unfold holds in Hht, Hhs. rewrite <-Hcells, <-Hht in Hhs.
      apply Sentence_eqb_eq. unfold Sentence.eqb.
      by rewrite !bool_decide_eq_true_2.
Qed.

(** The loop returns, without raising. *)
Lemma closure_returns st :
  sound board st → cell ∉ open_cells st →
  ∃ fuel st', closure fuel cell st = Done st'.
Proof.
  remember (size (open_cells st)) as n eqn:Hn.
  revert st Hn. induction (lt_wf n) as [n _ IHn]. intros st Hn.
  remember (2 ^ n - size (shapes st))%nat as m eqn:Hm.
  revert st Hn Hm. induction (lt_wf m) as [m _ IHm]. intros st Hn Hm Hso Hcell.
  destruct (pass_progress st Hso Hcell) as (st' & b & Hp & Hso' & Hcell' & Hb).
  destruct b.
  - destruct (Hb eq_refl) as [Hlt|[Heq Hlt]].
    + destruct (IHn (size (open_cells st'))) with (st := st')
        as (fuel & st'' & Hcl); [lia|done..|].
      exists (S fuel), st''. simpl. by rewrite Hp.
    + pose proof (shapes_bound st') as Hbound. rewrite Heq, <-Hn in Hbound.
      destruct (IHm (2 ^ n - size (shapes st'))%nat) with (st := st')
        as (fuel & st'' & Hcl); [lia|by rewrite Heq|done..|].
      exists (S fuel), st''. simpl. by rewrite Hp.
  - exists 1%nat, st'. simpl. by rewrite Hp.
Qed.

End termination.

Section termination_reachable.
Implicit Types (st : MinesweeperAI) (s : Sentence).

Lemma observed_cell_closed cell count st :
  wf st → cell ∉ open_cells (observe cell count st).
Proof.
  intros Hwf. unfold observe.
  set (st1 := mark_safe cell (set_moves_made _ st)).
  assert (wf st1) as Hwf1 by (apply wf_mark_safe; by destruct Hwf).
  assert (cell ∉ open_cells st1) as Hc1.
  { subst st1. rewrite open_cells_mark_safe by (by destruct Hwf). set_solver. }
  rewrite scan_neighbours_spec.
  case_bool_decide; [|done].
  destruct (contains st1 _); simpl; [done|].
  rewrite elem_of_open_cells. intros (s & Hs & Hx).
  rewrite sentences_append in Hs by done.
  apply elem_of_app in Hs as [Hs| ->%list_elem_of_singleton].
  - apply Hc1, elem_of_open_cells. eauto.
  - simpl in Hx. apply elem_of_difference in Hx as [Hx _].
    apply elem_of_neighbourhood in Hx as [Hne _]. done.
Qed.

(** C2, as the engine keeps it: in a state reached by calls that tell
    the truth about one board, [add_knowledge] for a free cell of that
    board with the board's count returns: its loop exits after finitely
    many passes and no step raises. *)
Theorem add_knowledge_terminates h w board st cell :
  reachable_by (truthful h w board) h w st → cell ∉ board →
  ∃ fuel st',
    add_knowledge fuel cell (nearby_mines h w board cell) st = Done st'.
Proof.
  intros Hreach Hcell. unfold add_knowledge.
  pose proof (reachable_sound _ _ _ _ Hreach) as Hso.
  apply reachable_shaped in Hreach as (Hwf & <- & <-).
  apply (closure_returns board); [done| |by apply observed_cell_closed].
  by apply sound_observe.
Qed.

End termination_reachable.

(** ** make_random_move *)

Section random_move.
Implicit Types (st : MinesweeperAI) (rng : nat → Z) (c : Cell).

Lemma randint_Done a b r z : randint a b r = Done z → a ≤ z ≤ b.
Proof.
  unfold randint. case_bool_decide; [|done]. intros [= <-].
  pose proof (Z.mod_pos_bound r (b - a + 1)). lia.
Qed.

Lemma draw_Done st rng k c :
  draw st rng k = Done c → (0 ≤ c.1 < height st) ∧ (0 ≤ c.2 < width st).
Proof.
  unfold draw.
  destruct (randint 0 (height st - 1) (rng k)) as [i| |] eqn:Hi; try done.
  destruct (randint 0 (width st - 1) (rng (S k))) as [j| |] eqn:Hj; try done.
  intros [= <-]. apply randint_Done in Hi, Hj. simpl. lia.
Qed.

(** What [make_random_move] returns is a cell of the board that is
    neither a move made nor a known mine; it never returns [None]. *)
Lemma make_random_move_Done fuel : ∀ rng k st r,
  make_random_move fuel rng k st = Done r →
  ∃ c, r = Some c ∧ (0 ≤ c.1 < height st) ∧ (0 ≤ c.2 < width st)
       ∧ (c ∉ moves_made st) ∧ (c ∉ mines st).
Proof.
  induction fuel as [|fuel IH]; intros rng k st r; simpl; [done|].
  destruct (draw st rng k) as [c| |] eqn:Hd; try done.
  unfold mbind, outcome_bind.
  case_bool_decide as Hbad.
  - destruct (draw st rng (S (S k))) as [c'| |] eqn:Hd'; try done.
    case_bool_decide as Hgood; [|by apply IH].
    intros [= <-]. exists c'. apply draw_Done in Hd'. naive_solver.
  - case_bool_decide as Hgood; [|by apply IH].
    intros [= <-]. exists c. apply draw_Done in Hd. naive_solver.
Qed.

(** The sibling [make_safe_move] does return [None] when it has no
    cell to give. *)
Lemma make_safe_move_None st :
  make_safe_move st = None ↔ safes st ⊆ moves_made st.
Proof.
  unfold make_safe_move. rewrite head_None. split.
  - intros Hnil c Hc. destruct (decide (c ∈ moves_made st)) as [|Hn]; [done|].
    assert (c ∈ filter (λ m, m ∉ moves_made st) (elements (safes st))) as Hin
      by (apply list_elem_of_filter; split; [done|by apply elem_of_elements]).
    rewrite Hnil in Hin. by apply elem_of_nil in Hin.
  - intros Hsub.
    destruct (filter _ (elements (safes st))) as [|c l] eqn:Hf; [done|].
    assert (c ∈ c :: l) as Hin by (apply elem_of_cons; by left).
    rewrite <-Hf in Hin. apply list_elem_of_filter in Hin as [Hn Hc].
    exfalso. by apply Hn, Hsub, elem_of_elements.
Qed.

(** With no cell left to choose, the loop never exits. *)
Lemma make_random_move_stuck fuel : ∀ rng k st,
  0 < height st → 0 < width st →
  (∀ c, (0 ≤ c.1 < height st) ∧ (0 ≤ c.2 < width st) →
        c ∈ moves_made st ∨ c ∈ mines st) →
  make_random_move fuel rng k st = Timeout.
Proof.
  induction fuel as [|fuel IH]; intros rng k st Hh Hw Hall; simpl; [done|].
  assert (∀ k', ∃ c, draw st rng k' = Done c ∧ (c ∈ moves_made st ∨ c ∈ mines st))
    as Hdraw.
  { intros k'. unfold draw, randint.
    rewrite !bool_decide_eq_true_2 by lia. unfold mbind, outcome_bind.
    eexists. split; [done|]. apply Hall. simpl.
    pose proof (Z.mod_pos_bound (rng k') (height st - 1 - 0 + 1)).
    pose proof (Z.mod_pos_bound (rng (S k')) (width st - 1 - 0 + 1)). lia. }
  destruct (Hdraw k) as (c & -> & Hc). unfold mbind, outcome_bind.
  rewrite (bool_decide_eq_true_2 _ Hc).
  destruct (Hdraw (S (S k))) as (c' & -> & Hc').
  rewrite bool_decide_eq_false_2 by tauto. by apply IH.
Qed.

(** C10: a cell returned by [make_random_move] is within the bounds of
    the board, is not a move already made and is not a known mine. *)
Theorem make_random_move_valid fuel rng k st i j :
  make_random_move fuel rng k st = Done (Some (i, j)) →
  (0 ≤ i < height st) ∧ (0 ≤ j < width st)
  ∧ ((i, j) ∉ moves_made st) ∧ ((i, j) ∉ mines st).
Proof.
  intros (c & [= <-] & H)%make_random_move_Done. exact H.
Qed.

End random_move.

(** ** Contradictory observations: a loop that never exits *)

Section divergence.
Implicit Types (st : MinesweeperAI) (s : Sentence).

Lemma size_inner : size inner = 2%nat.
Proof. reflexivity. Qed.
Lemma size_outer : size outer = 5%nat.
Proof. reflexivity. Qed.
Lemma size_ring : size ring = 7%nat.
Proof. reflexivity. Qed.

Lemma inner_outer_disjoint : inner ## outer.
Proof. apply (bool_decide_unpack _). by vm_compute. Qed.

Lemma inner_in_ring : inner ⊂ ring.
Proof.
  split; [unfold ring; set_solver|]. intros Hsub.
  apply subseteq_size in Hsub. rewrite size_ring, size_inner in Hsub. lia.
Qed.

Lemma outer_in_ring : outer ⊂ ring.
Proof.
  split; [unfold ring; set_solver|]. intros Hsub.
  apply subseteq_size in Hsub. rewrite size_ring, size_outer in Hsub. lia.
Qed.

Lemma ring_minus_inner : ring ∖ inner = outer.
Proof. pose proof inner_outer_disjoint. unfold ring. set_solver. Qed.

Lemma ring_minus_outer : ring ∖ outer = inner.
Proof. pose proof inner_outer_disjoint. unfold ring. set_solver. Qed.

Lemma knotted_cells s :
  knotted s → cells s = inner ∨ cells s = outer ∨ cells s = ring.
Proof. intros [[? _]|[[? _]|[->| ->]]]; auto. Qed.

Lemma away_from_centre (X : gset Cell) :
  X = inner ∨ X = outer ∨ X = ring → X ≠ ∅ ∧ (1, 1) ∉ X.
Proof.
  intros [->|[->| ->]]; apply (bool_decide_unpack _); by vm_compute.
Qed.

Lemma knotted_quiet s :
  knotted s →
  cells s ≠ ∅ ∧ ((1, 1) ∉ cells s)
  ∧ Sentence.known_mines s = ∅ ∧ Sentence.known_safes s = ∅.
Proof.
  intros Hk.
  destruct (away_from_centre (cells s) (knotted_cells s Hk)) as [Hne Hc].
  split; [done|]. split; [done|].
  unfold Sentence.known_mines, Sentence.known_safes.
  destruct Hk as [[Hcs [k Hk]]|[[Hcs [k Hk]]|[->| ->]]]; cbn [cells count];
    rewrite ?Hcs, ?size_inner, ?size_outer, ?size_ring;
    rewrite !bool_decide_eq_false_2 by lia; done.
Qed.

Lemma knotted_difference a b :
  knotted a → knotted b → cells a ⊂ cells b → knotted (difference a b).
Proof.
  intros Ha Hb Hsub. unfold difference.
  assert (∀ X Y : gset Cell, X ⊂ Y → (size X < size Y)%nat) as Hsz
    by (intros X Y; apply subset_size).
  apply Hsz in Hsub as Hlt.
  destruct (knotted_cells b Hb) as [Hcb|[Hcb|Hcb]];
    destruct (knotted_cells a Ha) as [Hca|[Hca|Hca]];
    rewrite Hca, Hcb in Hlt, Hsub |- *;
    rewrite ?size_inner, ?size_outer, ?size_ring in Hlt; try lia.
  - (* inner inside outer: impossible *)
    exfalso. destruct Hsub as [Hsub _]. revert Hsub.
    apply (bool_decide_unpack _). by vm_compute.
  - (* inner inside ring *)
    rewrite ring_minus_inner. right. left. split; [done|].
    destruct Ha as [[_ [k Hk]]|[[Hc _]|[->| ->]]];
      [|by rewrite Hc in Hca|done|done].
    destruct Hb as [[Hc _]|[[Hc _]|[->| ->]]]; simpl;
      [by rewrite Hc in Hcb|by rewrite Hc in Hcb| |].
    + exists (- k). lia.
    + exists (1 - k). lia.
  - (* outer inside ring *)
    rewrite ring_minus_outer. left. split; [done|].
    destruct Ha as [[Hc _]|[[_ [k Hk]]|[->| ->]]];
      [by rewrite Hc in Hca| |done|done].
    destruct Hb as [[Hc _]|[[Hc _]|[->| ->]]]; simpl;
      [by rewrite Hc in Hcb|by rewrite Hc in Hcb| |].
    + exists (- k). lia.
    + exists (1 - k). lia.
Qed.

Lemma counts_bounded_below (l : list Sentence) :
  ∃ m, ∀ s, s ∈ l → m ≤ count s.
Proof.
  induction l as [|x l [m Hm]].
  - exists 0. by intros s ?%elem_of_nil.
  - exists (Z.min m (count x)). intros s [->|Hs]%elem_of_cons; [lia|].
    specialize (Hm s Hs). lia.
Qed.

(** A knowledge base with both counts for [ring] is never closed under
    inference. *)
Lemma stuck_not_closed st :
  stuck st →
  ¬ (∀ s, s ∈ infer_all (sentences st) → s ∈ sentences st).
Proof.
  intros (_ & _ & H2 & H5 & a & Ha) Hclosed.
  assert (∀ x, mkSentence inner x ∈ sentences st →
               mkSentence inner (x - 3) ∈ sentences st) as Hdown.
  { intros x Hx.
    assert (mkSentence outer (5 - x) ∈ sentences st) as Ho.
    { apply Hclosed.
      pose proof (infer_all_complete _ _ _ Hx H5 inner_in_ring) as Hin.
      unfold difference in Hin. simpl in Hin. by rewrite ring_minus_inner in Hin. }
    apply Hclosed.
    pose proof (infer_all_complete _ _ _ Ho H2 outer_in_ring) as Hin.
    unfold difference in Hin. simpl in Hin. rewrite ring_minus_outer in Hin.
    by replace (x - 3) with (2 - (5 - x)) by lia. }
  assert (∀ n : nat, mkSentence inner (a - 3 * Z.of_nat n) ∈ sentences st)
    as Hall.
  { induction n as [|n IH].
    - by replace (a - 3 * Z.of_nat 0) with a by lia.
    - apply Hdown in IH.
      by replace (a - 3 * Z.of_nat (S n)) with (a - 3 * Z.of_nat n - 3) by lia. }
  destruct (counts_bounded_below (sentences st)) as [m Hm].
  specialize (Hm _ (Hall (Z.to_nat (a - m) + 1)%nat)). simpl in Hm. lia.
Qed.

Lemma stuck_pass st :
  stuck st → ∃ st', pass (1, 1) st = Done (st', true) ∧ stuck st'.
Proof.
  intros Hst. pose proof Hst as (Hwf & Hk & H2 & H5 & a & Ha).
  assert (∀ id, id ∈ knowledge st → knotted (deref (store st) id)) as Hid
    by (intros id Hin; by apply Hk, deref_sentences).
  destruct (pass_ind (λ acc, acc = (st, false)) (1, 1)) with (st := st)
    as (acc & _ & -> & Hp).
  - intros st1 b id [= -> ->] Hin Hc.
    by destruct (knotted_quiet _ (Hid id Hin)) as (_ & Hn & _).
  - intros st1 b k1 id k2 [= -> ->] Hkn He.
    destruct (knotted_quiet (deref (store st) id)) as (Hn & _); [|done].
    apply Hid. rewrite Hkn. apply elem_of_app. right. by apply elem_of_cons; left.
  - intros st1 b id [= -> ->] Hin _.
    destruct (knotted_quiet _ (Hid id Hin)) as (_ & _ & -> & _).
    by rewrite mark_each_empty.
  - intros st1 b id [= -> ->] Hin _.
    destruct (knotted_quiet _ (Hid id Hin)) as (_ & _ & _ & ->).
    by rewrite mark_each_empty.
  - done.
  - rewrite Hp.
    destruct (infer_spec st false Hwf) as (new & Heq & Hall & Hnew & _ & Hflag).
    destruct (infer_fields st false Hwf) as (Hwf' & _).
    destruct (infer (st, false)) as [st' b']. simpl in *.
    assert (new ≠ []) as Hne.
    { intros ->. rewrite app_nil_r in Heq. rewrite Heq in Hall.
      by apply (stuck_not_closed st). }
    rewrite (bool_decide_eq_true_2 _ Hne) in Hflag. subst b'.
    exists st'. split; [done|]. split; [done|].
    rewrite Heq. split.
    + intros s [Hs|Hs]%elem_of_app; [by apply Hk|].
      apply Hnew in Hs as [Hs _].
      apply infer_all_sound in Hs as (x & y & Hx & Hy & Hsub & ->).
      apply knotted_difference; auto.
    + split; [apply elem_of_app; by left|].
      split; [apply elem_of_app; by left|].
      exists a. apply elem_of_app. by left.
Qed.

Lemma stuck_closure fuel : ∀ st, stuck st → closure fuel (1, 1) st = Timeout.
Proof.
  induction fuel as [|fuel IH]; intros st Hst; simpl; [done|].
  destruct (stuck_pass st Hst) as (st' & -> & Hst'). by apply IH.
Qed.

End divergence.

(** ** Scenarios on concrete boards *)

Section scenarios.

Lemma observations_reachable ok h w fuel obs :
  (∀ st o, o ∈ obs → ok st (AddKnowledge o.1 o.2)) →
  ∀ st st',
    reachable_by ok h w st → observations fuel obs st = Done st' →
    reachable_by ok h w st'.
Proof.
  unfold observations. induction obs as [|o obs IH] using rev_ind;
    intros Hok st st' Hreach; simpl.
  - by intros [= <-].
  - rewrite foldl_app. simpl.
    destruct (foldl _ (Done st) obs) as [st1| |] eqn:Hfold; try done.
    unfold mbind, outcome_bind. intros Hexec.
    apply (reach_call ok h w st1 (AddKnowledge o.1 o.2) fuel).
    + eapply IH; [|exact Hreach|exact Hfold].
      intros st0 o' Ho'. apply (Hok st0), elem_of_app. by left.
    + apply (Hok st1), elem_of_app. right. by apply list_elem_of_singleton.
    + exact Hexec.
Qed.

(** C2 fails for contradictory observations: on a 3 by 3 board, after
    (0,0) was observed with count 1 and (1,1) with count 2, observing
    (1,1) again with count 5 starts a loop that never exits. *)
Lemma contradictory_observations_loop :
  ∃ st,
    observations 3 [((0, 0), 1); ((1, 1), 2)] (init 3 3) = Done st
    ∧ reachable_by any_call 3 3 st
    ∧ ∀ fuel, add_knowledge fuel (1, 1) 5 st = Timeout.
Proof.
  eexists. split; [vm_compute; reflexivity|]. split.
  - apply (observations_reachable any_call 3 3 3 [((0, 0), 1); ((1, 1), 2)]
             ltac:(done) (init 3 3)); [apply reach_init|vm_compute; reflexivity].
  - intros fuel. unfold add_knowledge. apply stuck_closure.
    match goal with |- stuck ?st0 => set (st := st0) end.
    assert (sentences st = [mkSentence inner 1; mkSentence ring 2;
                            mkSentence outer 1; mkSentence ring 5]) as Hs
      by (vm_compute; reflexivity).
    assert (knowledge st = [0; 1; 2; 3]%nat) as Hk by (vm_compute; reflexivity).
    assert (length (store st) = 4%nat) as Hl by (vm_compute; reflexivity).
    clearbody st. split.
    { split; rewrite Hk.
      - apply (bool_decide_unpack _). by vm_compute.
      - intros id Hin. rewrite Hl.
        repeat (apply elem_of_cons in Hin as [->|Hin]; [lia|]).
        by apply elem_of_nil in Hin. }
    rewrite Hs. split.
    { intros s Hin. unfold knotted.
      repeat (apply elem_of_cons in Hin as [->|Hin]); simpl.
      - left. split; [done|]. exists 0. lia.
      - right. right. by left.
      - right. left. split; [done|]. exists 0. lia.
      - right. right. by right.
      - by apply elem_of_nil in Hin. }
    split; [apply elem_of_cons; right; apply elem_of_cons; by left|].
    split; [do 3 (apply elem_of_cons; right); apply elem_of_cons; by left|].
    exists 1. apply elem_of_cons. by left.
Qed.

Lemma wf_example_kb : wf example_kb.
Proof.
  split; simpl.
  - apply (bool_decide_unpack _). by vm_compute.
  - intros id Hin.
    repeat (apply elem_of_cons in Hin as [->|Hin]; [lia|]).
    by apply elem_of_nil in Hin.
Defined.

(** C1: in the subset-inference half of a pass, every pair of sentences
    of the knowledge base with the cells of one strictly inside the
    cells of the other gives the sentence of the remaining cells with
    the difference of the counts, and that sentence is in the knowledge
    base afterwards; what is appended is exactly such sentences that
    were not there, each once, each with a non-empty cell set. From
    ({1,2,3}, 1) and ({1,2,3,4,5}, 2) the loop derives ({4,5}, 1). *)
Theorem subset_inference st flag :
  wf st →
  (∀ a b, a ∈ sentences st → b ∈ sentences st → cells a ⊂ cells b →
     mkSentence (cells b ∖ cells a) (count b - count a)
       ∈ sentences (infer (st, flag)).1)
  ∧ (∃ new,
       sentences (infer (st, flag)).1 = sentences st ++ new
       ∧ NoDup new
       ∧ ∀ s, s ∈ new →
           (s ∉ sentences st) ∧ cells s ≠ ∅
           ∧ ∃ a b, a ∈ sentences st ∧ b ∈ sentences st ∧ cells a ⊂ cells b
                    ∧ s = mkSentence (cells b ∖ cells a) (count b - count a))
  ∧ (∃ st', closure 2 (0, 0) example_kb = Done st'
            ∧ sentences st' = sentences example_kb
                              ++ [mkSentence {[cellno 4; cellno 5]} 1]).
Proof.
  intros Hwf.
  destruct (infer_spec st flag Hwf) as (new & Heq & Hall & Hnew & Hnd & _).
  split; [|split].
  - intros a b Ha Hb Hsub. apply Hall. by apply infer_all_complete.
  - exists new. split; [done|]. split; [done|].
    intros s Hs. destruct (Hnew s Hs) as [Hin Hnot].
    apply infer_all_sound in Hin as (a & b & Ha & Hb & Hsub & ->).
    split; [done|]. split; [by apply strict_difference_nonempty|]. eauto 10.
  - eexists. split; vm_compute; reflexivity.
Qed.

Lemma subset_inference_witness :
  mkSentence {[cellno 4; cellno 5]} 1 ∈ sentences (infer (example_kb, false)).1.
Proof.
  destruct (subset_inference example_kb false wf_example_kb) as [Hpairs _].
  set (a := mkSentence {[cellno 1; cellno 2; cellno 3]} 1).
  set (b := mkSentence {[cellno 1; cellno 2; cellno 3; cellno 4; cellno 5]} 2).
  assert (mkSentence {[cellno 4; cellno 5]} 1
          = mkSentence (cells b ∖ cells a) (count b - count a)) as ->
    by (vm_compute; reflexivity).
  apply (Hpairs a b).
  - apply elem_of_cons. by left.
  - apply elem_of_cons. right. apply elem_of_cons. by left.
  - apply (bool_decide_unpack _). by vm_compute.
Defined.

(** C6, as the engine keeps it: a sentence equal to one of the knowledge
    base is not appended, and neither appending step, of an observation
    or of the inferred sentences, makes two sentences equal when no two
    were equal before it. (Removing cells in place can.) *)
Theorem append_keeps_distinct st :
  wf st →
  (∀ flag s, s ∈ sentences st → add_inferred (st, flag) s = (st, flag))
  ∧ (∀ flag, NoDup (sentences st) → NoDup (sentences (infer (st, flag)).1))
  ∧ (∀ cell count,
       NoDup (Sentence.mark_safe cell <$> sentences st) →
       NoDup (sentences (observe cell count st))).
Proof.
  intros Hwf. split; [|split].
  - intros flag s Hs%contains_spec. unfold add_inferred. simpl. by rewrite Hs.
  - intros flag Hnd.
    destruct (infer_spec st flag Hwf) as (new & -> & _ & Hnew & Hnd' & _).
    apply NoDup_app. split; [done|]. split; [|done].
    intros s Hs Hs'. by apply Hnew in Hs' as [_ Hnot].
  - intros cell count Hnd. rewrite observe_sentences by done. cbv zeta.
    case_decide as Hc; [|done].
    apply NoDup_app. split; [done|]. split; [|apply NoDup_singleton].
    intros s Hs ->%list_elem_of_singleton. by destruct Hc.
Qed.

Lemma append_keeps_distinct_witness :
  NoDup (sentences (infer (example_kb, false)).1).
Proof.
  destruct (append_keeps_distinct example_kb wf_example_kb) as (_ & Hinfer & _).
  apply Hinfer. apply (bool_decide_unpack _). by vm_compute.
Defined.

(** C6 fails as stated: on a 2 by 3 board with its one mine at (1,1),
    the true observations of (0,0), (0,2) and (1,0) leave the sentence
    ({(0,1),(1,1)}, 1) twice in the knowledge base. *)
Lemma duplicates_after_observations :
  ∃ st,
    observations 5 [((0, 0), 1); ((0, 2), 1); ((1, 0), 1)] (init 2 3) = Done st
    ∧ reachable_by (truthful 2 3 {[ (1, 1) ]}) 2 3 st
    ∧ sentences st = [mkSentence {[ (0, 1); (1, 1) ]} 1;
                      mkSentence {[ (0, 1); (1, 1) ]} 1]
    ∧ ¬ NoDup (sentences st).
Proof.
  eexists. split; [vm_compute; reflexivity|].
  assert (∀ st o, o ∈ [((0, 0), 1); ((0, 2), 1); ((1, 0), 1)] →
            truthful 2 3 {[ (1, 1) ]} st (AddKnowledge o.1 o.2)) as Hok.
  { intros st o Hin.
    repeat (apply elem_of_cons in Hin as [->|Hin]);
      [..|by apply elem_of_nil in Hin]; simpl;
      (split; [apply (bool_decide_unpack _); by vm_compute|by vm_compute]). }
  split.
  - apply (observations_reachable _ 2 3 5 _ Hok (init 2 3));
      [apply reach_init|vm_compute; reflexivity].
  - match goal with |- sentences ?st0 = _ ∧ _ => set (st := st0) end.
    assert (sentences st = [mkSentence {[ (0, 1); (1, 1) ]} 1;
                            mkSentence {[ (0, 1); (1, 1) ]} 1]) as Hs
      by (vm_compute; reflexivity).
    clearbody st. split; [done|]. rewrite Hs.
    intros [Hnot _]%NoDup_cons. apply Hnot, elem_of_cons. by left.
Qed.

(** C4 fails as stated: on a 1 by 2 board, observing (0,0) with count 1
    makes (0,1) a known mine, and observing (0,1) then marks it safe. *)
Lemma safe_and_mine_after_observations :
  ∃ st,
    observations 5 [((0, 0), 1); ((0, 1), 0)] (init 1 2) = Done st
    ∧ reachable_by any_call 1 2 st
    ∧ safes st ∩ mines st = {[ (0, 1) ]}.
Proof.
  eexists. split; [vm_compute; reflexivity|]. split.
  - apply (observations_reachable any_call 1 2 5 [((0, 0), 1); ((0, 1), 0)]
             ltac:(done) (init 1 2)); [apply reach_init|vm_compute; reflexivity].
  - vm_compute. reflexivity.
Qed.

(** C5 fails as stated: on a 1 by 4 board, observing (0,3) with count 1
    makes (0,2) a known mine, and observing (0,1) with count 0 then
    leaves the sentence ({(0,0)}, -1). *)
Lemma negative_count_after_observations :
  ∃ st,
    observations 5 [((0, 3), 1); ((0, 1), 0)] (init 1 4) = Done st
    ∧ reachable_by any_call 1 4 st
    ∧ sentences st = [mkSentence {[ (0, 0) ]} (-1)]
    ∧ ¬ bounded st.
Proof.
  eexists. split; [vm_compute; reflexivity|]. split.
  - apply (observations_reachable any_call 1 4 5 [((0, 3), 1); ((0, 1), 0)]
             ltac:(done) (init 1 4)); [apply reach_init|vm_compute; reflexivity].
  - match goal with |- sentences ?st0 = _ ∧ _ => set (st := st0) end.
    assert (sentences st = [mkSentence {[ (0, 0) ]} (-1)]) as Hs
      by (vm_compute; reflexivity).
    clearbody st. split; [done|]. intros Hb.
    specialize (Hb (mkSentence {[ (0, 0) ]} (-1))). rewrite Hs in Hb.
    destruct Hb as [Hb _]; [apply elem_of_cons; by left|]. simpl in Hb. lia.
Qed.

(** C3 fails on the code: [make_random_move] has no exit for a board
    without a cell left to choose. On the 1 by 1 board whose cell has
    been observed, every cell is a move made, and the loop goes on
    drawing for ever, whatever the generator gives; and in no state does
    the function return [None]. *)
Theorem random_move_never_none :
  (∃ st,
     observations 2 [((0, 0), 0)] (init 1 1) = Done st
     ∧ (∀ c, (0 ≤ c.1 < height st) ∧ (0 ≤ c.2 < width st) →
             c ∈ moves_made st ∨ c ∈ mines st)
     ∧ ∀ fuel rng k, make_random_move fuel rng k st = Timeout)
  ∧ ∀ st fuel rng k, make_random_move fuel rng k st ≠ Done None.
Proof.
  split.
  - eexists. split; [vm_compute; reflexivity|].
    match goal with |- (∀ c, _ ∧ (_ ≤ _ < width ?st0) → _) ∧ _ =>
      set (st := st0) end.
    assert (height st = 1) as Hh by reflexivity.
    assert (width st = 1) as Hw by reflexivity.
    assert (moves_made st = {[ (0, 0) ]}) as Hmv by (vm_compute; reflexivity).
    clearbody st.
    assert (∀ c, (0 ≤ c.1 < height st) ∧ (0 ≤ c.2 < width st) →
                 c ∈ moves_made st ∨ c ∈ mines st) as Hall.
    { intros [i j]. rewrite Hh, Hw, Hmv. simpl. intros [Hi Hj].
      left. apply elem_of_singleton. f_equal; lia. }
    split; [done|]. intros fuel rng k.
    apply make_random_move_stuck; [lia|lia|done].
  - intros st fuel rng k Hnone.
    by apply make_random_move_Done in Hnone as (c & Hc & _).
Qed.

Lemma make_random_move_valid_witness :
  make_random_move 1 (λ _, 0) 0 (init 2 2) = Done (Some (0, 0))
  ∧ (0 ≤ 0 < height (init 2 2)) ∧ (0 ≤ 0 < width (init 2 2))
  ∧ ((0, 0) ∉ moves_made (init 2 2)) ∧ ((0, 0) ∉ mines (init 2 2)).
Proof.
  split; [vm_compute; reflexivity|].
  apply (make_random_move_valid 1 (λ _, 0) 0%nat (init 2 2) 0 0).
  vm_compute. reflexivity.
Defined.

Lemma add_knowledge_terminates_witness :
  ∃ st,
    exec 5 (AddKnowledge (0, 0) 1) (init 3 3) = Done st
    ∧ ∃ fuel st',
        add_knowledge fuel (0, 2) (nearby_mines 3 3 {[ (1, 1) ]} (0, 2)) st
        = Done st'.
Proof.
  eexists. split; [vm_compute; reflexivity|].
  apply (add_knowledge_terminates 3 3 {[ (1, 1) ]}).
  - apply (reach_call _ 3 3 (init 3 3) (AddKnowledge (0, 0) 1) 5).
    + apply reach_init.
    + split; [apply (bool_decide_unpack _); by vm_compute|by vm_compute].
    + vm_compute. reflexivity.
  - apply (bool_decide_unpack _). by vm_compute.
Defined.

Lemma safes_mines_disjoint_witness :
  ∃ st,
    exec 5 (AddKnowledge (0, 0) 1) (init 1 2) = Done st
    ∧ safes st ∩ mines st = ∅.
Proof.
  eexists. split; [vm_compute; reflexivity|].
  apply (safes_mines_disjoint 1 2).
  apply (reach_call _ 1 2 (init 1 2) (AddKnowledge (0, 0) 1) 5).
  - apply reach_init.
  - apply (bool_decide_unpack _). by vm_compute.
  - vm_compute. reflexivity.
Defined.

Lemma counts_within_bounds_witness :
  ∃ st,
    exec 5 (AddKnowledge (0, 0) 1) (init 2 3) = Done st
    ∧ bounded st.
Proof.
  eexists. split; [vm_compute; reflexivity|].
  apply (counts_within_bounds {[ (1, 1) ]} 2 3).
  apply (reach_call _ 2 3 (init 2 3) (AddKnowledge (0, 0) 1) 5).
  - apply reach_init.
  - split; [apply (bool_decide_unpack _); by vm_compute|by vm_compute].
  - vm_compute. reflexivity.
Defined.

Lemma observe_spec_witness :
  reachable_by any_call 3 3 (init 3 3)
  ∧ moves_made (observe (1, 1) 2 (init 3 3))
    = {[ (1, 1) ]} ∪ moves_made (init 3 3).
Proof.
  split; [apply reach_init|].
  destruct (observe_spec 3 3 (init 3 3) (1, 1) 2 (reach_init _ 3 3))
    as (_ & Hmoves & _).
  exact Hmoves.
Defined.

End scenarios.

(** ** What the engine knows is kept, and is true *)

Section knowledge_kept.
Implicit Types (st : MinesweeperAI) (s : Sentence) (c cell : Cell).

Lemma keeps_mark_each_mine st0 X acc :
  keeps st0 acc.1 → keeps st0 (mark_each mark_mine X acc).1.
Proof.
  intros Hk. apply mark_each_ind; [done|].
  intros st c _ (Hwf & Hm & Hs & Hmv & Hh & Hw).
  split; [by apply wf_mark_mine|]. simpl. split; [set_solver|]. done.
Qed.

Lemma keeps_mark_each_safe st0 X acc :
  keeps st0 acc.1 → keeps st0 (mark_each mark_safe X acc).1.
Proof.
  intros Hk. apply mark_each_ind; [done|].
  intros st c _ (Hwf & Hm & Hs & Hmv & Hh & Hw).
  split; [by apply wf_mark_safe|]. simpl. split; [done|]. split; [set_solver|].
  done.
Qed.

Lemma keeps_closure st0 fuel cell st st' :
  keeps st0 st → closure fuel cell st = Done st' → keeps st0 st'.
Proof.
  apply closure_inv.
  - intros st1 id (Hwf & Hrest) _ _. split; [by apply wf_strip|done].
  - intros st1 k1 id k2 (Hwf & Hrest) Hk _. split; [by eapply wf_drop|done].
  - intros st1 b id Hk _ _. by apply keeps_mark_each_mine.
  - intros st1 b id Hk _ _. by apply keeps_mark_each_safe.
  - intros st1 b (Hwf & Hm & Hs & Hmv & Hh & Hw).
    destruct (infer_fields st1 b Hwf) as (Hwf' & Hm' & Hs' & Hmv').
    destruct (shaped_infer (height st1) (width st1) st1 b) as (_ & Hh' & Hw');
      [done|].
    split; [done|]. rewrite Hm', Hs', Hmv', Hh', Hw'. done.
Qed.

Lemma keeps_observe cell count st :
  wf st →
  keeps (mark_safe cell (set_moves_made ({[cell]} ∪ moves_made st) st))
        (observe cell count st).
Proof.
  intros Hwf. unfold observe.
  set (st1 := mark_safe cell (set_moves_made _ st)).
  assert (wf st1) as Hwf1 by (apply wf_mark_safe; by destruct Hwf).
  destruct (scan_neighbours st1 cell count) as [count' neighbours].
  case_bool_decide; [|done].
  destruct (contains st1 _); simpl; [done|].
  split; [by apply wf_append|done].
Qed.

(** X1: [add_knowledge] only adds to what the engine knows: the known mines
    and known safe cells of before are still known, the observed cell is
    a move made and known safe, no other move is recorded and the
    dimensions stay. *)
Theorem add_knowledge_keeps h w st fuel cell count st' :
  reachable_by any_call h w st →
  add_knowledge fuel cell count st = Done st' →
  mines st ⊆ mines st'
  ∧ {[cell]} ∪ safes st ⊆ safes st'
  ∧ moves_made st' = {[cell]} ∪ moves_made st
  ∧ height st' = h ∧ width st' = w.
Proof.
  intros (Hwf & Hh & Hw)%reachable_shaped Hadd. unfold add_knowledge in Hadd.
  pose proof (keeps_closure _ _ _ _ _ (keeps_observe cell count st Hwf) Hadd)
    as (_ & Hm & Hs & Hmv & Hh' & Hw').
  simpl in *. rewrite Hh', Hw'. done.
Qed.

(** X2: Whatever calls were made, every move the engine has recorded is a
    cell it holds to be safe. *)
Theorem moves_made_are_safe h w st :
  reachable_by any_call h w st → moves_made st ⊆ safes st.
Proof.
  induction 1 as [|st c fuel st' Hreach IH _ Hexec]; [done|].
  destruct c as [cell|cell|cell count]; simpl in Hexec.
  - by injection Hexec as <-.
  - injection Hexec as <-. simpl. set_solver.
  - apply reachable_shaped in Hreach as (Hwf & _).
    unfold add_knowledge in Hexec.
    pose proof (keeps_closure _ _ _ _ _ (keeps_observe cell count st Hwf) Hexec)
      as (_ & _ & Hs & Hmv & _).
    simpl in *. rewrite Hmv. set_solver.
Qed.

(** X3: The engine's [mark_mine] and [mark_safe] record the cell and apply
    the sentence's method of the same name to every sentence of the
    knowledge base, each once, in place: order and number of sentences
    stay, and so do the other fields. *)
Theorem mark_propagates h w st cell :
  reachable_by any_call h w st →
  (mines (mark_mine cell st) = {[cell]} ∪ mines st
   ∧ safes (mark_mine cell st) = safes st
   ∧ moves_made (mark_mine cell st) = moves_made st
   ∧ sentences (mark_mine cell st) = Sentence.mark_mine cell <$> sentences st)
  ∧ (safes (mark_safe cell st) = {[cell]} ∪ safes st
     ∧ mines (mark_safe cell st) = mines st
     ∧ moves_made (mark_safe cell st) = moves_made st
     ∧ sentences (mark_safe cell st) = Sentence.mark_safe cell <$> sentences st).
Proof.
  intros (Hwf & _)%reachable_shaped.
  split; (split; [done|]); (split; [done|]); (split; [done|]).
  - by apply sentences_mark_mine.
  - by apply sentences_mark_safe.
Qed.

(** X4: [make_safe_move] gives a known safe cell that is not a move made,
    and [None] exactly when every known safe cell is a move made. *)
Theorem make_safe_move_spec st :
  match make_safe_move st with
  | Some c => c ∈ safes st ∧ c ∉ moves_made st
  | None => safes st ⊆ moves_made st
  end.
Proof.
  destruct (make_safe_move st) as [c|] eqn:Hm.
  - unfold make_safe_move in Hm. apply head_Some_elem_of in Hm.
    apply list_elem_of_filter in Hm as [Hn Hc]. by apply elem_of_elements in Hc.
  - by apply make_safe_move_None.
Qed.

(** X5: When every call told the truth about one board, every known mine is
    a mine of that board, no known safe cell is, every sentence counts
    the mines among its cells, and [make_safe_move] never gives a mine. *)
Theorem engine_sound h w board st :
  reachable_by (truthful h w board) h w st →
  mines st ⊆ board
  ∧ safes st ∩ board = ∅
  ∧ (∀ s, s ∈ sentences st → count s = Z.of_nat (size (cells s ∩ board)))
  ∧ ∀ c, make_safe_move st = Some c → c ∉ board.
Proof.
  intros (_ & Hm & Hs & Hholds)%reachable_sound.
  split; [done|]. split; [set_solver|]. split; [done|].
  intros c Hc. unfold make_safe_move in Hc. apply head_Some_elem_of in Hc.
  apply list_elem_of_filter in Hc as [_ Hc%elem_of_elements]. set_solver.
Qed.

End knowledge_kept.

(** ** The sentences speak of unresolved cells of the board *)

Section purging.
Implicit Types (st : MinesweeperAI) (s : Sentence) (c cell : Cell).

Lemma purged_mark_mine c st : purged st → purged (mark_mine c st).
Proof.
  intros (Hwf & Hs). split; [by apply wf_mark_mine|].
  intros s. rewrite sentences_mark_mine by done.
  intros (s0 & -> & Hin)%list_elem_of_fmap. rewrite cells_mark_mine.
  destruct (Hs s0 Hin) as [Hd Hb]. simpl. split; [set_solver|].
  intros x [Hx _]%elem_of_difference. by apply Hb.
Qed.

Lemma purged_mark_safe c st : purged st → purged (mark_safe c st).
Proof.
  intros (Hwf & Hs). split; [by apply wf_mark_safe|].
  intros s. rewrite sentences_mark_safe by done.
  intros (s0 & -> & Hin)%list_elem_of_fmap. rewrite cells_mark_safe.
  destruct (Hs s0 Hin) as [Hd Hb]. simpl. split; [set_solver|].
  intros x [Hx _]%elem_of_difference. by apply Hb.
Qed.

Lemma purged_closure fuel cell st st' :
  purged st → closure fuel cell st = Done st' → purged st'.
Proof.
  apply closure_inv.
  - intros st0 id (Hwf & Hs) _ _. split; [by apply wf_strip|].
    intros s' (s & Hin & [->| ->])%sentences_strip; [by apply Hs|].
    destruct (Hs s Hin) as [Hd Hb]. simpl in *. split; [set_solver|].
    intros x [Hx _]%elem_of_difference. by apply Hb.
  - intros st0 k1 id k2 (Hwf & Hs) Hk _. split; [by eapply wf_drop|].
    intros s Hin%(sentences_drop _ _ _ _ _ Hk). by apply Hs.
  - intros st0 b id Hp _ _. apply mark_each_ind; [done|].
    intros st1 c _ Hp1. by apply purged_mark_mine.
  - intros st0 b id Hp _ _. apply mark_each_ind; [done|].
    intros st1 c _ Hp1. by apply purged_mark_safe.
  - intros st0 b (Hwf & Hs).
    destruct (infer_fields st0 b Hwf) as (Hwf' & Hm & Hsf & _).
    destruct (shaped_infer (height st0) (width st0) st0 b) as (_ & Hh & Hw);
      [done|].
    split; [done|]. rewrite Hm, Hsf, Hh, Hw.
    intros s Hin.
    destruct (sentences_infer st0 b s Hwf Hin)
      as [Hin'|(a & b' & Ha & Hb & Hsub & ->)]; [by apply Hs|].
    destruct (Hs b' Hb) as [Hd Hbd]. simpl. split; [set_solver|].
    intros x [Hx _]%elem_of_difference. by apply Hbd.
Qed.

Lemma purged_observe cell count st : purged st → purged (observe cell count st).
Proof.
  intros Hp. unfold observe.
  set (st1 := mark_safe cell (set_moves_made _ st)).
  assert (purged st1) as Hp1.
  { apply purged_mark_safe. destruct Hp as (Hwf & Hs).
    split; [by destruct Hwf|done]. }
  rewrite scan_neighbours_spec.
  case_bool_decide; [|done].
  destruct (contains st1 _); simpl; [done|].
  destruct Hp1 as (Hwf1 & Hs1). split; [by apply wf_append|].
  intros s. rewrite sentences_append by done.
  intros [Hin| ->%list_elem_of_singleton]%elem_of_app; [by apply Hs1|].
  simpl. split; [set_solver|].
  intros x [Hx _]%elem_of_difference.
  apply elem_of_neighbourhood in Hx as (_ & _ & _ & Hi & Hj). by split.
Qed.

(** X6: Whatever calls were made, a cell that occurs in a sentence of the
    knowledge base is a cell of the board that is neither a known mine
    nor known safe. *)
Theorem sentences_unresolved h w st s c :
  reachable_by any_call h w st → s ∈ sentences st → c ∈ cells s →
  (c ∉ mines st) ∧ (c ∉ safes st) ∧ (0 ≤ c.1 < h) ∧ (0 ≤ c.2 < w).
Proof.
  intros Hreach Hs Hc.
  assert (purged st) as (_ & Hp).
  { clear Hs Hc. induction Hreach as [|st c0 fuel st' _ IH _ Hexec].
    - split; [apply shaped_init|]. intros s0 Hs0. by apply elem_of_nil in Hs0.
    - destruct c0 as [cell|cell|cell count]; simpl in Hexec.
      + injection Hexec as <-. by apply purged_mark_mine.
      + injection Hexec as <-. by apply purged_mark_safe.
      + eapply purged_closure; [|exact Hexec]. by apply purged_observe. }
  apply reachable_shaped in Hreach as (_ & <- & <-).
  destruct (Hp s Hs) as [Hd Hb]. destruct (Hb c Hc) as [Hi Hj].
  split; [set_solver|]. split; [set_solver|]. done.
Qed.

End purging.

(** ** What is left when add_knowledge returns *)

Section saturation.
Implicit Types (st : MinesweeperAI) (s : Sentence) (c cell : Cell).

Lemma quiet_known s :
  quiet s ↔
  cells s ≠ ∅ ∧ Sentence.known_mines s = ∅ ∧ Sentence.known_safes s = ∅.
Proof.
  unfold quiet, Sentence.known_mines, Sentence.known_safes.
  split; intros (Hne & H1 & H2); (split; [done|]).
  - by rewrite !bool_decide_eq_false_2.
  - split; intros Heq.
    + rewrite bool_decide_eq_true_2 in H2 by done. done.
    + rewrite bool_decide_eq_true_2 in H1 by done. done.
Qed.

Lemma snoc_eq_middle (pre k1 k2 : list nat) (id id' : nat) :
  pre ++ [id] = k1 ++ id' :: k2 → id' ∈ pre ∨ (k1 = pre ∧ k2 = []).
Proof.
  revert k1. induction pre as [|x pre IH]; intros k1 Heq.
  - destruct k1 as [|y k1]; simpl in Heq.
    + injection Heq as <- <-. by right.
    + injection Heq as _ Heq. by destruct k1.
  - destruct k1 as [|y k1]; simpl in Heq.
    + injection Heq as <- _. left. apply elem_of_cons. by left.
    + injection Heq as <- Heq. destruct (IH k1 Heq) as [Hin|[-> ->]].
      * left. apply elem_of_cons. by right.
      * by right.
Qed.

Lemma process_unfold cell id st b :
  process cell id (st, b)
  = let hit := bool_decide (cell ∈ cells (deref (store st) id)) in
    let st1 := if hit then strip cell id st else st in
    st2 ← (if bool_decide (cells (deref (store st1) id) = ∅)
           then k ← list_remove (store st1) (deref (store st1) id)
                                (knowledge st1);
                Done (set_knowledge k st1)
           else Done st1);
    let acc := mark_each mark_mine
                 (Sentence.known_mines (deref (store st2) id))
                 (st2, b || hit) in
    Done (mark_each mark_safe
            (Sentence.known_safes (deref (store acc.1) id)) acc).
Proof.
  unfold process. cbv zeta. case_bool_decide; [|by rewrite orb_false_r].
  by rewrite orb_true_r.
Qed.

Lemma process_flag_up cell id st b acc :
  process cell id (st, b) = Done acc →
  b = true ∨ cell ∈ cells (deref (store st) id) → acc.2 = true.
Proof.
  rewrite process_unfold. cbv zeta. intros Hp Hup.
  assert (b || bool_decide (cell ∈ cells (deref (store st) id)) = true) as Hb.
  { destruct Hup as [->|Hin]; [done|].
    by rewrite (bool_decide_eq_true_2 _ Hin), orb_true_r. }
  rewrite Hb in Hp.
  destruct (if bool_decide (cells _ = ∅) then _ else _) as [st2| |];
    unfold mbind, outcome_bind in Hp; try done.
  injection Hp as <-. by rewrite !mark_each_flag.
Qed.

(** One sentence of the first loop, when the flag is down afterwards:
    the flag was down, no sentence was touched, and the sentence either
    was empty and left the knowledge base or is quiet. *)
Lemma process_flag_down cell id st b st' pre post :
  knowledge st = pre ++ id :: post →
  (∀ x, x ∈ pre → cells (deref (store st) x) ≠ ∅) →
  process cell id (st, b) = Done (st', false) →
  b = false ∧ store st' = store st
  ∧ ((cells (deref (store st) id) = ∅ ∧ knowledge st' = pre ++ post)
     ∨ (quiet (deref (store st) id) ∧ knowledge st' = pre ++ id :: post)).
Proof.
  intros Hk Hpre Hp.
  assert (b = false ∧ cell ∉ cells (deref (store st) id)) as [-> Hcell].
  { split.
    - destruct b; [|done].
      by pose proof (process_flag_up _ _ _ _ _ Hp (or_introl eq_refl)).
    - intros Hin. by pose proof (process_flag_up _ _ _ _ _ Hp (or_intror Hin)). }
  rewrite process_unfold in Hp. cbv zeta in Hp.
  rewrite (bool_decide_eq_false_2 _ Hcell) in Hp. simpl in Hp.
  destruct (decide (cells (deref (store st) id) = ∅)) as [He|Hne].
  - rewrite (bool_decide_eq_true_2 _ He) in Hp.
    destruct (list_remove_prefix (store st) (deref (store st) id) pre id post eq_refl)
      as (k1 & id' & k2 & Heq & Hd & Hrm).
    rewrite Hk, Hrm in Hp. unfold mbind, outcome_bind in Hp. simpl in Hp.
    rewrite (known_mines_of_empty _ He), mark_each_empty in Hp. simpl in Hp.
    rewrite (known_safes_of_empty _ He), mark_each_empty in Hp.
    injection Hp as <-. split; [done|]. split; [done|]. left. split; [done|].
    simpl. destruct (snoc_eq_middle _ _ _ _ _ Heq) as [Hin|[-> ->]].
    + exfalso. apply (Hpre id' Hin). by rewrite Hd.
    + done.
  - rewrite (bool_decide_eq_false_2 _ Hne) in Hp.
    unfold mbind, outcome_bind in Hp. injection Hp as Hp.
    pose proof (f_equal snd Hp) as Hflag. simpl in Hflag.
    rewrite !mark_each_flag in Hflag. simpl in Hflag.
    apply orb_false_iff in Hflag as [Hm Hs].
    apply bool_decide_eq_false in Hm, Hs.
    assert (Sentence.known_mines (deref (store st) id) = ∅) as Hm'
      by (destruct (decide (Sentence.known_mines (deref (store st) id) = ∅)); done).
    rewrite Hm', mark_each_empty in Hp, Hs. simpl in Hp, Hs.
    assert (Sentence.known_safes (deref (store st) id) = ∅) as Hs'
      by (destruct (decide (Sentence.known_safes (deref (store st) id) = ∅)); done).
    rewrite Hs', mark_each_empty in Hp. injection Hp as <-.
    split; [done|]. split; [done|]. right. split; [|done].
    by apply quiet_known.
Qed.

Lemma process_all_flag_up cell copy : ∀ st st' b',
  process_all cell copy (st, true) = Done (st', b') → b' = true.
Proof.
  induction copy as [|id copy IH]; intros st st' b'.
  - simpl. by intros [= _ <-].
  - change (process_all cell (id :: copy) (st, true))
      with (process cell id (st, true) ≫= process_all cell copy).
    destruct (process cell id (st, true)) as [[st1 b1]| |] eqn:Hp; try done.
    apply process_flag_up in Hp; [|by left]. simpl in Hp. subst b1. apply IH.
Qed.

Lemma process_all_flag_down cell copy : ∀ st st' pre,
  knowledge st = pre ++ copy →
  (∀ x, x ∈ pre → quiet (deref (store st) x)) →
  process_all cell copy (st, false) = Done (st', false) →
  ∀ s, s ∈ sentences st' → quiet s.
Proof.
  induction copy as [|id copy IH]; intros st st' pre Hk Hpre.
  - simpl. intros [= <-] s (x & Hx & ->)%elem_of_sentences.
    apply Hpre. by rewrite Hk, app_nil_r in Hx.
  - change (process_all cell (id :: copy) (st, false))
      with (process cell id (st, false) ≫= process_all cell copy).
    destruct (process cell id (st, false)) as [[st1 b1]| |] eqn:Hp; try done.
    unfold mbind, outcome_bind. intros Hall.
    destruct b1; [by apply process_all_flag_up in Hall|].
    apply (process_flag_down _ _ _ _ _ pre copy Hk) in Hp
      as (_ & Hstore & [[He Hk1]|[Hq Hk1]]);
      [| |intros x Hx; by destruct (Hpre x Hx)].
    + apply (IH st1 st' pre Hk1); [|done]. rewrite Hstore. done.
    + apply (IH st1 st' (pre ++ [id])); [by rewrite Hk1, <-app_assoc| |done].
      rewrite Hstore. intros x [Hx| ->%list_elem_of_singleton]%elem_of_app; auto.
Qed.

Lemma pass_flag_down cell st st' :
  wf st → pass cell st = Done (st', false) → wf st' ∧ saturated st'.
Proof.
  intros Hwf. unfold pass.
  destruct (process_all cell (knowledge st) (st, false)) as [[st1 b1]| |] eqn:Hp;
    try done.
  unfold mbind, outcome_bind. intros [= Hinfer].
  assert (wf st1) as Hwf1.
  { destruct (pass_ind (λ acc, wf acc.1) cell) with (st := st)
      as (acc & Hp' & Hwf' & _); simpl; try done.
    - intros st0 b id H0 _ _. by apply wf_strip.
    - intros st0 b k1 id k2 H0 Hk _. by eapply wf_drop.
    - intros st0 b id H0 _ _. apply mark_each_ind; [done|].
      intros ? ? _ ?. by apply wf_mark_mine.
    - intros st0 b id H0 _ _. apply mark_each_ind; [done|].
      intros ? ? _ ?. by apply wf_mark_safe.
    - rewrite Hp in Hp'. by injection Hp' as <-. }
  destruct (infer_spec st1 b1 Hwf1) as (new & Heq & Hall & _ & _ & Hflag).
  destruct (infer_fields st1 b1 Hwf1) as (Hwf' & _).
  rewrite Hinfer in Heq, Hall, Hflag, Hwf'. simpl in *.
  symmetry in Hflag.
  apply orb_false_iff in Hflag as [-> Hnew]. apply bool_decide_eq_false in Hnew.
  assert (new = []) as -> by (by destruct new; [|exfalso; apply Hnew]).
  rewrite app_nil_r in Heq. split; [done|]. split.
  - rewrite Heq.
    apply (process_all_flag_down cell (knowledge st) st st1 []); [done| |done].
    by intros x ?%elem_of_nil.
  - intros a b Ha Hb Hsub. rewrite Heq in Ha, Hb. apply Hall.
    by apply infer_all_complete.
Qed.

Lemma wf_pass cell st acc : wf st → pass cell st = Done acc → wf acc.1.
Proof.
  intros Hwf Hp.
  destruct (pass_inv wf cell) with (st := st) as (acc' & Hp' & Hwf'); try done.
  - intros st0 id H0 _ _. by apply wf_strip.
  - intros st0 k1 id k2 H0 Hk _. by eapply wf_drop.
  - intros st0 b id H0 _ _. apply mark_each_ind; [done|].
    intros ? ? _ ?. by apply wf_mark_mine.
  - intros st0 b id H0 _ _. apply mark_each_ind; [done|].
    intros ? ? _ ?. by apply wf_mark_safe.
  - intros st0 b H0. by destruct (infer_fields st0 b H0).
  - congruence.
Qed.

Lemma closure_saturated fuel cell : ∀ st st',
  wf st → closure fuel cell st = Done st' → saturated st'.
Proof.
  induction fuel as [|fuel IH]; intros st st' Hwf; simpl; [done|].
  destruct (pass cell st) as [[st1 b1]| |] eqn:Hp; try done.
  destruct b1.
  - apply IH. by apply (wf_pass _ _ _ Hwf Hp).
  - intros [= <-]. by apply (pass_flag_down cell st).
Qed.

(** X7: When [add_knowledge] returns, the knowledge base is at rest: it has
    no sentence without cells, no sentence whose count is 0 or the
    number of its cells, and for every two sentences with the cells of
    one strictly inside the cells of the other it holds the sentence of
    the difference. *)
Theorem add_knowledge_saturates h w st fuel cell n st' :
  reachable_by any_call h w st →
  add_knowledge fuel cell n st = Done st' →
  (∀ s, s ∈ sentences st' →
        cells s ≠ ∅ ∧ count s ≠ 0 ∧ count s ≠ Z.of_nat (size (cells s)))
  ∧ ∀ a b, a ∈ sentences st' → b ∈ sentences st' → cells a ⊂ cells b →
      mkSentence (cells b ∖ cells a) (count b - count a) ∈ sentences st'.
Proof.
  intros Hreach Hadd. unfold add_knowledge in Hadd.
  apply (closure_saturated _ _ _ _) in Hadd; [exact Hadd|].
  apply (shaped_observe h w). by apply reachable_shaped in Hreach.
Qed.

End saturation.

(** ** make_random_move: what it does besides returning a valid cell *)

Section random_move_more.
Implicit Types (st : MinesweeperAI) (rng : nat → Z) (c : Cell).

Lemma draw_total st rng k :
  0 < height st → 0 < width st → ∃ c, draw st rng k = Done c.
Proof.
  intros Hh Hw. unfold draw, randint.
  rewrite !bool_decide_eq_true_2 by lia. unfold mbind, outcome_bind. eauto.
Qed.

(** X8: On a board with cells, as soon as the generator draws a cell that
    is neither a move made nor a known mine, [make_random_move]
    returns. *)
Theorem make_random_move_returns rng st n : ∀ k c,
  0 < height st → 0 < width st →
  draw st rng (k + 2 * n) = Done c →
  c ∉ moves_made st → c ∉ mines st →
  ∃ fuel c', make_random_move fuel rng k st = Done (Some c').
Proof.
  induction (lt_wf n) as [n _ IH]. intros k c Hh Hw Hd Hmv Hm.
  destruct (draw_total st rng k Hh Hw) as [c0 Hd0].
  destruct (decide (c0 ∈ moves_made st ∨ c0 ∈ mines st)) as [Hbad0|Hgood0].
  - destruct n as [|n].
    { rewrite Nat.add_0_r in Hd. rewrite Hd in Hd0. injection Hd0 as <-.
      tauto. }
    destruct (draw_total st rng (2 + k) Hh Hw) as [c1 Hd1].
    destruct (decide ((c1 ∉ moves_made st) ∧ (c1 ∉ mines st)))
      as [Hgood1|Hbad1].
    + exists 1%nat, c1. simpl. rewrite Hd0. unfold mbind, outcome_bind.
      rewrite (bool_decide_eq_true_2 _ Hbad0). simpl in Hd1. rewrite Hd1.
      by rewrite (bool_decide_eq_true_2 _ Hgood1).
    + destruct n as [|n].
      { replace (k + 2 * 1)%nat with (2 + k)%nat in Hd by lia.
        rewrite Hd in Hd1. injection Hd1 as <-. tauto. }
      destruct (IH n ltac:(lia) (4 + k)%nat c) as (fuel & c' & Hret);
        [done|done| |done|done|].
      { by replace (4 + k + 2 * n)%nat with (k + 2 * S (S n))%nat by lia. }
      exists (S fuel), c'. simpl. rewrite Hd0. unfold mbind, outcome_bind.
      rewrite (bool_decide_eq_true_2 _ Hbad0). simpl in Hd1. rewrite Hd1.
      by rewrite (bool_decide_eq_false_2 _ Hbad1).
  - exists 1%nat, c0. simpl. rewrite Hd0. unfold mbind, outcome_bind.
    rewrite (bool_decide_eq_false_2 _ Hgood0).
    rewrite bool_decide_eq_true_2 by tauto. done.
Qed.

(** X9: On a board without cells (no rows or no columns)
    [make_random_move] raises [ValueError], from [random.randint]. *)
Theorem make_random_move_empty_board fuel rng k st :
  height st ≤ 0 ∨ width st ≤ 0 →
  make_random_move (S fuel) rng k st = Raised ValueError.
Proof.
  intros Hdim. simpl.
  assert (draw st rng k = Raised ValueError) as ->; [|done].
  unfold draw, randint. destruct (decide (0 ≤ height st - 1)) as [Hh|Hh].
  - rewrite (bool_decide_eq_true_2 _ Hh). unfold mbind, outcome_bind.
    by rewrite bool_decide_eq_false_2 by lia.
  - by rewrite (bool_decide_eq_false_2 _ Hh).
Qed.

End random_move_more.

(** ** The game *)

Section game.
Implicit Types (g : Minesweeper.game) (cell c : Cell).

Lemma index_in_range (len : nat) i :
  0 ≤ i < Z.of_nat len → Minesweeper.index len i = Some (Z.to_nat i).
Proof. intros Hi. unfold Minesweeper.index. by rewrite bool_decide_eq_true_2. Qed.

Lemma index_negative (len : nat) i :
  - Z.of_nat len ≤ i < 0 →
  Minesweeper.index len i = Minesweeper.index len (Z.of_nat len + i).
Proof.
  intros Hi. unfold Minesweeper.index.
  rewrite bool_decide_eq_false_2 by lia. rewrite bool_decide_eq_true_2 by lia.
  by rewrite (bool_decide_eq_true_2 (0 ≤ _ < _)) by lia.
Qed.

Lemma index_out_of_range (len : nat) i :
  i < - Z.of_nat len ∨ Z.of_nat len ≤ i → Minesweeper.index len i = None.
Proof.
  intros Hi. unfold Minesweeper.index. by rewrite !bool_decide_eq_false_2 by lia.
Qed.

Lemma getitem_in_range {A} (l : list A) i :
  0 ≤ i < Z.of_nat (length l) →
  ∃ x, l !! Z.to_nat i = Some x ∧ Minesweeper.getitem l i = Minesweeper.Returned x.
Proof.
  intros Hi. destruct (lookup_lt_is_Some_2 l (Z.to_nat i)) as [x Hx]; [lia|].
  exists x. split; [done|]. unfold Minesweeper.getitem.
  rewrite index_in_range by done. simpl. by rewrite Hx.
Qed.

Lemma getitem_cases {A} (l : list A) i :
  (∃ x, x ∈ l ∧ Minesweeper.getitem l i = Minesweeper.Returned x)
  ∨ Minesweeper.getitem l i = Minesweeper.Raises Minesweeper.IndexError.
Proof.
  unfold Minesweeper.getitem.
  destruct (Minesweeper.index (length l) i) as [k|]; simpl; [|by right].
  destruct (l !! k) as [x|] eqn:Hk; [|by right].
  left. exists x. split; [|done]. by apply list_elem_of_lookup_2 with k.
Qed.

Lemma getitem_negative {A} (l : list A) i :
  - Z.of_nat (length l) ≤ i < 0 →
  Minesweeper.getitem l i = Minesweeper.getitem l (Z.of_nat (length l) + i).
Proof. intros Hi. unfold Minesweeper.getitem. by rewrite index_negative. Qed.

Lemma getitem_out_of_range {A} (l : list A) i :
  i < - Z.of_nat (length l) ∨ Z.of_nat (length l) ≤ i →
  Minesweeper.getitem l i = Minesweeper.Raises Minesweeper.IndexError.
Proof. intros Hi. unfold Minesweeper.getitem. by rewrite index_out_of_range. Qed.

Lemma setitem_in_range {A} (l : list A) i x :
  0 ≤ i < Z.of_nat (length l) →
  Minesweeper.setitem l i x = Minesweeper.Returned (<[Z.to_nat i := x]> l).
Proof. intros Hi. unfold Minesweeper.setitem. by rewrite index_in_range. Qed.

Lemma laid_out_row g i :
  Minesweeper.laid_out g → (0 ≤ i < Minesweeper.height g) →
  ∃ row, Minesweeper.board g !! Z.to_nat i = Some row
         ∧ length row = Z.to_nat (Minesweeper.width g)
         ∧ Minesweeper.getitem (Minesweeper.board g) i = Minesweeper.Returned row.
Proof.
  intros (Hlen & Hrows & _) Hi.
  destruct (getitem_in_range (Minesweeper.board g) i) as (row & Hrow & Hget);
    [lia|].
  exists row. split; [done|]. split; [|done].
  by apply Hrows, list_elem_of_lookup_2 with (Z.to_nat i).
Qed.

(** Reading a cell of the board of a laid-out game. *)
Lemma laid_out_read g i j :
  Minesweeper.laid_out g →
  (0 ≤ i < Minesweeper.height g) → (0 ≤ j < Minesweeper.width g) →
  ∃ row, Minesweeper.board g !! Z.to_nat i = Some row
         ∧ length row = Z.to_nat (Minesweeper.width g)
         ∧ Minesweeper.getitem (Minesweeper.board g) i = Minesweeper.Returned row
         ∧ Minesweeper.getitem row j
           = Minesweeper.Returned (bool_decide ((i, j) ∈ Minesweeper.mines g)).
Proof.
  intros Hlaid Hi Hj.
  destruct (laid_out_row g i Hlaid Hi) as (row & Hrow & Hlen & Hget).
  exists row. split; [done|]. split; [done|]. split; [done|].
  destruct (getitem_in_range row j) as (b & Hb & ->); [lia|].
  destruct Hlaid as (_ & _ & Hcells & _).
  specialize (Hcells i j Hi Hj). rewrite Hrow in Hcells. simpl in Hcells.
  congruence.
Qed.

Lemma laid_out_empty h w :
  Minesweeper.laid_out
    (Minesweeper.mkGame h w ∅ (Minesweeper.empty_board h w) ∅).
Proof.
  unfold Minesweeper.laid_out, Minesweeper.empty_board. simpl.
  split; [by rewrite length_fmap, length_seqZ|]. split; [|split].
  - intros row (x & -> & _)%list_elem_of_fmap.
    by rewrite length_fmap, length_seqZ.
  - intros i j Hi Hj. rewrite list_lookup_fmap.
    rewrite (lookup_seqZ_lt 0 h (Z.to_nat i)) by lia. simpl.
    rewrite list_lookup_fmap, (lookup_seqZ_lt 0 w (Z.to_nat j)) by lia.
    simpl. by rewrite bool_decide_eq_false_2 by set_solver.
  - intros c Hc. by apply not_elem_of_empty in Hc.
Qed.

(** Laying a mine on a cell of the board keeps the game laid out. *)
Lemma laid_out_put g i j row :
  Minesweeper.laid_out g →
  (0 ≤ i < Minesweeper.height g) → (0 ≤ j < Minesweeper.width g) →
  Minesweeper.board g !! Z.to_nat i = Some row →
  Minesweeper.laid_out
    (Minesweeper.mkGame (Minesweeper.height g) (Minesweeper.width g)
       ({[ (i, j) ]} ∪ Minesweeper.mines g)
       (<[Z.to_nat i := <[Z.to_nat j := true]> row]> (Minesweeper.board g))
       (Minesweeper.mines_found g)).
Proof.
  intros (Hlen & Hrows & Hcells & Hmines) Hi Hj Hrow.
  unfold Minesweeper.laid_out. simpl.
  assert (length row = Z.to_nat (Minesweeper.width g)) as Hrowlen
    by (by apply Hrows, list_elem_of_lookup_2 with (Z.to_nat i)).
  split; [by rewrite length_insert|]. split; [|split].
  - intros r [k Hk]%list_elem_of_lookup.
    destruct (decide (k = Z.to_nat i)) as [->|Hne].
    + rewrite list_lookup_insert_eq in Hk by lia. injection Hk as <-.
      by rewrite length_insert.
    + rewrite list_lookup_insert_ne in Hk by done.
      by apply Hrows, list_elem_of_lookup_2 with k.
  - intros i' j' Hi' Hj'. specialize (Hcells i' j' Hi' Hj').
    destruct (decide (i' = i)) as [->|Hne].
    + rewrite list_lookup_insert_eq by lia. simpl.
      rewrite Hrow in Hcells. simpl in Hcells.
      destruct (decide (j' = j)) as [->|Hnej].
      * rewrite list_lookup_insert_eq by lia.
        by rewrite bool_decide_eq_true_2 by set_solver.
      * rewrite list_lookup_insert_ne by lia. rewrite Hcells. f_equal.
        apply bool_decide_ext. set_solver.
    + rewrite list_lookup_insert_ne by lia. rewrite Hcells. f_equal.
      apply bool_decide_ext. set_solver.
  - intros c [->%elem_of_singleton|Hc]%elem_of_union; [done|by apply Hmines].
Qed.

(** One turn of the loop of [__init__] on a laid-out game with cells:
    no exception, and the game stays laid out. *)
Lemma lay_step fuel rng k n g :
  Minesweeper.laid_out g →
  0 < Minesweeper.height g → 0 < Minesweeper.width g →
  Z.of_nat (size (Minesweeper.mines g)) ≠ n →
  ∃ g1,
    Minesweeper.lay (S fuel) rng k n g = Minesweeper.lay fuel rng (2 + k) n g1
    ∧ Minesweeper.laid_out g1
    ∧ Minesweeper.height g1 = Minesweeper.height g
    ∧ Minesweeper.width g1 = Minesweeper.width g
    ∧ Minesweeper.mines g ⊆ Minesweeper.mines g1
    ∧ Minesweeper.mines_found g1 = Minesweeper.mines_found g.
Proof.
  intros Hlaid Hh Hw Hn.
  set (i := rng k `mod` Minesweeper.height g).
  set (j := rng (S k) `mod` Minesweeper.width g).
  assert (0 ≤ i < Minesweeper.height g) as Hi by (apply Z.mod_pos_bound; lia).
  assert (0 ≤ j < Minesweeper.width g) as Hj by (apply Z.mod_pos_bound; lia).
  destruct (laid_out_read g i j Hlaid Hi Hj)
    as (row & Hrow & Hrowlen & Hget & Hgetj).
  assert (Minesweeper.lay (S fuel) rng k n g
          = if bool_decide ((i, j) ∈ Minesweeper.mines g)
            then Minesweeper.lay fuel rng (2 + k) n g
            else Minesweeper.lay fuel rng (2 + k) n
                   (Minesweeper.mkGame (Minesweeper.height g) (Minesweeper.width g)
                      ({[ (i, j) ]} ∪ Minesweeper.mines g)
                      (<[Z.to_nat i := <[Z.to_nat j := true]> row]>
                         (Minesweeper.board g))
                      (Minesweeper.mines_found g))) as Hstep.
  { simpl. rewrite (bool_decide_eq_true_2 _ Hn).
    unfold Minesweeper.randrange. rewrite !bool_decide_eq_true_2 by lia.
    unfold mbind, Minesweeper.run_bind. fold i j. rewrite Hget, Hgetj.
    destruct (bool_decide ((i, j) ∈ Minesweeper.mines g)); simpl; [done|].
    rewrite setitem_in_range by lia.
    destruct Hlaid as (Hlen & _). by rewrite setitem_in_range by lia. }
  rewrite Hstep. case_bool_decide.
  - exists g. done.
  - eexists. split; [done|]. split; [by apply laid_out_put|]. simpl.
    split; [done|]. split; [done|]. split; [set_solver|done].
Qed.

Lemma lay_empty_board fuel rng k n g :
  Z.of_nat (size (Minesweeper.mines g)) ≠ n →
  Minesweeper.height g ≤ 0 ∨ Minesweeper.width g ≤ 0 →
  Minesweeper.lay (S fuel) rng k n g = Minesweeper.Raises Minesweeper.ValueError.
Proof.
  intros Hn Hdim. simpl. rewrite (bool_decide_eq_true_2 _ Hn).
  unfold Minesweeper.randrange.
  destruct (decide (0 < Minesweeper.height g)) as [Hh|Hh].
  - rewrite (bool_decide_eq_true_2 _ Hh).
    by rewrite bool_decide_eq_false_2 by lia.
  - by rewrite (bool_decide_eq_false_2 _ Hh).
Qed.

Lemma lay_Returned fuel : ∀ rng k n g g',
  Minesweeper.laid_out g →
  Minesweeper.lay fuel rng k n g = Minesweeper.Returned g' →
  Minesweeper.laid_out g'
  ∧ Z.of_nat (size (Minesweeper.mines g')) = n
  ∧ Minesweeper.height g' = Minesweeper.height g
  ∧ Minesweeper.width g' = Minesweeper.width g
  ∧ Minesweeper.mines_found g' = Minesweeper.mines_found g.
Proof.
  induction fuel as [|fuel IH]; intros rng k n g g' Hlaid.
  - simpl. case_bool_decide as Hn; [done|]. intros [= <-].
    split; [done|]. split; [|done].
    by destruct (decide (Z.of_nat (size (Minesweeper.mines g)) = n)).
  - destruct (decide (Z.of_nat (size (Minesweeper.mines g)) = n)) as [Hn|Hn].
    { simpl. rewrite bool_decide_eq_false_2 by (by intros []).
      intros [= <-]. done. }
    destruct (decide (0 < Minesweeper.height g)) as [Hh|Hh]; cycle 1.
    { by rewrite lay_empty_board by (done || lia). }
    destruct (decide (0 < Minesweeper.width g)) as [Hw|Hw]; cycle 1.
    { by rewrite lay_empty_board by (done || lia). }
    destruct (lay_step fuel rng k n g Hlaid Hh Hw Hn)
      as (g1 & -> & Hlaid1 & Hh1 & Hw1 & _ & Hmf1).
    intros Hlay. destruct (IH _ _ _ _ _ Hlaid1 Hlay) as (? & ? & ? & ? & ?).
    split; [done|]. split; [done|]. split; [congruence|].
    split; congruence.
Qed.

(** X10: When [Minesweeper.__init__] returns, the game has the dimensions it
    was asked for and exactly the number of mines it was asked for, all
    on the board; the board has [height] rows of [width] cells and
    [board[i][j]] is true exactly for the mines; no mine is found yet,
    so the game is won only if it was asked for no mine. *)
Theorem init_lays_the_mines fuel rng h w n g :
  Minesweeper.init fuel rng h w n = Minesweeper.Returned g →
  Minesweeper.height g = h ∧ Minesweeper.width g = w
  ∧ Z.of_nat (size (Minesweeper.mines g)) = n
  ∧ (∀ c, c ∈ Minesweeper.mines g → (0 ≤ c.1 < h) ∧ (0 ≤ c.2 < w))
  ∧ length (Minesweeper.board g) = Z.to_nat h
  ∧ (∀ row, row ∈ Minesweeper.board g → length row = Z.to_nat w)
  ∧ (∀ i j, (0 ≤ i < h) → (0 ≤ j < w) →
       Minesweeper.is_mine g (i, j)
       = Minesweeper.Returned (bool_decide ((i, j) ∈ Minesweeper.mines g)))
  ∧ Minesweeper.mines_found g = ∅
  ∧ Minesweeper.won g = bool_decide (n = 0).
Proof.
  unfold Minesweeper.init.
  destruct (Minesweeper.lay fuel rng 0 n _) as [g0| |] eqn:Hlay;
    unfold mbind, Minesweeper.run_bind; try done.
  intros [= <-].
  destruct (lay_Returned _ _ _ _ _ _ (laid_out_empty h w) Hlay)
    as (Hlaid & Hsize & Hh & Hw & _). simpl in Hh, Hw.
  pose proof Hlaid as (Hlen & Hrows & Hcells & Hmines).
  rewrite Hh in Hlen, Hmines. rewrite Hw in Hrows, Hmines. simpl.
  split; [done|]. split; [done|]. split; [done|]. split; [done|].
  split; [done|]. split; [done|]. split.
  - intros i j Hi Hj. unfold Minesweeper.is_mine. simpl.
    destruct (laid_out_read g0 i j Hlaid) as (row & _ & _ & -> & Hget);
      [lia|lia|].
    done.
  - split; [done|]. unfold Minesweeper.won. simpl.
    apply bool_decide_ext. rewrite <-Hsize. split.
    + intros <-. by rewrite size_empty.
    + intros Hz. symmetry. apply leibniz_equiv, size_empty_iff. lia.
Qed.

Lemma init_laid_out fuel rng h w n g :
  Minesweeper.init fuel rng h w n = Minesweeper.Returned g →
  Minesweeper.laid_out g ∧ Minesweeper.height g = h ∧ Minesweeper.width g = w.
Proof.
  unfold Minesweeper.init.
  destruct (Minesweeper.lay fuel rng 0 n _) as [g0| |] eqn:Hlay;
    unfold mbind, Minesweeper.run_bind; try done.
  intros [= <-].
  by destruct (lay_Returned _ _ _ _ _ _ (laid_out_empty h w) Hlay)
    as (Hlaid & _ & Hh & Hw & _).
Qed.

Lemma length_bind_const {A B} (f : A → list B) (m : nat) (l : list A) :
  (∀ x, length (f x) = m) → length (l ≫= f) = (length l * m)%nat.
Proof.
  intros Hf. induction l as [|x l IH]; [done|].
  change ((x :: l) ≫= f) with (f x ++ (l ≫= f)).
  rewrite length_app, Hf, IH. simpl. lia.
Qed.

Lemma size_cells_le (l : list Cell) :
  (size (list_to_set l : gset Cell) ≤ length l)%nat.
Proof.
  induction l as [|x l IH].
  - change (list_to_set []) with (∅ : gset Cell). rewrite size_empty. simpl. lia.
  - rewrite list_to_set_cons. simpl length.
    rewrite size_union_alt, size_singleton.
    assert (size (list_to_set l ∖ {[x]} : gset Cell)
            ≤ size (list_to_set l : gset Cell))%nat
      by (apply subseteq_size; set_solver).
    lia.
Qed.

(** A laid-out game has no more mines than the board has cells. *)
Lemma laid_out_capacity g :
  Minesweeper.laid_out g →
  0 ≤ Minesweeper.height g → 0 ≤ Minesweeper.width g →
  Z.of_nat (size (Minesweeper.mines g))
  ≤ Minesweeper.height g * Minesweeper.width g.
Proof.
  intros (_ & _ & _ & Hmines) Hh Hw.
  set (grid := i ← seqZ 0 (Minesweeper.height g);
               j ← seqZ 0 (Minesweeper.width g); [(i, j)]).
  assert (Minesweeper.mines g ⊆ list_to_set grid) as Hsub.
  { intros [i j] Hc. destruct (Hmines _ Hc) as [Hi Hj]. simpl in Hi, Hj.
    apply elem_of_list_to_set, list_elem_of_bind. exists i.
    split; [|apply elem_of_seqZ; lia].
    apply list_elem_of_bind. exists j. split; [|apply elem_of_seqZ; lia].
    by apply list_elem_of_singleton. }
  apply subseteq_size in Hsub. pose proof (size_cells_le grid) as Hle.
  assert (length grid = (Z.to_nat (Minesweeper.height g)
                         * Z.to_nat (Minesweeper.width g))%nat) as Hlen.
  { subst grid.
    rewrite (length_bind_const _ (Z.to_nat (Minesweeper.width g))).
    - by rewrite length_seqZ.
    - intros i. rewrite (length_bind_const _ 1%nat) by done.
      rewrite length_seqZ. lia. }
  nia.
Qed.

Lemma lay_never_returns n fuel : ∀ rng k g,
  Minesweeper.laid_out g →
  0 < Minesweeper.height g → 0 < Minesweeper.width g →
  n < 0 ∨ Minesweeper.height g * Minesweeper.width g < n →
  Minesweeper.lay fuel rng k n g = Minesweeper.OutOfFuel.
Proof.
  induction fuel as [|fuel IH]; intros rng k g Hlaid Hh Hw Hn.
  - simpl. rewrite bool_decide_eq_true_2; [done|].
    pose proof (laid_out_capacity g Hlaid). lia.
  - destruct (lay_step fuel rng k n g Hlaid Hh Hw)
      as (g1 & -> & Hlaid1 & Hh1 & Hw1 & _).
    { pose proof (laid_out_capacity g Hlaid). lia. }
    apply IH; [done|lia|lia|]. by rewrite Hh1, Hw1.
Qed.

(** X11: Asked for no mine, [__init__] returns at once, with an empty board
    of the dimensions given, also when these are not positive; asked
    for mines on a board without rows or without columns, it raises
    [ValueError], from [random.randrange]. *)
Theorem init_without_mines_or_cells fuel rng h w n :
  (n = 0 →
   Minesweeper.init fuel rng h w n
   = Minesweeper.Returned
       (Minesweeper.mkGame h w ∅ (Minesweeper.empty_board h w) ∅))
  ∧ (n ≠ 0 → h ≤ 0 ∨ w ≤ 0 →
     Minesweeper.init (S fuel) rng h w n
     = Minesweeper.Raises Minesweeper.ValueError).
Proof.
  split.
  - intros ->. unfold Minesweeper.init. by destruct fuel.
  - intros Hn Hdim. unfold Minesweeper.init.
    rewrite lay_empty_board; [done| |done].
    change (Z.of_nat (size (∅ : gset Cell)) ≠ n). rewrite size_empty. lia.
Qed.

(** X12: Asked for a negative number of mines, or for more mines than the
    board has cells, [__init__] never returns: its loop goes on drawing
    cells for ever, whatever the generator gives. *)
Theorem init_never_returns fuel rng h w n :
  0 < h → 0 < w → n < 0 ∨ h * w < n →
  Minesweeper.init fuel rng h w n = Minesweeper.OutOfFuel.
Proof.
  intros Hh Hw Hn. unfold Minesweeper.init.
  by rewrite lay_never_returns by (done || apply laid_out_empty).
Qed.

(** X13: [is_mine] on a laid-out game: for a cell of the board it tells
    whether the cell is a mine; a negative row or column index counts
    from the end, as Python lists do; any other index raises
    [IndexError]. *)
Theorem is_mine_indexing g i j :
  Minesweeper.laid_out g →
  let h := Minesweeper.height g in
  let w := Minesweeper.width g in
  ((0 ≤ i < h) → (0 ≤ j < w) →
   Minesweeper.is_mine g (i, j)
   = Minesweeper.Returned (bool_decide ((i, j) ∈ Minesweeper.mines g)))
  ∧ ((- h ≤ i < 0) →
     Minesweeper.is_mine g (i, j) = Minesweeper.is_mine g (h + i, j))
  ∧ ((- w ≤ j < 0) →
     Minesweeper.is_mine g (i, j) = Minesweeper.is_mine g (i, w + j))
  ∧ (i < - h ∨ h ≤ i ∨ j < - w ∨ w ≤ j →
     Minesweeper.is_mine g (i, j) = Minesweeper.Raises Minesweeper.IndexError).
Proof.
  intros Hlaid h w. pose proof Hlaid as (Hlen & Hrows & _).
  unfold Minesweeper.is_mine. simpl. split; [|split; [|split]].
  - intros Hi Hj.
    destruct (laid_out_read g i j Hlaid Hi Hj) as (row & _ & _ & -> & Hget).
    exact Hget.
  - intros Hi. rewrite getitem_negative by lia.
    by replace (Z.of_nat (length (Minesweeper.board g)) + i) with (h + i) by lia.
  - intros Hj.
    destruct (getitem_cases (Minesweeper.board g) i) as [(row & Hrow & ->)| ->];
      [|done].
    unfold mbind, Minesweeper.run_bind.
    apply Hrows in Hrow. rewrite getitem_negative by lia.
    by replace (Z.of_nat (length row) + j) with (w + j) by lia.
  - intros Hout.
    destruct (getitem_cases (Minesweeper.board g) i) as [(row & Hrow & Hget)| ->];
      [|done].
    destruct (decide (i < - h ∨ h ≤ i)) as [Hi|Hi].
    { rewrite getitem_out_of_range by lia. done. }
    rewrite Hget. unfold mbind, Minesweeper.run_bind.
    apply Hrows in Hrow. rewrite getitem_out_of_range by lia. done.
Qed.

Lemma foldl_Returned {A B} (f : Minesweeper.run A → B → Minesweeper.run A)
    (p : A → B → A) (l : list B) :
  (∀ a x, x ∈ l → f (Minesweeper.Returned a) x = Minesweeper.Returned (p a x)) →
  ∀ a, foldl f (Minesweeper.Returned a) l = Minesweeper.Returned (foldl p a l).
Proof.
  induction l as [|x l IH]; intros Hf a; simpl; [done|].
  rewrite Hf by (apply elem_of_cons; by left). apply IH.
  intros a' x' Hx'. apply Hf, elem_of_cons. by right.
Qed.

(** On a laid-out game [Minesweeper.nearby_mines] computes what the
    count over the set of mines computes. *)
Lemma nearby_mines_of_game g cell :
  Minesweeper.laid_out g →
  Minesweeper.nearby_mines g cell
  = Minesweeper.Returned
      (nearby_mines (Minesweeper.height g) (Minesweeper.width g)
                    (Minesweeper.mines g) cell).
Proof.
  intros Hlaid. unfold Minesweeper.nearby_mines, nearby_mines.
  apply foldl_Returned. intros n i _.
  apply (foldl_Returned _ (λ count j, _)). intros n' j _.
  unfold mbind at 1, Minesweeper.run_bind at 1.
  case_bool_decide; [done|]. case_bool_decide as Hin; [|done].
  destruct Hin as [Hi Hj].
  destruct (laid_out_read g i j Hlaid Hi Hj) as (row & _ & _ & -> & Hget).
  unfold mbind, Minesweeper.run_bind. rewrite Hget.
  by destruct (bool_decide ((i, j) ∈ Minesweeper.mines g)).
Qed.

Lemma size_neighbourhood h w cell : (size (neighbourhood h w cell) ≤ 8)%nat.
Proof.
  assert (neighbourhood h w cell
          ⊆ list_to_set (around cell) ∖ {[cell]}) as Hsub.
  { intros c Hc. unfold neighbourhood in Hc.
    apply elem_of_filter in Hc as [(Hne & _) Hin].
    apply elem_of_difference. split; [done|]. by apply not_elem_of_singleton. }
  apply subseteq_size in Hsub.
  rewrite size_difference in Hsub.
  - rewrite size_singleton, size_list_to_set in Hsub by apply NoDup_around.
    assert (length (around cell) = 9%nat) as Hlen.
    { unfold around. rewrite (length_bind_const _ 3%nat).
      - by rewrite length_seqZ.
      - intros m. rewrite (length_bind_const _ 1%nat) by done.
        by rewrite length_seqZ. }
    lia.
  - intros c ->%elem_of_singleton.
    apply elem_of_list_to_set, elem_of_around. lia.
Qed.

(** X14: [nearby_mines] on a laid-out game returns, for any cell, the number
    of mines among the up to eight cells of the board around it, the
    cell itself not counted; it is between 0 and 8 and it raises
    nothing, also for a cell off the board. *)
Theorem nearby_mines_counts g cell :
  Minesweeper.laid_out g →
  ∃ n : nat,
    Minesweeper.nearby_mines g cell = Minesweeper.Returned (Z.of_nat n)
    ∧ n = size (neighbourhood (Minesweeper.height g) (Minesweeper.width g) cell
                ∩ Minesweeper.mines g)
    ∧ (n ≤ 8)%nat.
Proof.
  intros Hlaid. eexists. split; [|split; [done|]].
  - by rewrite nearby_mines_of_game, nearby_mines_spec.
  - etrans; [|apply (size_neighbourhood (Minesweeper.height g)
                       (Minesweeper.width g) cell)].
    apply subseteq_size. set_solver.
Qed.

(** X15: The game and the engine together: in a game that is laid out, when
    every call so far told the truth about the game's mines, feeding
    the engine what the game answers for a cell that [is_mine] denies
    makes [add_knowledge] return, in a state where again every known
    mine is a mine of the game and no known safe cell is. *)
Theorem observation_of_the_game g st cell n :
  Minesweeper.laid_out g →
  reachable_by
    (truthful (Minesweeper.height g) (Minesweeper.width g) (Minesweeper.mines g))
    (Minesweeper.height g) (Minesweeper.width g) st →
  Minesweeper.is_mine g cell = Minesweeper.Returned false →
  Minesweeper.nearby_mines g cell = Minesweeper.Returned n →
  ∃ fuel st',
    add_knowledge fuel cell n st = Done st'
    ∧ mines st' ⊆ Minesweeper.mines g
    ∧ safes st' ∩ Minesweeper.mines g = ∅
    ∧ ∀ c, make_safe_move st' = Some c → c ∉ Minesweeper.mines g.
Proof.
  intros Hlaid Hreach Hmine Hnear.
  set (h := Minesweeper.height g) in *. set (w := Minesweeper.width g) in *.
  set (board := Minesweeper.mines g) in *.
  assert (cell ∉ board) as Hcell.
  { intros Hin. pose proof Hlaid as (_ & _ & _ & Hmines).
    destruct (Hmines cell Hin) as [Hi Hj]. destruct cell as [i j].
    unfold Minesweeper.is_mine in Hmine. simpl in *.
    destruct (laid_out_read g i j Hlaid Hi Hj) as (row & _ & _ & Hget & Hgetj).
    rewrite Hget in Hmine. unfold mbind, Minesweeper.run_bind in Hmine.
    rewrite Hgetj in Hmine. injection Hmine as Hb.
    by apply bool_decide_eq_false in Hb. }
  rewrite nearby_mines_of_game in Hnear by done. injection Hnear as <-.
  fold h w board.
  pose proof (reachable_sound board h w st Hreach) as Hso.
  pose proof (reachable_shaped _ _ _ _ Hreach) as (Hwf & Hh & Hw).
  destruct (closure_returns board cell Hcell
              (observe cell (nearby_mines h w board cell) st))
    as (fuel & st' & Hcl).
  { rewrite <-Hh, <-Hw. by apply sound_observe. }
  { by apply observed_cell_closed. }
  exists fuel, st'. split; [exact Hcl|].
  assert (sound board st') as (_ & Hm & Hs & _).
  { eapply sound_closure; [exact Hcell| |exact Hcl].
    rewrite <-Hh, <-Hw. by apply sound_observe. }
  split; [done|]. split; [set_solver|].
  intros c Hc. unfold make_safe_move in Hc. apply head_Some_elem_of in Hc.
  apply list_elem_of_filter in Hc as [_ Hc%elem_of_elements]. set_solver.
Qed.

Lemma foldl_appends {A B}
    (f : Minesweeper.run (list A) → B → Minesweeper.run (list A))
    (p : B → list A) (l : list B) :
  (∀ o x, x ∈ l →
     f (Minesweeper.Returned o) x = Minesweeper.Returned (o ++ p x)) →
  ∀ o, foldl f (Minesweeper.Returned o) l
       = Minesweeper.Returned (o ++ (l ≫= p)).
Proof.
  induction l as [|x l IH]; intros Hf o.
  - simpl. by rewrite app_nil_r.
  - simpl foldl. rewrite Hf by (apply elem_of_cons; by left).
    rewrite IH by (intros o' x' Hx'; apply Hf, elem_of_cons; by right).
    change ((x :: l) ≫= p) with (p x ++ (l ≫= p)). by rewrite app_assoc.
Qed.

Lemma lookup_bind_block {A B} (f : A → list B) (m : nat) (l : list A)
    (k r : nat) (x : A) :
  (∀ y, length (f y) = m) → l !! k = Some x → (r < m)%nat →
  (l ≫= f) !! (k * m + r)%nat = f x !! r.
Proof.
  intros Hf. revert k. induction l as [|y l IH]; intros k Hk Hr; [done|].
  change ((y :: l) ≫= f) with (f y ++ (l ≫= f)).
  destruct k as [|k]; simpl in Hk.
  - injection Hk as ->. simpl. apply lookup_app_l. by rewrite Hf.
  - rewrite lookup_app_r by (rewrite Hf; simpl; lia).
    rewrite Hf. replace (S k * m + r - m)%nat with (k * m + r)%nat by (simpl; lia).
    by apply IH.
Qed.

Lemma print_of_game g :
  Minesweeper.laid_out g →
  Minesweeper.print g
  = Minesweeper.Returned
      ((seqZ 0 (Minesweeper.height g) ≫= λ i,
          [Minesweeper.dashes (Minesweeper.width g); row_text g i])
       ++ [Minesweeper.dashes (Minesweeper.width g)]).
Proof.
  intros Hlaid. unfold Minesweeper.print.
  rewrite (foldl_appends _
             (λ i, [Minesweeper.dashes (Minesweeper.width g); row_text g i])).
  { done. }
  intros out i Hi%elem_of_seqZ. unfold mbind at 1, Minesweeper.run_bind at 1.
  rewrite (foldl_appends _
             (λ j, ["|"; if bool_decide ((i, j) ∈ Minesweeper.mines g)
                         then "X" else " "]%char)).
  { done. }
  intros line j Hj%elem_of_seqZ. unfold mbind at 1, Minesweeper.run_bind at 1.
  destruct (laid_out_read g i j Hlaid) as (row & _ & _ & -> & Hget);
    [lia|lia|].
  unfold mbind, Minesweeper.run_bind. rewrite Hget.
  by destruct (bool_decide ((i, j) ∈ Minesweeper.mines g)).
Qed.

Lemma length_dashes w : length (Minesweeper.dashes w) = (2 * Z.to_nat w + 1)%nat.
Proof.
  unfold Minesweeper.dashes.
  rewrite length_app, (length_bind_const _ 2%nat), length_seqZ by done.
  simpl. lia.
Qed.

Lemma length_row_text g i :
  length (row_text g i) = (2 * Z.to_nat (Minesweeper.width g) + 1)%nat.
Proof.
  unfold row_text.
  rewrite length_app, (length_bind_const _ 2%nat), length_seqZ by done.
  simpl. lia.
Qed.

(** X16: [print] on a laid-out game raises nothing and writes
    [2 * height + 1] lines of [2 * width + 1] characters: a line of
    dashes before each row and after the last, and for each row a line
    with ["|"] before every cell and at the end, on which the cell
    [(i, j)] shows as ["X"] when it is a mine and as a blank when it is
    not. *)
Theorem print_draws_the_board g :
  Minesweeper.laid_out g →
  ∃ lines,
    Minesweeper.print g = Minesweeper.Returned lines
    ∧ length lines = (2 * Z.to_nat (Minesweeper.height g) + 1)%nat
    ∧ (∀ line, line ∈ lines →
         length line = (2 * Z.to_nat (Minesweeper.width g) + 1)%nat)
    ∧ (∀ i : nat, (i ≤ Z.to_nat (Minesweeper.height g))%nat →
         lines !! (2 * i)%nat
         = Some (Minesweeper.dashes (Minesweeper.width g)))
    ∧ ∀ i j, (0 ≤ i < Minesweeper.height g) → (0 ≤ j < Minesweeper.width g) →
        lines !! (2 * Z.to_nat i + 1)%nat ≫= (.!! (2 * Z.to_nat j + 1)%nat)
        = Some (if bool_decide ((i, j) ∈ Minesweeper.mines g)
                then "X" else " ")%char.
Proof.
  intros Hlaid. eexists. split; [by apply print_of_game|].
  set (h := Minesweeper.height g). set (w := Minesweeper.width g).
  set (rows := seqZ 0 h ≫= λ i, [Minesweeper.dashes w; row_text g i]).
  assert (length rows = (2 * Z.to_nat h)%nat) as Hrows.
  { subst rows. rewrite (length_bind_const _ 2%nat), length_seqZ by done. lia. }
  assert (∀ i : nat, (i < Z.to_nat h)%nat → ∀ r, (r < 2)%nat →
            rows !! (2 * i + r)%nat
            = [Minesweeper.dashes w; row_text g (Z.of_nat i)] !! r) as Hblock.
  { intros i Hi r Hr. subst rows.
    replace (2 * i + r)%nat with (i * 2 + r)%nat by lia.
    rewrite (lookup_bind_block _ 2%nat _ _ _ (Z.of_nat i)); [done|done| |done].
    rewrite lookup_seqZ_lt by lia. f_equal; lia. }
  split; [|split; [|split]].
  - rewrite length_app, Hrows. simpl. lia.
  - intros line [Hin| ->%list_elem_of_singleton]%elem_of_app;
      [|apply length_dashes].
    subst rows. apply list_elem_of_bind in Hin as (i & Hin & _).
    apply elem_of_cons in Hin as [->|Hin]; [apply length_dashes|].
    apply list_elem_of_singleton in Hin as ->. apply length_row_text.
  - intros i Hi. destruct (decide (i = Z.to_nat h)) as [->|Hne].
    + rewrite lookup_app_r by lia. rewrite Hrows.
      by replace (2 * Z.to_nat h - 2 * Z.to_nat h)%nat with 0%nat by lia.
    + rewrite lookup_app_l by lia.
      replace (2 * i)%nat with (2 * i + 0)%nat by lia.
      rewrite Hblock by lia. done.
  - intros i j Hi Hj. rewrite lookup_app_l by lia.
    rewrite Hblock by lia. simpl. rewrite Z2Nat.id by lia.
    unfold row_text. rewrite lookup_app_l
      by (rewrite (length_bind_const _ 2%nat), length_seqZ by done; fold w; lia).
    replace (Z.to_nat j + (Z.to_nat j + 0) + 1)%nat
      with (Z.to_nat j * 2 + 1)%nat by lia.
    rewrite (lookup_bind_block _ 2%nat _ _ _ j); [done|done| |lia].
    rewrite lookup_seqZ_lt by (fold w; lia). f_equal; lia.
Qed.

End game.

(** ** What a sentence says of a board *)

Section sentence_meaning.
Implicit Types (s : Sentence) (c d : Cell) (board : gset Cell).

(** X17: The deductions of a sentence are true of every board of which the
    sentence is true: when [count] is the number of mines of [board]
    among [cells], the cells of [known_mines] are mines of the board,
    the cells of [known_safes] are not, and the sentence stays true
    after [mark_mine] of a mine and after [mark_safe] of a cell that is
    no mine. *)
Theorem sentence_deductions_true board s :
  holds board s →
  Sentence.known_mines s ⊆ board
  ∧ Sentence.known_safes s ## board
  ∧ (∀ c, c ∈ board → holds board (Sentence.mark_mine c s))
  ∧ (∀ c, c ∉ board → holds board (Sentence.mark_safe c s)).
Proof.
  intros Hs. split; [by apply holds_known_mines|].
  split; [by apply holds_known_safes|]. split; intros c Hc.
  - by apply holds_mark_mine.
  - by apply holds_mark_safe.
Qed.

Lemma marks_commute (f g : Z → Z) (mf mg : Cell → Sentence → Sentence) s c d :
  (∀ c s, c ∈ cells s → mf c s = mkSentence (cells s ∖ {[c]}) (f (count s))) →
  (∀ c s, c ∉ cells s → mf c s = s) →
  (∀ c s, c ∈ cells s → mg c s = mkSentence (cells s ∖ {[c]}) (g (count s))) →
  (∀ c s, c ∉ cells s → mg c s = s) →
  (∀ n, f (g n) = g (f n)) →
  c ≠ d →
  mf c (mg d s) = mg d (mf c s).
Proof.
  intros Hfin Hfout Hgin Hgout Hfg Hne. destruct s as [X n].
  assert (X ∖ {[d]} ∖ {[c]} = X ∖ {[c]} ∖ {[d]}) as Hsets by set_solver.
  destruct (decide (c ∈ X)) as [Hc|Hc], (decide (d ∈ X)) as [Hd|Hd].
  - rewrite (Hgin d) by done. rewrite (Hfin c (mkSentence X n)) by done. simpl.
    rewrite Hfin by (simpl; set_solver). rewrite Hgin by (simpl; set_solver).
    simpl. by rewrite Hsets, Hfg.
  - rewrite (Hgout d) by done. rewrite (Hfin c) by done.
    rewrite Hgout by (simpl; set_solver). done.
  - rewrite (Hfout c (mkSentence X n)) by done. rewrite (Hgin d) by done.
    rewrite Hfout by (simpl; set_solver). done.
  - rewrite (Hgout d) by done. rewrite (Hfout c) by done.
    by rewrite Hgout.
Qed.

(** X18: Marking two different cells of a sentence, each as a mine or as
    safe, gives the same sentence in either order; marking one cell as
    safe and as a mine does not: the count depends on which mark comes
    first. *)
Theorem sentence_marks_commute s c d :
  c ≠ d →
  Sentence.mark_mine c (Sentence.mark_mine d s)
  = Sentence.mark_mine d (Sentence.mark_mine c s)
  ∧ Sentence.mark_safe c (Sentence.mark_safe d s)
    = Sentence.mark_safe d (Sentence.mark_safe c s)
  ∧ Sentence.mark_mine c (Sentence.mark_safe d s)
    = Sentence.mark_safe d (Sentence.mark_mine c s)
  ∧ (c ∈ cells s →
     count (Sentence.mark_mine c (Sentence.mark_safe c s))
     = 1 + count (Sentence.mark_safe c (Sentence.mark_mine c s))).
Proof.
  intros Hne. split; [|split; [|split]].
  - apply (marks_commute (λ n, n - 1) (λ n, n - 1));
      auto using mark_mine_in, mark_mine_notin.
  - apply (marks_commute (λ n, n) (λ n, n));
      auto using mark_safe_in, mark_safe_notin.
  - apply (marks_commute (λ n, n - 1) (λ n, n));
      auto using mark_mine_in, mark_mine_notin, mark_safe_in, mark_safe_notin.
  - intros Hc. rewrite count_mark_safe.
    rewrite (mark_mine_notin c (Sentence.mark_safe c s))
      by (rewrite cells_mark_safe; set_solver).
    rewrite count_mark_safe, mark_mine_in by done. simpl. lia.
Qed.

End sentence_meaning.

(** ** The further properties on concrete boards *)

Section more_scenarios.

Lemma reach_one_observation ok h w cell n st :
  ok (init h w) (AddKnowledge cell n) →
  exec 5 (AddKnowledge cell n) (init h w) = Done st →
  reachable_by ok h w st.
Proof.
  intros Hok Hexec.
  exact (reach_call ok h w (init h w) (AddKnowledge cell n) 5 st
           (reach_init ok h w) Hok Hexec).
Defined.

Lemma add_knowledge_keeps_witness :
  ∃ st st',
    exec 5 (AddKnowledge (0, 0) 1) (init 3 3) = Done st
    ∧ add_knowledge 5 (1, 0) 1 st = Done st'
    ∧ mines st ⊆ mines st'
    ∧ {[ (1, 0) ]} ∪ safes st ⊆ safes st'
    ∧ moves_made st' = {[ (1, 0) ]} ∪ moves_made st
    ∧ height st' = 3 ∧ width st' = 3.
Proof.
  eexists. eexists. split; [vm_compute; reflexivity|].
  split; [vm_compute; reflexivity|].
  apply (add_knowledge_keeps 3 3 _ 5 (1, 0) 1).
  - apply (reach_one_observation any_call 3 3 (0, 0) 1); [done|].
    vm_compute. reflexivity.
  - vm_compute. reflexivity.
Defined.

Lemma moves_made_are_safe_witness :
  ∃ st,
    exec 5 (AddKnowledge (0, 0) 1) (init 3 3) = Done st
    ∧ moves_made st ⊆ safes st.
Proof.
  eexists. split; [vm_compute; reflexivity|].
  apply (moves_made_are_safe 3 3).
  apply (reach_one_observation any_call 3 3 (0, 0) 1); [done|].
  vm_compute. reflexivity.
Defined.

Lemma mark_propagates_witness :
  ∃ st,
    exec 5 (AddKnowledge (0, 0) 1) (init 3 3) = Done st
    ∧ sentences (mark_mine (0, 1) st)
      = Sentence.mark_mine (0, 1) <$> sentences st.
Proof.
  eexists. split; [vm_compute; reflexivity|].
  eapply (mark_propagates 3 3).
  apply (reach_one_observation any_call 3 3 (0, 0) 1); [done|].
  vm_compute. reflexivity.
Defined.

Lemma engine_sound_witness :
  ∃ st,
    exec 5 (AddKnowledge (0, 0) 1) (init 3 3) = Done st
    ∧ mines st ⊆ {[ (1, 1) ]}
    ∧ safes st ∩ {[ (1, 1) ]} = ∅.
Proof.
  eexists. split; [vm_compute; reflexivity|].
  match goal with |- mines ?st0 ⊆ _ ∧ _ =>
    destruct (engine_sound 3 3 {[ (1, 1) ]} st0) as (Hm & Hs & _) end.
  - apply (reach_one_observation _ 3 3 (0, 0) 1).
    + split; [apply (bool_decide_unpack _); by vm_compute|by vm_compute].
    + vm_compute. reflexivity.
  - split; [exact Hm|exact Hs].
Defined.

Lemma sentences_unresolved_witness :
  ∃ st,
    exec 5 (AddKnowledge (0, 0) 1) (init 3 3) = Done st
    ∧ ((0, 1) ∉ mines st) ∧ ((0, 1) ∉ safes st)
    ∧ (0 ≤ 0 < 3) ∧ (0 ≤ 1 < 3).
Proof.
  eexists. split; [vm_compute; reflexivity|].
  apply (sentences_unresolved 3 3 _
           (mkSentence {[ (0, 1); (1, 0); (1, 1) ]} 1) (0, 1)).
  - apply (reach_one_observation any_call 3 3 (0, 0) 1); [done|].
    vm_compute. reflexivity.
  - apply (bool_decide_unpack _). by vm_compute.
  - apply (bool_decide_unpack _). by vm_compute.
Defined.

Lemma add_knowledge_saturates_witness :
  ∃ st',
    add_knowledge 5 (0, 0) 1 (init 3 3) = Done st'
    ∧ ∀ s, s ∈ sentences st' →
        cells s ≠ ∅ ∧ count s ≠ 0 ∧ count s ≠ Z.of_nat (size (cells s)).
Proof.
  eexists. split; [vm_compute; reflexivity|].
  eapply (add_knowledge_saturates 3 3 (init 3 3) 5 (0, 0) 1).
  - apply reach_init.
  - vm_compute. reflexivity.
Defined.

Lemma make_random_move_returns_witness :
  ∃ st,
    exec 5 (AddKnowledge (0, 0) 1) (init 2 2) = Done st
    ∧ ∃ fuel c',
        make_random_move fuel (λ k, if (k <? 2)%nat then 0 else 1) 0 st
        = Done (Some c').
Proof.
  eexists. split; [vm_compute; reflexivity|].
  apply (make_random_move_returns _ _ 1 0%nat (1, 1)).
  - by vm_compute.
  - by vm_compute.
  - vm_compute. reflexivity.
  - apply (bool_decide_unpack _). by vm_compute.
  - apply (bool_decide_unpack _). by vm_compute.
Defined.

Lemma make_random_move_empty_board_witness :
  make_random_move 1 (λ _, 0) 0 (init 0 3) = Raised ValueError.
Proof.
  apply (make_random_move_empty_board 0 (λ _, 0) 0%nat (init 0 3)).
  left. simpl. lia.
Defined.

Lemma init_lays_the_mines_witness :
  ∃ g,
    Minesweeper.init 5 (λ k, Z.of_nat k) 2 2 1 = Minesweeper.Returned g
    ∧ Z.of_nat (size (Minesweeper.mines g)) = 1
    ∧ Minesweeper.won g = bool_decide (1 = 0).
Proof.
  eexists. split; [vm_compute; reflexivity|].
  match goal with |- Z.of_nat (size (Minesweeper.mines ?g0)) = _ ∧ _ =>
    destruct (init_lays_the_mines 5 (λ k, Z.of_nat k) 2 2 1 g0)
      as (_ & _ & Hsize & _ & _ & _ & _ & _ & Hwon) end.
  - vm_compute. reflexivity.
  - split; [exact Hsize|exact Hwon].
Defined.

Lemma init_never_returns_witness :
  Minesweeper.init 7 (λ k, Z.of_nat k) 2 2 5 = Minesweeper.OutOfFuel.
Proof.
  apply (init_never_returns 7 (λ k, Z.of_nat k) 2 2 5); lia.
Defined.

Lemma is_mine_indexing_witness :
  ∃ g,
    Minesweeper.init 5 (λ k, Z.of_nat k) 2 2 1 = Minesweeper.Returned g
    ∧ Minesweeper.is_mine g (-2, 1) = Minesweeper.is_mine g (0, 1)
    ∧ Minesweeper.is_mine g (0, 2)
      = Minesweeper.Raises Minesweeper.IndexError.
Proof.
  eexists. split; [vm_compute; reflexivity|].
  match goal with |- Minesweeper.is_mine ?g0 _ = _ ∧ _ =>
    destruct (init_laid_out 5 (λ k, Z.of_nat k) 2 2 1 g0) as (Hlaid & _);
      [vm_compute; reflexivity|];
    destruct (is_mine_indexing g0 (-2) 1 Hlaid) as (_ & Hrow & _);
    destruct (is_mine_indexing g0 0 2 Hlaid) as (_ & _ & _ & Hout) end.
  split.
  - apply Hrow. simpl. lia.
  - apply Hout. simpl. lia.
Defined.

Lemma nearby_mines_counts_witness :
  ∃ g,
    Minesweeper.init 5 (λ k, Z.of_nat k) 2 2 1 = Minesweeper.Returned g
    ∧ ∃ n : nat,
        Minesweeper.nearby_mines g (1, 0) = Minesweeper.Returned (Z.of_nat n)
        ∧ n = size (neighbourhood (Minesweeper.height g) (Minesweeper.width g)
                      (1, 0) ∩ Minesweeper.mines g)
        ∧ (n ≤ 8)%nat.
Proof.
  eexists. split; [vm_compute; reflexivity|].
  apply nearby_mines_counts.
  apply (init_laid_out 5 (λ k, Z.of_nat k) 2 2 1). vm_compute. reflexivity.
Defined.

Lemma observation_of_the_game_witness :
  ∃ g,
    Minesweeper.init 5 (λ k, Z.of_nat k) 2 2 1 = Minesweeper.Returned g
    ∧ ∃ fuel st',
        add_knowledge fuel (1, 0) 1 (init 2 2) = Done st'
        ∧ mines st' ⊆ Minesweeper.mines g
        ∧ safes st' ∩ Minesweeper.mines g = ∅
        ∧ ∀ c, make_safe_move st' = Some c → c ∉ Minesweeper.mines g.
Proof.
  eexists. split; [vm_compute; reflexivity|].
  match goal with |- ∃ fuel st', _ ∧ _ ⊆ Minesweeper.mines ?g0 ∧ _ =>
    apply (observation_of_the_game g0 (init 2 2) (1, 0) 1) end.
  - apply (init_laid_out 5 (λ k, Z.of_nat k) 2 2 1). vm_compute. reflexivity.
  - apply reach_init.
  - vm_compute. reflexivity.
  - vm_compute. reflexivity.
Defined.

Lemma print_draws_the_board_witness :
  ∃ g lines,
    Minesweeper.init 5 (λ k, Z.of_nat k) 2 2 1 = Minesweeper.Returned g
    ∧ Minesweeper.print g = Minesweeper.Returned lines
    ∧ length lines = (2 * Z.to_nat (Minesweeper.height g) + 1)%nat.
Proof.
  eexists.
  match goal with |- ∃ lines, Minesweeper.init _ _ _ _ _ = _ ?g0 ∧ _ =>
    destruct (print_draws_the_board g0) as (lines & Hprint & Hlen & _) end.
  - apply (init_laid_out 5 (λ k, Z.of_nat k) 2 2 1). vm_compute. reflexivity.
  - exists lines. split; [vm_compute; reflexivity|]. split; [exact Hprint|exact Hlen].
Defined.

Lemma sentence_deductions_true_witness :
  holds {[ (0, 0) ]} (mkSentence {[ (0, 0); (0, 1) ]} 1)
  ∧ Sentence.known_mines (mkSentence {[ (0, 0); (0, 1) ]} 1)
    ⊆ ({[ (0, 0) ]} : gset Cell)
  ∧ holds {[ (0, 0) ]}
      (Sentence.mark_mine (0, 0) (mkSentence {[ (0, 0); (0, 1) ]} 1)).
Proof.
  assert (holds {[ (0, 0) ]} (mkSentence {[ (0, 0); (0, 1) ]} 1)) as Hs
    by (vm_compute; reflexivity).
  destruct (sentence_deductions_true {[ (0, 0) ]}
              (mkSentence {[ (0, 0); (0, 1) ]} 1) Hs) as (Hm & _ & Hmark & _).
  split; [exact Hs|]. split; [exact Hm|].
  apply Hmark. apply (bool_decide_unpack _). by vm_compute.
Defined.

Lemma sentence_marks_commute_witness :
  Sentence.mark_mine (0, 0)
    (Sentence.mark_safe (0, 1) (mkSentence {[ (0, 0); (0, 1) ]} 1))
  = Sentence.mark_safe (0, 1)
      (Sentence.mark_mine (0, 0) (mkSentence {[ (0, 0); (0, 1) ]} 1)).
Proof.
  destruct (sentence_marks_commute (mkSentence {[ (0, 0); (0, 1) ]} 1)
              (0, 0) (0, 1)) as (_ & _ & Hms & _); [done|].
  exact Hms.
Defined.

End more_scenarios.
